(** * Wikipedia math fetcher: text-cleaning pipeline of [functions.py]

    The development embeds the string transformations of [functions.py]
    (stacked-math collapser, displaystyle converter, inline wrapper,
    orchestrator, fetch function) together with the part of Python's
    [re] and [str] libraries they call, and proves the properties the
    specification states about them. *)

From Stdlib Require Import List NArith ZArith Bool Arith Lia String Ascii.
Import ListNotations.

(* ===================================================================== *)
(** * Text: sequences of Unicode code points                              *)
(* ===================================================================== *)

(** A Python [str] is a sequence of code points; [len], [strip], [split]
    and the regular expressions all count code points, not bytes. *)
Definition char := N.
Definition str := list char.

Local Open Scope N_scope.

Definition chr_eqb (a b : char) : bool := N.eqb a b.

(** Source literals are written in UTF-8, as in the Python file. *)
Fixpoint utf8_decode (bs : list N) : str :=
  match bs with
  | [] => []
  | b0 :: r0 =>
      if b0 <? 128 then b0 :: utf8_decode r0
      else if b0 <? 224 then
        match r0 with
        | b1 :: r1 => ((b0 - 192) * 64 + (b1 - 128)) :: utf8_decode r1
        | _ => []
        end
      else if b0 <? 240 then
        match r0 with
        | b1 :: b2 :: r2 =>
            ((b0 - 224) * 4096 + (b1 - 128) * 64 + (b2 - 128)) :: utf8_decode r2
        | _ => []
        end
      else
        match r0 with
        | b1 :: b2 :: b3 :: r3 =>
            ((b0 - 240) * 262144 + (b1 - 128) * 4096 + (b2 - 128) * 64 + (b3 - 128))
              :: utf8_decode r3
        | _ => []
        end
  end.

Definition u (x : string) : str :=
  utf8_decode (List.map N_of_ascii (list_ascii_of_string x)).

(** The one-character literal ['c']. *)
Definition ch (x : string) : char := hd 0 (u x).

Definition nl : char := 10.          (* '\n' *)
Definition word_joiner : char := 8288. (* U+2060 *)

(** [str.isspace] on one code point: the table of CPython's
    [_PyUnicode_IsWhitespace]; [\s] in a [str] pattern and [str.strip]
    both use it. *)
Definition isspace (c : char) : bool :=
  ((9 <=? c) && (c <=? 13)) || ((28 <=? c) && (c <=? 32))
  || (c =? 133) || (c =? 160) || (c =? 5760)
  || ((8192 <=? c) && (c <=? 8202))
  || (c =? 8232) || (c =? 8233) || (c =? 8239) || (c =? 8287) || (c =? 12288).

Definition mem (c : char) (l : str) : bool := existsb (chr_eqb c) l.

Definition in_range (lo hi : string) (c : char) : bool :=
  (ch lo <=? c) && (c <=? ch hi).

(** ** [str] methods *)

Fixpoint lstrip (s : str) : str :=
  match s with
  | [] => []
  | c :: r => if isspace c then lstrip r else s
  end.

Definition rstrip (s : str) : str := rev (lstrip (rev s)).

Definition strip (s : str) : str := rstrip (lstrip s).

(** [text.split('\n')]: never empty, [''.split('\n') = ['']]. *)
Fixpoint split_nl (t : str) : list str :=
  match t with
  | [] => [[]]
  | c :: r =>
      if chr_eqb c nl then [] :: split_nl r
      else match split_nl r with
           | l :: ls => (c :: l) :: ls
           | [] => [[c]]
           end
  end.

(** [sep.join(parts)]. *)
Fixpoint join (sep : str) (parts : list str) : str :=
  match parts with
  | [] => []
  | [p] => p
  | p :: ps => p ++ sep ++ join sep ps
  end.

(** [text.replace(old, new)] for a one-character [old], the only way the
    source calls it. *)
Definition replace (old : char) (new : str) (text : str) : str :=
  flat_map (fun c => if chr_eqb c old then new else [c]) text.

(* ===================================================================== *)
(** * The fragment of Python's [re] the source uses                       *)
(* ===================================================================== *)

(** Patterns.  [Chr] is a literal character, [Cls] a character class
    ([[...]], [\s], [\S]), [Star] the greedy [*], [Alt] the ordered
    choice, [Group n] the capturing group number [n], [Backref n] is
    [\n], [Bol] and [Eol] are [^] and [$] without flags, [EolM] is [$]
    under [re.MULTILINE], [NotBehind] and [NotAhead] are the one-character
    negative lookarounds [(?<!c)] and [(?!c)]. *)
Inductive regex : Type :=
| Eps
| Chr (c : char)
| Cls (p : char -> bool)
| Seq (r1 r2 : regex)
| Alt (r1 r2 : regex)
| Star (r : regex)
| Group (n : nat) (r : regex)
| Backref (n : nat)
| Bol
| Eol
| EolM
| NotBehind (p : char -> bool)
| NotAhead (p : char -> bool).

Infix "~>" := Seq (at level 60, right associativity).

(** [r+], [r?], a literal string, and [r{3,}]. *)
Definition Plus (r : regex) : regex := r ~> Star r.
Definition Opt (r : regex) : regex := Alt r Eps.
Fixpoint Lit (s : str) : regex :=
  match s with
  | [] => Eps
  | c :: s' => Chr c ~> Lit s'
  end.
Definition AtLeast3 (r : regex) : regex := r ~> r ~> r ~> Star r.

(** The matcher's position in the subject: the characters already
    passed (nearest first), the characters to come, and the groups
    captured so far (latest first). *)
Record state : Type := State {
  before : str;
  after : str;
  caps : list (nat * str)
}.

Definition remaining (st : state) : nat := List.length (after st).

Definition step (c : char) (rest : str) (st : state) : state :=
  {| before := c :: before st; after := rest; caps := caps st |}.

Fixpoint lookup (n : nat) (l : list (nat * str)) : option str :=
  match l with
  | [] => None
  | (i, g) :: l' => if Nat.eqb i n then Some g else lookup n l'
  end.

(** The text between two positions of the same subject. *)
Definition between (st st' : state) : str :=
  firstn (remaining st - remaining st') (after st).

Definition set_group (n : nat) (g : str) (st : state) : state :=
  {| before := before st; after := after st; caps := (n, g) :: caps st |}.

(** Consume the literal text [g] (a back-reference). *)
Fixpoint eat (g : str) (st : state) : option state :=
  match g with
  | [] => Some st
  | c :: g' =>
      match after st with
      | x :: rest => if chr_eqb x c then eat g' (step x rest st) else None
      | [] => None
      end
  end.

Definition cont := state -> option state.

(** Greedy repetition: try one more iteration first, fall back to the
    continuation.  An iteration that consumes nothing ends the
    repetition.  [n] bounds the number of iterations by the number of
    characters left, which every consuming iteration decreases. *)
Fixpoint star_loop (body : cont -> cont) (k : cont) (n : nat) (st : state)
  : option state :=
  match n with
  | O => k st
  | S n' =>
      match body (fun st' =>
                    if Nat.ltb (remaining st') (remaining st)
                    then star_loop body k n' st'
                    else k st') st with
      | Some x => Some x
      | None => k st
      end
  end.

(** The backtracking matcher, in continuation-passing style: [m r k st]
    tries the ways [r] can match at [st] in Python's priority order and
    returns the first one the rest of the match [k] accepts. *)
Fixpoint m (r : regex) (k : cont) (st : state) : option state :=
  match r with
  | Eps => k st
  | Chr c =>
      match after st with
      | x :: rest => if chr_eqb x c then k (step x rest st) else None
      | [] => None
      end
  | Cls p =>
      match after st with
      | x :: rest => if p x then k (step x rest st) else None
      | [] => None
      end
  | Seq r1 r2 => m r1 (fun st' => m r2 k st') st
  | Alt r1 r2 =>
      match m r1 k st with
      | Some x => Some x
      | None => m r2 k st
      end
  | Star r1 => star_loop (m r1) k (S (remaining st)) st
  | Group n r1 => m r1 (fun st' => k (set_group n (between st st') st')) st
  | Backref n =>
      match lookup n (caps st) with
      | Some g => match eat g st with
                  | Some st' => k st'
                  | None => None
                  end
      | None => None
      end
  | Bol => match before st with [] => k st | _ :: _ => None end
  | Eol =>
      match after st with
      | [] => k st
      | [c] => if chr_eqb c nl then k st else None
      | _ => None
      end
  | EolM =>
      match after st with
      | [] => k st
      | c :: _ => if chr_eqb c nl then k st else None
      end
  | NotBehind p =>
      match before st with
      | c :: _ => if p c then None else k st
      | [] => k st
      end
  | NotAhead p =>
      match after st with
      | c :: _ => if p c then None else k st
      | [] => k st
      end
  end.

Definition start_of (text : str) : state :=
  {| before := []; after := text; caps := [] |}.

Definition clear (st : state) : state :=
  {| before := before st; after := after st; caps := [] |}.

(** The last continuation: the match is accepted, unless it is empty and
    the previous match ended here ([must_advance] in [sre]). *)
Definition accept (adv : bool) (st : state) : cont :=
  fun st' => if adv && Nat.eqb (remaining st') (remaining st) then None else Some st'.

(** One match attempt at the current position. *)
Definition match_here (r : regex) (adv : bool) (st : state) : option state :=
  m r (accept adv (clear st)) (clear st).

(** [re.match(pattern, text)] as a truth value. *)
Definition re_match (r : regex) (text : str) : bool :=
  match match_here r false (start_of text) with
  | Some _ => true
  | None => false
  end.

(** A match object: where the match starts and where it ends. *)
Definition group0 (st st' : state) : str := between st st'.
Definition group (n : nat) (st' : state) : str :=
  match lookup n (caps st') with
  | Some g => g
  | None => []
  end.

(** [re.sub]: scan left to right; at each position try the pattern; on a
    match emit the replacement and resume at its end, otherwise copy one
    character.  Each round consumes a character or is an empty match that
    forces the next one to advance, so [2 * len + 2] rounds are enough. *)
Fixpoint sub_loop (r : regex) (repl : state -> state -> str)
    (fuel : nat) (adv : bool) (st : state) : str :=
  match fuel with
  | O => after st
  | S f =>
      match match_here r adv st with
      | Some st' =>
          repl (clear st) st'
            ++ sub_loop r repl f (Nat.eqb (remaining st') (remaining st)) st'
      | None =>
          match after st with
          | [] => []
          | c :: rest => c :: sub_loop r repl f false (step c rest st)
          end
      end
  end.

Definition re_sub (r : regex) (repl : state -> state -> str) (text : str) : str :=
  sub_loop r repl (2 * List.length text + 2) false (start_of text).

(** Common classes. *)
Definition space : regex := Cls isspace.
Definition nonspace : regex := Cls (fun c => negb (isspace c)).
Definition lbrace : char := ch "{".
Definition rbrace : char := ch "}".
Definition not_braces (c : char) : bool := negb (chr_eqb c lbrace || chr_eqb c rbrace).
Definition not_rbrace (c : char) : bool := negb (chr_eqb c rbrace).
Definition letter (c : char) : bool := in_range "A" "Z" c || in_range "a" "z" c.
Definition is_dollar (c : char) : bool := chr_eqb c (ch "$").

(* ===================================================================== *)
(** * Text cleaning and math conversion                                   *)
(* ===================================================================== *)

(** ** [collapse_stacked_math] *)

Definition math_symbols : str :=
  Eval vm_compute in
    u "×÷±∓≤≥≠≈∈∉⊂⊃∪∩∧∨¬→←↔∀∃∂∇∫∑∏√∞αβγδεζηθικλμνξπρστυφχψωΓΔΘΛΞΠΣΦΨΩ=+-*/^().,".

(** The class [[a-zA-Z0-9...=+\-*/^().,]]. *)
Definition math_token_char (c : char) : bool :=
  in_range "a" "z" c || in_range "A" "Z" c || in_range "0" "9" c
  || mem c math_symbols.

Definition math_token_re : regex := Bol ~> Plus (Cls math_token_char) ~> Eol.

(** The test both loops apply to a stripped line. *)
Definition math_like (line : str) : bool :=
  (Nat.leb (List.length line) 3) && re_match math_token_re line.

(** The inner [while]: the stripped math-like lines that follow. *)
Fixpoint collect (lines : list str) : list str :=
  match lines with
  | [] => []
  | l :: rest =>
      let next_line := strip l in
      if (Nat.leb (List.length next_line) 3)
         && negb (Nat.eqb (List.length next_line) 0)
         && re_match math_token_re next_line
      then next_line :: collect rest
      else []
  end.

(** The outer [while] over [lines[i:]]; [fuel] bounds the iterations by
    the number of lines, each iteration moving [i] forward. *)
Fixpoint collapse_loop (fuel : nat) (lines : list str) : list str :=
  match fuel with
  | O => []
  | S f =>
      match lines with
      | [] => []
      | l :: rest =>
          let line := strip l in
          if math_like line then
            let math_tokens := line :: collect rest in
            if Nat.leb 3 (List.length math_tokens)
            then join (u " ") math_tokens
                   :: collapse_loop f (skipn (List.length math_tokens - 1) rest)
            else l :: collapse_loop f rest
          else l :: collapse_loop f rest
      end
  end.

Definition collapse_lines (lines : list str) : list str :=
  collapse_loop (List.length lines) lines.

Definition collapse_stacked_math (text : str) : str :=
  join [nl] (collapse_lines (split_nl text)).

(** ** [convert_displaystyle_latex] *)

Definition whitespace_run : regex := Plus space.

(** What [replace_displaystyle] does with [match.group(1)]. *)
Definition format_math (content : str) : str :=
  let content := strip content in
  let content := re_sub (Lit (u "\times")) (fun _ _ => u " \times ") content in
  let content := re_sub (Lit (u "\cdot")) (fun _ _ => u " \cdot ") content in
  let content := re_sub whitespace_run (fun _ _ => u " ") content in
  u "$" ++ strip content ++ u "$".

Definition replace_displaystyle (st st' : state) : str :=
  let content := group 1 st' in
  format_math content.

(** The pattern, token by token:  \{  \\displaystyle  \s+  ( [^{}]* (?: \{ [^{}]* \} [^{}]* )* )  \}  *)
Definition brace_group_re : regex :=
  Chr lbrace ~> Star (Cls not_braces) ~> Chr rbrace ~> Star (Cls not_braces).
Definition displaystyle_content_re : regex :=
  Star (Cls not_braces) ~> Star brace_group_re.
Definition displaystyle_re : regex :=
  Lit (u "{\displaystyle") ~> Plus space
  ~> Group 1 displaystyle_content_re ~> Chr rbrace.

Definition convert_displaystyle_latex (text : str) : str :=
  re_sub displaystyle_re replace_displaystyle text.

(** ** [convert_inline_latex_fragments] *)

Definition wrap_latex (st st' : state) : str :=
  let content := group0 st st' in
  u "$" ++ content ++ u "$".

(** (?<!\$)  \\NAME  \{  [^}]+  \}  (?!\$)  *)
Definition wrapped_command_re (name : string) : regex :=
  NotBehind is_dollar ~> Lit (u "\" ++ u name) ~> Chr lbrace
  ~> Plus (Cls not_rbrace) ~> Chr rbrace ~> NotAhead is_dollar.

(** (?<!\$)  \\  [A-Za-z]+  (?: \{ [^}]* \} )?  (?!\$)  *)
Definition any_command_re : regex :=
  NotBehind is_dollar ~> Chr (ch "\") ~> Plus (Cls letter)
  ~> Opt (Chr lbrace ~> Star (Cls not_rbrace) ~> Chr rbrace)
  ~> NotAhead is_dollar.

Definition inline_patterns : list regex :=
  [ wrapped_command_re "mathbf"; wrapped_command_re "mathit";
    wrapped_command_re "mathrm"; any_command_re ].

(** \$\$ ( [^$]+ ) \$\$   and   \$ \s* \$  *)
Definition double_dollar_re : regex :=
  Lit (u "$$") ~> Group 1 (Plus (Cls (fun c => negb (is_dollar c)))) ~> Lit (u "$$").
Definition adjacent_dollar_re : regex :=
  Chr (ch "$") ~> Star space ~> Chr (ch "$").

Definition convert_inline_latex_fragments (text : str) : str :=
  let text := fold_left (fun t pattern => re_sub pattern wrap_latex t)
                        inline_patterns text in
  let text := re_sub double_dollar_re
                     (fun _ st' => u "$" ++ group 1 st' ++ u "$") text in
  let text := re_sub adjacent_dollar_re (fun _ _ => u " ") text in
  text.

(** ** [clean_wikipedia_text] *)

(** Step 3, first pattern:  ( \S+ ) \s+ \{ \\displaystyle \s+ \1 \s* \}  *)
Definition dedup_backref_re : regex :=
  Group 1 (Plus nonspace) ~> Plus space ~> Lit (u "{\displaystyle")
  ~> Plus space ~> Backref 1 ~> Star space ~> Chr rbrace.

Definition dedup_backref (text : str) : str :=
  re_sub dedup_backref_re
         (fun _ st' => u "{\displaystyle " ++ group 1 st' ++ u "}") text.

Definition bare_symbols : str :=
  Eval vm_compute in u "×÷±≤≥≠≈∈∉⊂⊃∪∩∞Σσαβγδλμπθφω".

(** The class [[A-Za-z0-9...\s\*\^]] of the second pattern. *)
Definition bare_char (c : char) : bool :=
  in_range "A" "Z" c || in_range "a" "z" c || in_range "0" "9" c
  || mem c bare_symbols || isspace c
  || chr_eqb c (ch "*") || chr_eqb c (ch "^").

(** Step 3, second pattern:  ( [A-Za-z0-9...\s\*\^]+ ) \s+ \{ \\displaystyle \s+ [^}]* \}  *)
Definition dedup_class_re : regex :=
  Group 1 (Plus (Cls bare_char)) ~> Plus space ~> Lit (u "{\displaystyle")
  ~> Plus space ~> Star (Cls not_rbrace) ~> Chr rbrace.

(** The [lambda m: ...] of the second substitution. *)
Definition dedup_class_repl (st st' : state) : str :=
  if Nat.leb (List.length (strip (group 1 st'))) 20
  then u "{\displaystyle " ++ strip (group 1 st') ++ u "}"
  else group0 st st'.

Definition dedup_class (text : str) : str :=
  re_sub dedup_class_re dedup_class_repl text.

(** Steps 1 to 3, which run whatever the target format. *)
Definition dedup_steps (text : str) : str :=
  let text := collapse_stacked_math text in
  let text := replace word_joiner [] text in
  let text := dedup_backref text in
  dedup_class text.

(** Step 6: the dictionary [unicode_to_latex], in insertion order. *)
Definition unicode_to_latex : list (string * string) :=
  [ ("×", " \times "); ("÷", " \div "); ("±", " \pm "); ("≤", " \leq ");
    ("≥", " \geq "); ("≠", " \neq "); ("≈", " \approx "); ("∈", " \in ");
    ("∉", " \notin "); ("⊂", " \subset "); ("⊃", " \supset ");
    ("∪", " \cup "); ("∩", " \cap "); ("∞", "\infty"); ("∑", "\sum");
    ("∏", "\prod"); ("∫", "\int"); ("√", "\sqrt"); ("∂", "\partial");
    ("∇", "\nabla") ]%string.

Definition apply_unicode_to_latex (text : str) : str :=
  fold_left (fun t kv => replace (ch (fst kv)) (u (snd kv)) t)
            unicode_to_latex text.

(** Plain mode:  \\NAME \s* \{ ( [^}]* ) \}  replaced by the group. *)
Definition unwrap_re (name : string) : regex :=
  Lit (u "\" ++ u name) ~> Star space ~> Chr lbrace
  ~> Group 1 (Star (Cls not_rbrace)) ~> Chr rbrace.

Definition unwrap (name : string) (text : str) : str :=
  re_sub (unwrap_re name) (fun _ st' => group 1 st') text.

(** Plain mode: the command names replaced by their glyph, in the order
    of the source. *)
Definition latex_to_unicode : list (string * string) :=
  [ ("\times", "×"); ("\cdot", "·"); ("\Sigma", "Σ"); ("\sigma", "σ");
    ("\alpha", "α"); ("\beta", "β"); ("\gamma", "γ"); ("\delta", "δ");
    ("\lambda", "λ"); ("\mu", "μ"); ("\pi", "π"); ("\theta", "θ");
    ("\phi", "φ"); ("\omega", "ω"); ("\infty", "∞"); ("\leq", "≤");
    ("\geq", "≥"); ("\neq", "≠"); ("\approx", "≈"); ("\in", "∈");
    ("\subset", "⊂"); ("\supset", "⊃"); ("\pm", "±") ]%string.

Definition apply_latex_to_unicode (text : str) : str :=
  fold_left (fun t kv => re_sub (Lit (u (fst kv))) (fun _ _ => u (snd kv)) t)
            latex_to_unicode text.

(**  \{ \\displaystyle [^}]* \}  *)
Definition displaystyle_block_re : regex :=
  Lit (u "{\displaystyle") ~> Star (Cls not_rbrace) ~> Chr rbrace.
(**  \^ \{? \* \}?  *)
Definition star_superscript_re : regex :=
  Chr (ch "^") ~> Opt (Chr lbrace) ~> Chr (ch "*") ~> Opt (Chr rbrace).
(**  \^ \{ ( [^}]* ) \}   and   _ \{ ( [^}]* ) \}  *)
Definition braced_script_re (c : string) : regex :=
  Chr (ch c) ~> Chr lbrace ~> Group 1 (Star (Cls not_rbrace)) ~> Chr rbrace.
(**  , \s* $   under re.MULTILINE *)
Definition trailing_comma_re : regex :=
  Chr (ch ",") ~> Star space ~> EolM.
(**  \n{3,}  *)
Definition blank_lines_re : regex := AtLeast3 (Chr nl).

Definition collapse_whitespace (text : str) : str :=
  re_sub whitespace_run (fun _ _ => u " ") text.

Definition collapse_blank_lines (text : str) : str :=
  re_sub blank_lines_re (fun _ _ => [nl; nl]) text.

(** The [else] branch of [clean_wikipedia_text]. *)
Definition plain_branch (text : str) : str :=
  let text := re_sub displaystyle_block_re (fun _ _ => []) text in
  let text := unwrap "mathbf" text in
  let text := unwrap "mathit" text in
  let text := unwrap "mathrm" text in
  let text := unwrap "text" text in
  let text := apply_latex_to_unicode text in
  let text := re_sub star_superscript_re (fun _ _ => u "*") text in
  let text := re_sub (braced_script_re "^")
                     (fun _ st' => u "^" ++ group 1 st') text in
  let text := re_sub (braced_script_re "_")
                     (fun _ st' => u "_" ++ group 1 st') text in
  let text := re_sub (Chr rbrace) (fun _ _ => []) text in
  let text := re_sub trailing_comma_re (fun _ _ => []) text in
  let text := collapse_whitespace text in
  collapse_blank_lines text.

(** The [if] branch. *)
Definition jupyter_branch (text : str) : str :=
  let text := convert_displaystyle_latex text in
  let text := convert_inline_latex_fragments text in
  apply_unicode_to_latex text.

Definition clean_wikipedia_text (text : str) (for_jupyter : bool) : str :=
  let text := dedup_steps text in
  let text := if for_jupyter then jupyter_branch text else plain_branch text in
  let text := collapse_blank_lines text in
  strip text.

(* ===================================================================== *)
(** * Fetching                                                            *)
(* ===================================================================== *)

(** The exceptions ([Exception] subclasses) the collaborators can raise,
    each with the text [str(e)] gives. *)
Inductive exn : Type :=
| DisambiguationError (options : list str) (msg : str)
| PageError (msg : str)
| IndexError
| OtherException (msg : str).

Definition exn_str (e : exn) : str :=
  match e with
  | DisambiguationError _ msg => msg
  | PageError msg => msg
  | IndexError => u "list index out of range"
  | OtherException msg => msg
  end.

Inductive result (A : Type) : Type :=
| Ok (a : A)
| Raise (e : exn).
Arguments Ok {A} a.
Arguments Raise {A} e.

Definition bind {A B : Type} (x : result A) (f : A -> result B) : result B :=
  match x with
  | Ok a => f a
  | Raise e => Raise e
  end.

Notation "x <- c1 ;; c2" := (bind c1 (fun x => c2))
  (at level 61, c1 at next level, right associativity).

(** A page object: [.title] is loaded with the page, [.summary] is
    fetched when read. *)
Record page_t : Type := Page {
  title : str;
  page_summary : result str;
  page_content : result str
}.

(** The [wikipedia] module. *)
Record wikipedia : Type := Wikipedia {
  search : str -> result (list str);
  page : str -> result page_t;
  summary : str -> Z -> result str
}.

Section Fetch.

Variable W : wikipedia.
(** What [is_jupyter()] answers in the running environment. *)
Variable is_jupyter : bool.

(** [page = wikipedia.page(results[0])], falling back to the first
    disambiguation option. *)
Definition load_page (first : str) : result page_t :=
  match page W first with
  | Raise (DisambiguationError options _) =>
      match options with
      | o :: _ => page W o
      | [] => Raise IndexError
      end
  | r => r
  end.

(** The body of the [try]. *)
Definition wiki_fetch_try (query : str) (sentences : Z) : result str :=
  results <- search W query ;;
  match results with
  | [] => Ok (u "No Wikipedia results found for: " ++ query)
  | first :: _ =>
      pg <- load_page first ;;
      content <- (if (sentences >? 0)%Z
                  then summary W (title pg) sentences
                  else page_summary pg) ;;
      let for_jupyter := is_jupyter in
      let formatted := clean_wikipedia_text content for_jupyter in
      let header :=
        if for_jupyter then u "## " ++ title pg ++ [nl; nl]
        else u "=== " ++ title pg ++ u " ===" ++ [nl; nl] in
      Ok (header ++ formatted)
  end.

Definition wiki_fetch (query : str) (sentences : Z) : result str :=
  match wiki_fetch_try query sentences with
  | Ok s => Ok s
  | Raise (PageError _) => Ok (u "Wikipedia page not found for: " ++ query)
  | Raise e => Ok (u "Error fetching Wikipedia content: " ++ exn_str e)
  end.

End Fetch.

(** A character every match of the pattern has to contain. *)
Fixpoint needs (c : char) (r : regex) : bool :=
  match r with
  | Chr x => chr_eqb x c
  | Seq r1 r2 => needs c r1 || needs c r2
  | Alt r1 r2 => needs c r1 && needs c r2
  | Group _ r1 => needs c r1
  | _ => false
  end.

(* ===================================================================== *)
(** * Relational semantics of patterns                                    *)
(* ===================================================================== *)

(** [rmatch r st st']: pattern [r] can match from position [st] up to
    position [st'].  The matcher [m] explores exactly these matches. *)
Inductive rmatch : regex -> state -> state -> Prop :=
| M_Eps st : rmatch Eps st st
| M_Chr c rest st :
    after st = c :: rest -> rmatch (Chr c) st (step c rest st)
| M_Cls (p : char -> bool) c rest st :
    after st = c :: rest -> p c = true -> rmatch (Cls p) st (step c rest st)
| M_Seq r1 r2 st st1 st2 :
    rmatch r1 st st1 -> rmatch r2 st1 st2 -> rmatch (Seq r1 r2) st st2
| M_AltL r1 r2 st st1 : rmatch r1 st st1 -> rmatch (Alt r1 r2) st st1
| M_AltR r1 r2 st st1 : rmatch r2 st st1 -> rmatch (Alt r1 r2) st st1
| M_StarDone r st : rmatch (Star r) st st
| M_StarStep r st st1 st2 :
    rmatch r st st1 -> (remaining st1 < remaining st)%nat ->
    rmatch (Star r) st1 st2 -> rmatch (Star r) st st2
| M_StarEmpty r st st1 :
    rmatch r st st1 -> ~ (remaining st1 < remaining st)%nat ->
    rmatch (Star r) st st1
| M_Group n r st st1 :
    rmatch r st st1 -> rmatch (Group n r) st (set_group n (between st st1) st1)
| M_Backref n g st st1 :
    lookup n (caps st) = Some g -> eat g st = Some st1 ->
    rmatch (Backref n) st st1
| M_Bol st : before st = [] -> rmatch Bol st st
| M_Eol st : after st = [] \/ after st = [nl] -> rmatch Eol st st
| M_EolM st :
    after st = [] \/ (exists rest, after st = nl :: rest) -> rmatch EolM st st
| M_NotBehind (p : char -> bool) st :
    (forall c rest, before st = c :: rest -> p c = false) ->
    rmatch (NotBehind p) st st
| M_NotAhead (p : char -> bool) st :
    (forall c rest, after st = c :: rest -> p c = false) ->
    rmatch (NotAhead p) st st.

Create HintDb re.
#[local] Hint Constructors rmatch : re.

(** The subject string a position belongs to. *)
Definition subject (st : state) : str := rev (before st) ++ after st.

(** [st'] is [st] moved forward over the text [w]. *)
Definition moved (w : str) (st st' : state) : Prop :=
  after st = w ++ after st' /\ before st' = rev w ++ before st.

(** Brace nesting of a fragment: [max_depth 0 s] is the deepest nesting
    of a brace-balanced [s], and [None] when [s] is not balanced. *)
Fixpoint max_depth (cur : nat) (s : str) : option nat :=
  match s with
  | [] => if Nat.eqb cur 0 then Some cur else None
  | c :: s' =>
      if chr_eqb c lbrace then
        option_map (Nat.max (S cur)) (max_depth (S cur) s')
      else if chr_eqb c rbrace then
        match cur with
        | O => None
        | S cur' => option_map (Nat.max cur) (max_depth cur' s')
        end
      else option_map (Nat.max cur) (max_depth cur s')
  end.

(** [needle] occurs in [text]. *)
Definition occurs (needle text : str) : Prop :=
  exists pre post, text = pre ++ needle ++ post.

(** A [{\displaystyle ...}] block: the opener, then somewhere a closing
    brace. *)
Definition has_displaystyle_block (text : str) : Prop :=
  exists pre mid post, text = pre ++ u "{\displaystyle" ++ mid ++ u "}" ++ post.

(** Whitespace as plain mode leaves it: only single ASCII spaces. *)
Fixpoint squeezed (t : str) : Prop :=
  match t with
  | [] => True
  | a :: t' =>
      (isspace a = true -> a = ch " ") /\
      match t' with
      | [] => True
      | b :: _ => isspace a = true -> isspace b = false
      end /\ squeezed t'
  end.


(** The glyphs of the table [unicode_to_latex]. *)
Definition glyphs : list char := List.map (fun kv => ch (fst kv)) unicode_to_latex.

(** Sample collaborators: an encyclopedia with no article, one whose
    search finds a title that has no page, and one whose search fails. *)
Definition no_results : wikipedia :=
  {| search := fun _ => Ok [];
     page := fun _ => Raise (PageError (u "missing"));
     summary := fun _ _ => Raise (OtherException (u "unreachable")) |}.
Definition missing_page : wikipedia :=
  {| search := fun q => Ok [q];
     page := fun _ => Raise (PageError (u "missing"));
     summary := fun _ _ => Raise (OtherException (u "unreachable")) |}.
Definition broken_search : wikipedia :=
  {| search := fun _ => Raise (OtherException (u "timeout"));
     page := fun _ => Raise (PageError (u "missing"));
     summary := fun _ _ => Raise (OtherException (u "unreachable")) |}.

(** The position reached from [st] by passing over the text [w]. *)
Definition jump (w : str) (st : state) : state :=
  {| before := rev w ++ before st;
     after := skipn (List.length w) (after st);
     caps := caps st |}.

Definition no_newline (l : str) : Prop := ~ In nl l.

(** A line that does not belong to a run of math tokens; the empty line
    stands for the missing neighbour at either end of the text. *)
Definition not_math_like (l : str) : Prop := math_like (strip l) = false.

(** A text that does not begin with whitespace. *)
Definition starts_clean (t : str) : Prop :=
  match t with
  | [] => True
  | b :: _ => isspace b = false
  end.

(** The removal of the closing braces that are left, a step of plain
    mode. *)
Definition drop_closing_braces (text : str) : str :=
  re_sub (Chr rbrace) (fun _ _ => []) text.

(* ===================================================================== *)
(** * Further code and notions                                            *)
(* ===================================================================== *)

(** [wiki_content]: like [wiki_fetch] with the full page content, other
    headers, and a single [except Exception] clause. *)
Definition wiki_content_try (W : wikipedia) (is_jupyter : bool) (query : str)
  : result str :=
  results <- search W query ;;
  match results with
  | [] => Ok (u "No Wikipedia results found for: " ++ query)
  | first :: _ =>
      pg <- load_page W first ;;
      content <- page_content pg ;;
      let for_jupyter := is_jupyter in
      let formatted := clean_wikipedia_text content for_jupyter in
      let header :=
        if for_jupyter then u "# " ++ title pg ++ [nl; nl]
        else repeat (ch "=") 60 ++ [nl] ++ title pg ++ [nl]
               ++ repeat (ch "=") 60 ++ [nl; nl] in
      Ok (header ++ formatted)
  end.

Definition wiki_content (W : wikipedia) (is_jupyter : bool) (query : str)
  : result str :=
  match wiki_content_try W is_jupyter query with
  | Ok s => Ok s
  | Raise e => Ok (u "Error fetching Wikipedia content: " ++ exn_str e)
  end.

(** Three lines in a row that are all math-like. *)
Fixpoint has_math_triple (lines : list str) : bool :=
  match lines with
  | [] => false
  | l1 :: rest =>
      (math_like (strip l1)
       && match rest with
          | l2 :: l3 :: _ => math_like (strip l2) && math_like (strip l3)
          | _ => false
          end)
      || has_math_triple rest
  end.

(** The number of newlines a text begins with, and texts in which no
    more than two newlines follow each other. *)
Fixpoint leading_newlines (t : str) : nat :=
  match t with
  | [] => 0
  | c :: r => if chr_eqb c nl then S (leading_newlines r) else 0
  end.

Fixpoint blank_runs_short (t : str) : Prop :=
  match t with
  | [] => True
  | _ :: r => (leading_newlines t <= 2)%nat /\ blank_runs_short r
  end.

(** A sample page and an encyclopedia that knows it under an ambiguous
    title. *)
Definition sample_page : page_t :=
  {| title := u "Rank";
     page_summary := Ok (u "The rank  of M.");
     page_content := Ok (u "Rank" ++ [nl; nl; nl; nl] ++ u "Full text.") |}.
Definition ambiguous : wikipedia :=
  {| search := fun q => Ok [q];
     page := fun t =>
       if Nat.eqb (List.length t) 4 then Ok sample_page
       else Raise (DisambiguationError [u "Rank"; u "Rang"] (u "may refer to"));
     summary := fun _ _ => Ok (u "Short.") |}.
Definition no_options : wikipedia :=
  {| search := fun q => Ok [q];
     page := fun _ => Raise (DisambiguationError [] (u "may refer to"));
     summary := fun _ _ => Ok (u "Short.") |}.

(** A character other than the word joiner. *)
Definition joiner_free (c : char) : Prop := c <> word_joiner.

(* ===================================================================== *)
(** * Notions of the statements about steps 3 and 6 and about plain mode  *)
(* ===================================================================== *)

(** [t.startswith(s)], [s in t] and [t.endswith(s)]. *)
Fixpoint starts_with (s t : str) : bool :=
  match s, t with
  | [], _ => true
  | a :: s', b :: t' => chr_eqb a b && starts_with s' t'
  | _ :: _, [] => false
  end.

Fixpoint contains (s t : str) : bool :=
  starts_with s t
  || match t with
     | [] => false
     | _ :: t' => contains s t'
     end.

Definition ends_with (t s : str) : bool := starts_with (rev s) (rev t).



(** The twenty glyphs of step 6, each with the command that is to stand
    in its place; any other character stands for itself. *)
Definition latex_of (c : char) : str :=
  if chr_eqb c (ch "×") then u " \times " else
  if chr_eqb c (ch "÷") then u " \div " else
  if chr_eqb c (ch "±") then u " \pm " else
  if chr_eqb c (ch "≤") then u " \leq " else
  if chr_eqb c (ch "≥") then u " \geq " else
  if chr_eqb c (ch "≠") then u " \neq " else
  if chr_eqb c (ch "≈") then u " \approx " else
  if chr_eqb c (ch "∈") then u " \in " else
  if chr_eqb c (ch "∉") then u " \notin " else
  if chr_eqb c (ch "⊂") then u " \subset " else
  if chr_eqb c (ch "⊃") then u " \supset " else
  if chr_eqb c (ch "∪") then u " \cup " else
  if chr_eqb c (ch "∩") then u " \cap " else
  if chr_eqb c (ch "∞") then u "\infty" else
  if chr_eqb c (ch "∑") then u "\sum" else
  if chr_eqb c (ch "∏") then u "\prod" else
  if chr_eqb c (ch "∫") then u "\int" else
  if chr_eqb c (ch "√") then u "\sqrt" else
  if chr_eqb c (ch "∂") then u "\partial" else
  if chr_eqb c (ch "∇") then u "\nabla" else [c].


(* ===================================================================== *)
(** * The matcher explores exactly the relational matches                 *)
(* ===================================================================== *)

Lemma star_loop_sound (body : cont -> cont) (r : regex) :
  (forall k st x, body k st = Some x ->
                  exists st', rmatch r st st' /\ k st' = Some x) ->
  forall n k st x, star_loop body k n st = Some x ->
  exists st', rmatch (Star r) st st' /\ k st' = Some x.
Proof.
  intros Hb n. induction n; intros k st x H; simpl in H.
  - exists st; split; auto with re.
  - destruct (body _ st) eqn:E.
    + inversion H; subst. apply Hb in E. destruct E as [st1 [Hr Hk]].
      destruct (Nat.ltb_spec (remaining st1) (remaining st)).
      * apply IHn in Hk. destruct Hk as [st2 [? ?]].
        exists st2; split; eauto with re.
      * exists st1. split; auto. apply M_StarEmpty; auto. lia.
    + exists st; split; auto with re.
Qed.

Lemma eat_moved g : forall st st', eat g st = Some st' -> moved g st st' /\ caps st' = caps st.
Proof.
  induction g as [|c g IH]; intros st st' H; simpl in H.
  - inversion H; subst. repeat split; reflexivity.
  - destruct (after st) as [|x rest] eqn:E; try discriminate.
    destruct (chr_eqb x c) eqn:Ec; try discriminate.
    apply N.eqb_eq in Ec. subst x.
    apply IH in H. destruct H as [[H1 H2] H3]. simpl in *.
    repeat split; auto.
    + rewrite E, H1. reflexivity.
    + rewrite H2. simpl. rewrite <- app_assoc. reflexivity.
Qed.

Theorem m_sound : forall r k st x,
  m r k st = Some x -> exists st', rmatch r st st' /\ k st' = Some x.
Proof.
  induction r; intros k st x H; simpl in H.
  - eauto with re.
  - destruct (after st) as [|y rest] eqn:E; try discriminate.
    destruct (chr_eqb y c) eqn:Ec; try discriminate.
    apply N.eqb_eq in Ec; subst y. eauto with re.
  - destruct (after st) as [|y rest] eqn:E; try discriminate.
    destruct (p y) eqn:Ep; try discriminate.
    exists (step y rest st). split; [apply M_Cls; assumption | assumption].
  - apply IHr1 in H. destruct H as [st1 [H1 H]].
    apply IHr2 in H. destruct H as [st2 [H2 H]]. eauto with re.
  - destruct (m r1 k st) eqn:E.
    + inversion H; subst. apply IHr1 in E. destruct E as [st1 [? ?]]. eauto with re.
    + apply IHr2 in H. destruct H as [st1 [? ?]]. eauto with re.
  - exact (star_loop_sound (m r) r IHr (S (remaining st)) k st x H).
  - apply IHr in H. destruct H as [st1 [? ?]]. eauto with re.
  - destruct (lookup n (caps st)) as [g|] eqn:E; try discriminate.
    destruct (eat g st) as [st1|] eqn:E1; try discriminate. eauto with re.
  - destruct (before st) eqn:E; try discriminate. eauto with re.
  - destruct (after st) as [|c [|]] eqn:E; try discriminate.
    + eauto with re.
    + destruct (chr_eqb c nl) eqn:Ec; try discriminate.
      apply N.eqb_eq in Ec; subst. eauto with re.
  - destruct (after st) as [|c rest] eqn:E.
    + eauto with re.
    + destruct (chr_eqb c nl) eqn:Ec; try discriminate.
      apply N.eqb_eq in Ec; subst. exists st; split; auto.
      apply M_EolM. right. eauto.
  - exists st. destruct (before st) as [|c rest] eqn:E.
    + split; auto. apply M_NotBehind. intros; congruence.
    + destruct (p c) eqn:Ep; try discriminate. split; auto.
      apply M_NotBehind. intros; congruence.
  - exists st. destruct (after st) as [|c rest] eqn:E.
    + split; auto. apply M_NotAhead. intros; congruence.
    + destruct (p c) eqn:Ep; try discriminate. split; auto.
      apply M_NotAhead. intros; congruence.
Qed.

Lemma star_loop_complete (body : cont -> cont) (r : regex) :
  (forall st st', rmatch r st st' -> forall k x, k st' = Some x -> exists y, body k st = Some y) ->
  forall st st', rmatch (Star r) st st' ->
  forall k n x, (remaining st < n)%nat -> k st' = Some x ->
  exists y, star_loop body k n st = Some y.
Proof.
  intros Hb st st' H. remember (Star r) as sr eqn:Esr.
  induction H; try discriminate; inversion Esr; subst; intros k n x Hn Hk.
  - destruct n; [lia|]. simpl. destruct (body _ st); eauto.
  - destruct n; [lia|]. simpl.
    destruct (IHrmatch2 eq_refl k n x ltac:(lia) Hk) as [y Hy].
    edestruct (Hb _ _ H) with (k := fun st' =>
        if Nat.ltb (remaining st') (remaining st) then star_loop body k n st' else k st') as [z Hz].
    { destruct (Nat.ltb_spec (remaining st1) (remaining st)); [eassumption|lia]. }
    rewrite Hz. eauto.
  - destruct n; [lia|]. simpl.
    edestruct (Hb _ _ H) with (k := fun st' =>
        if Nat.ltb (remaining st') (remaining st) then star_loop body k n st' else k st') as [z Hz].
    { destruct (Nat.ltb_spec (remaining st1) (remaining st)); [lia|eassumption]. }
    rewrite Hz. eauto.
Qed.

Theorem m_complete : forall r st st',
  rmatch r st st' -> forall k x, k st' = Some x -> exists y, m r k st = Some y.
Proof.
  induction r; intros st st' H k x Hk; cbn [m];
    try (inversion H; subst; [idtac]).
  - eauto.
  - match goal with E : after _ = _ |- _ => rewrite E end.
    unfold chr_eqb. rewrite N.eqb_refl. eauto.
  - match goal with E : after _ = _ |- _ => rewrite E end.
    match goal with E : p _ = true |- _ => rewrite E end. eauto.
  - match goal with
    | A : rmatch r1 _ _, B : rmatch r2 _ _ |- _ =>
        destruct (IHr2 _ _ B k x Hk) as [y Hy];
        exact (IHr1 _ _ A (fun s => m r2 k s) y Hy)
    end.
  - inversion H; subst.
    + match goal with A : rmatch r1 _ _ |- _ =>
        destruct (IHr1 _ _ A k x Hk) as [y Hy]; rewrite Hy; eauto end.
    + destruct (m r1 k st); eauto.
  - eapply (star_loop_complete (m r) r IHr _ _ H);
      [apply Nat.lt_succ_diag_r | eassumption].
  - match goal with A : rmatch r _ _ |- _ =>
      exact (IHr _ _ A (fun s => k (set_group n (between st s) s)) x Hk) end.
  - match goal with A : lookup _ _ = _, B : eat _ _ = _ |- _ =>
      rewrite A, B end. eauto.
  - match goal with A : before _ = _ |- _ => rewrite A end. eauto.
  - match goal with A : _ \/ _ |- _ => destruct A as [A|A]; rewrite A end;
      unfold chr_eqb; try rewrite N.eqb_refl; eauto.
  - match goal with A : _ \/ _ |- _ => destruct A as [A|[rest A]]; rewrite A end;
      unfold chr_eqb; try rewrite N.eqb_refl; eauto.
  - destruct (before st') eqn:E; eauto.
    match goal with A : forall c rest, _ |- _ => rewrite (A _ _ eq_refl) end. eauto.
  - destruct (after st') eqn:E; eauto.
    match goal with A : forall c rest, _ |- _ => rewrite (A _ _ eq_refl) end. eauto.
Qed.

Lemma rmatch_moved : forall r st st',
  rmatch r st st' -> exists w, moved w st st'.
Proof.
  intros r st st' H. induction H;
    try (exists []; split; reflexivity).
  - exists [c]. split; simpl; auto.
  - exists [c]. split; simpl; auto.
  - destruct IHrmatch1 as [w1 [A1 B1]]. destruct IHrmatch2 as [w2 [A2 B2]].
    exists (w1 ++ w2). split.
    + rewrite A1, A2, app_assoc. reflexivity.
    + rewrite B2, B1, rev_app_distr, app_assoc. reflexivity.
  - assumption.
  - assumption.
  - destruct IHrmatch1 as [w1 [A1 B1]]. destruct IHrmatch2 as [w2 [A2 B2]].
    exists (w1 ++ w2). split.
    + rewrite A1, A2, app_assoc. reflexivity.
    + rewrite B2, B1, rev_app_distr, app_assoc. reflexivity.
  - assumption.
  - destruct IHrmatch as [w [A B]]. exists w. split; simpl; auto.
  - exists g. apply eat_moved in H0. tauto.
Qed.
(* ===================================================================== *)
(** * Positions and substitution                                          *)
(* ===================================================================== *)

Lemma moved_subject [w st st'] : moved w st st' -> subject st' = subject st.
Proof.
  intros [A B]. unfold subject. rewrite A, B, rev_app_distr, rev_involutive.
  rewrite <- app_assoc. reflexivity.
Qed.

Lemma moved_remaining [w st st'] :
  moved w st st' -> remaining st = (List.length w + remaining st')%nat.
Proof. intros [A _]. unfold remaining. rewrite A, length_app. reflexivity. Qed.

Lemma moved_between [w st st'] : moved w st st' -> between st st' = w.
Proof.
  intros H. unfold between. rewrite (moved_remaining H).
  destruct H as [A _]. rewrite A.
  replace (List.length w + remaining st' - remaining st')%nat with (List.length w + 0)%nat by lia.
  rewrite firstn_app_2. simpl. apply app_nil_r.
Qed.

Lemma subject_step c rest st :
  after st = c :: rest -> subject (step c rest st) = subject st.
Proof.
  intros E. unfold subject. simpl. rewrite E, <- app_assoc. reflexivity.
Qed.

Lemma match_here_sound [r adv st st'] :
  match_here r adv st = Some st' ->
  rmatch r (clear st) st' /\ (adv = true -> remaining st' <> remaining st).
Proof.
  unfold match_here. intros H. apply m_sound in H.
  destruct H as [st1 [Hr Hk]]. unfold accept in Hk.
  destruct adv; simpl in Hk.
  - destruct (Nat.eqb_spec (remaining st1) (remaining (clear st))); try discriminate.
    inversion Hk; subst. split; auto.
  - inversion Hk; subst. split; auto. discriminate.
Qed.

Lemma match_here_moved [r adv st st'] :
  match_here r adv st = Some st' -> exists w, moved w st st'.
Proof.
  intros H. apply match_here_sound in H. destruct H as [H _].
  apply rmatch_moved in H. exact H.
Qed.

Lemma match_here_complete r st st' :
  rmatch r (clear st) st' -> remaining st' <> remaining st ->
  forall adv, exists y, match_here r adv st = Some y.
Proof.
  intros H Hne adv. unfold match_here.
  eapply m_complete; [eassumption|].
  unfold accept. instantiate (1 := st').
  destruct (Nat.eqb_spec (remaining st') (remaining (clear st))).
  - exfalso. apply Hne. assumption.
  - rewrite andb_false_r. reflexivity.
Qed.

(** Every character of the result is copied from a position where the
    pattern does not match, or comes from a replacement. *)
Lemma sub_loop_Forall (P : char -> Prop) r repl text :
  (forall adv st st', subject st = text -> match_here r adv st = Some st' ->
                      Forall P (repl (clear st) st')) ->
  (forall adv st c rest, subject st = text -> after st = c :: rest ->
                         match_here r adv st = None -> P c) ->
  forall fuel (adv : bool) st, subject st = text ->
    (2 * remaining st + (if adv then 1 else 2) <= fuel)%nat ->
    Forall P (sub_loop r repl fuel adv st).
Proof.
  intros Hrepl Hcopy fuel. induction fuel as [|f IH]; intros adv st Hs Hf.
  - destruct adv; lia.
  - simpl. destruct (match_here r adv st) as [st'|] eqn:E.
    + apply Forall_app. split; [eapply Hrepl; eauto|].
      destruct (match_here_moved E) as [w Hw].
      pose proof (moved_remaining Hw) as Hr.
      apply IH; [rewrite (moved_subject Hw); assumption|].
      destruct (Nat.eqb_spec (remaining st') (remaining st)).
      * destruct adv; [|lia].
        apply match_here_sound in E. destruct E as [_ E]. exfalso. now apply E.
      * destruct adv; lia.
    + destruct (after st) as [|c rest] eqn:Ea; [constructor|].
      constructor; [eapply Hcopy; eauto|].
      apply IH; [rewrite subject_step; assumption|].
      unfold remaining in *. rewrite Ea in Hf. simpl in *. destruct adv; lia.
Qed.

Lemma re_sub_Forall (P : char -> Prop) r repl text :
  (forall adv st st', subject st = text -> match_here r adv st = Some st' ->
                      Forall P (repl (clear st) st')) ->
  (forall adv st c rest, subject st = text -> after st = c :: rest ->
                         match_here r adv st = None -> P c) ->
  Forall P (re_sub r repl text).
Proof.
  intros H1 H2. unfold re_sub. apply (sub_loop_Forall P r repl text H1 H2).
  - reflexivity.
  - unfold remaining. simpl. lia.
Qed.

Lemma subject_after_incl st c : In c (after st) -> In c (subject st).
Proof. intros H. unfold subject. apply in_or_app. right. exact H. Qed.

(** A substitution keeps a property of characters that the subject and
    the replacements have. *)
Lemma re_sub_preserves (P : char -> Prop) r repl text :
  Forall P text -> (forall st st', Forall P (repl st st')) ->
  Forall P (re_sub r repl text).
Proof.
  intros Ht Hr. apply re_sub_Forall.
  - intros. apply Hr.
  - intros adv st c rest Hs Ha _. rewrite Forall_forall in Ht. apply Ht.
    rewrite <- Hs. apply subject_after_incl. rewrite Ha. left. reflexivity.
Qed.

(** Where every match is replaced by the text it matched, the subject
    comes back unchanged. *)
Lemma sub_loop_unchanged r repl text :
  (forall adv st st', subject st = text -> match_here r adv st = Some st' ->
                      repl (clear st) st' = between st st') ->
  forall fuel adv st, subject st = text -> sub_loop r repl fuel adv st = after st.
Proof.
  intros Hrepl fuel. induction fuel as [|f IH]; intros adv st Hs.
  - reflexivity.
  - simpl. destruct (match_here r adv st) as [st'|] eqn:E.
    + destruct (match_here_moved E) as [w Hw].
      rewrite (Hrepl _ _ _ Hs E), (moved_between Hw).
      rewrite IH by (rewrite (moved_subject Hw); assumption).
      destruct Hw as [A _]. symmetry. exact A.
    + destruct (after st) as [|c rest] eqn:Ea; [reflexivity|].
      rewrite IH by (rewrite subject_step; assumption). reflexivity.
Qed.

Lemma re_sub_unchanged r repl text :
  (forall adv st st', subject st = text -> match_here r adv st = Some st' ->
                      repl (clear st) st' = between st st') ->
  re_sub r repl text = text.
Proof.
  intros H. unfold re_sub. rewrite (sub_loop_unchanged r repl text H); reflexivity.
Qed.

Lemma re_sub_no_match r repl text :
  (forall st st', subject st = text -> rmatch r (clear st) st' -> False) ->
  re_sub r repl text = text.
Proof.
  intros H. apply re_sub_unchanged. intros adv st st' Hs E.
  apply match_here_sound in E. destruct E as [E _]. exfalso. eauto.
Qed.

Lemma rmatch_needs c [r st st'] :
  rmatch r st st' -> needs c r = true -> In c (after st).
Proof.
  intros H. induction H; simpl; intros Hn; try discriminate.
  - apply N.eqb_eq in Hn. subst. rewrite H. left. reflexivity.
  - apply orb_true_iff in Hn. destruct Hn as [Hn|Hn]; [auto|].
    apply rmatch_moved in H. destruct H as [w [A _]].
    rewrite A. apply in_or_app. right. auto.
  - apply andb_true_iff in Hn. tauto.
  - apply andb_true_iff in Hn. tauto.
  - auto.
Qed.

(** A pattern that needs a character the subject lacks changes nothing. *)
Lemma re_sub_absent c r repl text :
  needs c r = true -> ~ In c text -> re_sub r repl text = text.
Proof.
  intros Hn Hc. apply re_sub_no_match. intros st st' Hs H.
  apply Hc. rewrite <- Hs. apply subject_after_incl.
  exact (rmatch_needs c H Hn).
Qed.

(* ===================================================================== *)
(** * [str] methods                                                       *)
(* ===================================================================== *)

Lemma lstrip_suffix s : exists w, s = w ++ lstrip s /\ Forall (fun c => isspace c = true) w.
Proof.
  induction s as [|c s IH]; simpl.
  - exists []. split; [reflexivity|constructor].
  - destruct (isspace c) eqn:E.
    + destruct IH as [w [A B]]. exists (c :: w). split.
      * simpl. rewrite <- A. reflexivity.
      * constructor; assumption.
    + exists []. split; [reflexivity|constructor].
Qed.

Lemma rstrip_prefix s : exists w, s = rstrip s ++ w /\ Forall (fun c => isspace c = true) w.
Proof.
  unfold rstrip. destruct (lstrip_suffix (rev s)) as [w [A B]].
  exists (rev w). split.
  - rewrite <- rev_app_distr, <- A, rev_involutive. reflexivity.
  - apply Forall_rev. exact B.
Qed.

(** [strip] cuts a piece out of its argument. *)
Lemma strip_infix s : exists l r, s = l ++ strip s ++ r.
Proof.
  unfold strip. destruct (lstrip_suffix s) as [l [A _]].
  destruct (rstrip_prefix (lstrip s)) as [r [B _]].
  exists l, r. rewrite <- B. exact A.
Qed.

Lemma strip_Forall (P : char -> Prop) s : Forall P s -> Forall P (strip s).
Proof.
  intros H. destruct (strip_infix s) as [l [r E]]. rewrite E in H.
  apply Forall_app in H. destruct H as [_ H].
  apply Forall_app in H. tauto.
Qed.


Lemma lstrip_spaces w s :
  Forall (fun c => isspace c = true) w -> lstrip (w ++ s) = lstrip s.
Proof.
  induction 1 as [|c w Hc _ IH]; simpl; [reflexivity|]. rewrite Hc. exact IH.
Qed.

Lemma replace_removes old new t : ~ In old new -> ~ In old (replace old new t).
Proof.
  intros Hn H. unfold replace in H. apply in_flat_map in H.
  destruct H as [c [_ H]]. destruct (chr_eqb c old) eqn:E.
  - contradiction.
  - destruct H as [H|[]]. subst. unfold chr_eqb in E.
    rewrite N.eqb_refl in E. discriminate.
Qed.

Lemma replace_keeps g old new t :
  ~ In g new -> ~ In g t -> ~ In g (replace old new t).
Proof.
  intros Hn Ht H. unfold replace in H. apply in_flat_map in H.
  destruct H as [c [Hc H]]. destruct (chr_eqb c old).
  - contradiction.
  - destruct H as [H|[]]. subst. contradiction.
Qed.

Lemma replace_app old new a b :
  replace old new (a ++ b) = replace old new a ++ replace old new b.
Proof. unfold replace. apply flat_map_app. Qed.

(* ===================================================================== *)
(** * Whitespace and blank lines                                          *)
(* ===================================================================== *)

Lemma rmatch_star_refl_step (p : char -> bool) c rest st :
  after st = c :: rest -> p c = true ->
  rmatch (Plus (Cls p)) st (step c rest st).
Proof.
  intros A B. unfold Plus. eapply M_Seq; [apply M_Cls; eassumption|apply M_StarDone].
Qed.

(** [\s+] matches wherever a whitespace character stands. *)
Lemma whitespace_run_matches [adv st c rest] :
  after st = c :: rest -> match_here whitespace_run adv st = None ->
  isspace c = false.
Proof.
  intros A E. destruct (isspace c) eqn:Ec; [|reflexivity].
  destruct (match_here_complete whitespace_run st (step c rest (clear st))) with (adv := adv)
    as [y Hy].
  - apply rmatch_star_refl_step; assumption.
  - unfold remaining. simpl. rewrite A. simpl. lia.
  - congruence.
Qed.

Definition only_plain_spaces (c : char) : Prop := isspace c = true -> c = ch " ".

Lemma collapse_whitespace_spaces text :
  Forall only_plain_spaces (collapse_whitespace text).
Proof.
  unfold collapse_whitespace. apply re_sub_Forall.
  - intros. repeat constructor.
  - intros adv st c rest _ A E. unfold only_plain_spaces.
    rewrite (whitespace_run_matches A E). discriminate.
Qed.

Lemma only_plain_spaces_no_newline t : Forall only_plain_spaces t -> ~ In nl t.
Proof.
  intros H Hin. rewrite Forall_forall in H. specialize (H _ Hin).
  unfold only_plain_spaces in H. specialize (H eq_refl). discriminate.
Qed.

Lemma collapse_blank_lines_no_newline t :
  ~ In nl t -> collapse_blank_lines t = t.
Proof.
  intros H. unfold collapse_blank_lines. apply (re_sub_absent nl); [reflexivity|exact H].
Qed.

(* ===================================================================== *)
(** * The Unicode to LaTeX table of jupyter mode                          *)
(* ===================================================================== *)

Lemma apply_table_app table a b :
  fold_left (fun t kv => replace (ch (fst kv)) (u (snd kv)) t) table (a ++ b)
  = fold_left (fun t kv => replace (ch (fst kv)) (u (snd kv)) t) table a
    ++ fold_left (fun t kv => replace (ch (fst kv)) (u (snd kv)) t) table b.
Proof.
  revert a b. induction table as [|kv table IH]; intros a b; simpl.
  - reflexivity.
  - rewrite replace_app. apply IH.
Qed.

Lemma apply_table_removes (table : list (string * string)) g :
  (forall kv, In kv table -> ~ In g (u (snd kv))) ->
  forall t, In g (List.map (fun kv => ch (fst kv)) table) \/ ~ In g t ->
  ~ In g (fold_left (fun t kv => replace (ch (fst kv)) (u (snd kv)) t) table t).
Proof.
  induction table as [|kv table IH]; intros Hnew t Ht; simpl.
  - destruct Ht as [[]|Ht]. exact Ht.
  - apply IH.
    + intros kv' Hkv. apply Hnew. right. exact Hkv.
    + assert (Hkv : ~ In g (u (snd kv))) by (apply Hnew; left; reflexivity).
      destruct (N.eq_dec (ch (fst kv)) g) as [E|E].
      * right. rewrite E. apply replace_removes. exact Hkv.
      * destruct Ht as [[Ht|Ht]|Ht].
        -- contradiction.
        -- left. exact Ht.
        -- right. apply replace_keeps; assumption.
Qed.

Lemma latex_has_no_glyph :
  forall g, In g glyphs -> forall kv, In kv unicode_to_latex -> ~ In g (u (snd kv)).
Proof.
  assert (H : forallb (fun g => forallb (fun kv => negb (mem g (u (snd kv))))
                                        unicode_to_latex) glyphs = true)
    by (vm_compute; reflexivity).
  rewrite forallb_forall in H. intros g Hg kv Hkv Hin.
  specialize (H g Hg). rewrite forallb_forall in H. specialize (H kv Hkv).
  apply negb_true_iff in H. unfold mem in H.
  assert (existsb (chr_eqb g) (u (snd kv)) = true).
  { apply existsb_exists. exists g. split; [exact Hin|apply N.eqb_refl]. }
  congruence.
Qed.

Lemma glyph_not_newline : forall g, In g glyphs -> g <> nl.
Proof.
  assert (H : forallb (fun g => negb (chr_eqb g nl)) glyphs = true)
    by (vm_compute; reflexivity).
  rewrite forallb_forall in H. intros g Hg E. specialize (H g Hg).
  subst. vm_compute in H. discriminate.
Qed.

Lemma Forall_not_In (g : char) t : Forall (fun c => c <> g) t <-> ~ In g t.
Proof.
  rewrite Forall_forall. split.
  - intros H Hin. exact (H g Hin eq_refl).
  - intros H c Hc E. subst. contradiction.
Qed.


(* ===================================================================== *)
(** * Plain mode yields one line                                          *)
(* ===================================================================== *)

Lemma plain_branch_spaces t : Forall only_plain_spaces (plain_branch t).
Proof.
  cbv beta zeta delta [plain_branch].
  rewrite collapse_blank_lines_no_newline.
  - apply collapse_whitespace_spaces.
  - apply only_plain_spaces_no_newline. apply collapse_whitespace_spaces.
Qed.

(** C10. The output of [clean_wikipedia_text] in plain mode contains no
    newline: the whitespace collapse of the plain branch leaves no
    whitespace but single spaces, so the blank-line normalization that
    follows has nothing to do. *)
Theorem plain_output_has_no_newline (text : str) :
  ~ In nl (clean_wikipedia_text text false)
  /\ collapse_blank_lines (plain_branch (dedup_steps text))
     = plain_branch (dedup_steps text).
Proof.
  assert (H : ~ In nl (plain_branch (dedup_steps text)))
    by (apply only_plain_spaces_no_newline, plain_branch_spaces).
  split.
  - unfold clean_wikipedia_text.
    rewrite collapse_blank_lines_no_newline by exact H.
    apply Forall_not_In. apply strip_Forall. apply Forall_not_In. exact H.
  - apply collapse_blank_lines_no_newline. exact H.
Qed.

(* ===================================================================== *)
(** * The examples of the specification                                   *)
(* ===================================================================== *)

(** C1. [convert_displaystyle_latex] maps the string
    [{\displaystyle m\times n}] to [$m \times n$]: the content is
    trimmed, [\times] gets a space on each side, runs of whitespace
    become one space, and the result is put between dollar signs. *)
Theorem convert_displaystyle_example :
  convert_displaystyle_latex (u "{\displaystyle m\times n}") = u "$m \times n$"
  /\ format_math (u "m\times n") = u "$" ++ u "m \times n" ++ u "$".
Proof. split; vm_compute; reflexivity. Qed.

(** C6. The steps of [clean_wikipedia_text] that run before any jupyter
    conversion map [M {\displaystyle M}] to [{\displaystyle M}]. *)
Theorem dedup_example :
  dedup_steps (u "M {\displaystyle M}") = u "{\displaystyle M}".
Proof. vm_compute. reflexivity. Qed.

(* ===================================================================== *)
(** * [wiki_fetch] turns every failure into text                          *)
(* ===================================================================== *)

(** C4. [wiki_fetch] always returns a string: no exception of its
    collaborators reaches the caller.  With no search result the string
    contains "No Wikipedia results found"; when the page is missing it
    is the "not found" message; any other failure gives the message
    "Error fetching Wikipedia content: " followed by the error text. *)
Theorem wiki_fetch_never_raises (W : wikipedia) (is_jupyter : bool)
    (query : str) (sentences : Z) :
  (exists s, wiki_fetch W is_jupyter query sentences = Ok s)
  /\ (search W query = Ok [] ->
      exists s, wiki_fetch W is_jupyter query sentences = Ok s
                /\ occurs (u "No Wikipedia results found") s)
  /\ (forall first rest msg,
        search W query = Ok (first :: rest) ->
        page W first = Raise (PageError msg) ->
        wiki_fetch W is_jupyter query sentences
        = Ok (u "Wikipedia page not found for: " ++ query))
  /\ (forall e, wiki_fetch_try W is_jupyter query sentences = Raise e ->
        (forall msg, e <> PageError msg) ->
        wiki_fetch W is_jupyter query sentences
        = Ok (u "Error fetching Wikipedia content: " ++ exn_str e)).
Proof.
  repeat split.
  - unfold wiki_fetch. destruct (wiki_fetch_try W is_jupyter query sentences) as [s|e].
    + eauto.
    + destruct e; eauto.
  - intros H. unfold wiki_fetch, wiki_fetch_try. rewrite H. simpl.
    eexists. split; [reflexivity|].
    exists [], (u " for: " ++ query). reflexivity.
  - intros first rest msg Hs Hp. unfold wiki_fetch, wiki_fetch_try, load_page.
    rewrite Hs. simpl. rewrite Hp. reflexivity.
  - intros e He Hne. unfold wiki_fetch. rewrite He.
    destruct e; try reflexivity. exfalso. exact (Hne msg eq_refl).
Qed.

Lemma wiki_fetch_never_raises_witness :
  (exists s, wiki_fetch no_results false (u "zzz") 0 = Ok s
             /\ occurs (u "No Wikipedia results found") s)
  /\ wiki_fetch missing_page false (u "zzz") 0
     = Ok (u "Wikipedia page not found for: " ++ u "zzz")
  /\ wiki_fetch broken_search true (u "zzz") 3
     = Ok (u "Error fetching Wikipedia content: " ++ u "timeout").
Proof.
  split; [|split].
  - apply (proj1 (proj2 (wiki_fetch_never_raises no_results false (u "zzz") 0))).
    reflexivity.
  - apply (proj1 (proj2 (proj2 (wiki_fetch_never_raises missing_page false (u "zzz") 0)))
             (u "zzz") [] (u "missing")); reflexivity.
  - apply (proj2 (proj2 (proj2 (wiki_fetch_never_raises broken_search true (u "zzz") 3)))
             (OtherException (u "timeout"))).
    + reflexivity.
    + intros msg. discriminate.
Defined.

(* ===================================================================== *)
(** * Taking matches apart                                                *)
(* ===================================================================== *)

Lemma rmatch_seq_inv [r1 r2 st st'] :
  rmatch (r1 ~> r2) st st' -> exists st1, rmatch r1 st st1 /\ rmatch r2 st1 st'.
Proof. intros H. inversion H; subst. eauto. Qed.

Lemma rmatch_chr_inv [c st st'] :
  rmatch (Chr c) st st' -> moved [c] st st' /\ caps st' = caps st.
Proof.
  intros H. inversion H; subst. unfold moved. simpl. auto.
Qed.

Lemma rmatch_cls_inv [p st st'] :
  rmatch (Cls p) st st' ->
  exists c, p c = true /\ moved [c] st st' /\ caps st' = caps st.
Proof.
  intros H. inversion H; subst. exists c. unfold moved. simpl. auto.
Qed.

Lemma moved_nil st : moved [] st st.
Proof. split; reflexivity. Qed.

Lemma moved_app [w1 w2 st st1 st2] :
  moved w1 st st1 -> moved w2 st1 st2 -> moved (w1 ++ w2) st st2.
Proof.
  intros [A1 B1] [A2 B2]. split.
  - rewrite A1, A2, app_assoc. reflexivity.
  - rewrite B2, B1, rev_app_distr, app_assoc. reflexivity.
Qed.

Lemma rmatch_lit_inv s : forall st st',
  rmatch (Lit s) st st' -> moved s st st' /\ caps st' = caps st.
Proof.
  induction s as [|c s IH]; intros st st' H; simpl in H.
  - inversion H; subst. split; [apply moved_nil|reflexivity].
  - apply rmatch_seq_inv in H. destruct H as [st1 [H1 H2]].
    apply rmatch_chr_inv in H1. apply IH in H2.
    destruct H1 as [M1 C1]. destruct H2 as [M2 C2]. split.
    + exact (moved_app M1 M2).
    + congruence.
Qed.

Lemma rmatch_star_cls_inv (p : char -> bool) st st' :
  rmatch (Star (Cls p)) st st' ->
  exists w, moved w st st' /\ Forall (fun c => p c = true) w /\ caps st' = caps st.
Proof.
  intros H. remember (Star (Cls p)) as r eqn:E.
  induction H; try discriminate; inversion E; subst.
  - exists []. split; [apply moved_nil|]. split; [constructor|reflexivity].
  - destruct (IHrmatch2 eq_refl) as [w [M [F C]]].
    apply rmatch_cls_inv in H. destruct H as [c [Hc [M1 C1]]].
    exists (c :: w). split; [exact (moved_app M1 M)|].
    split; [constructor; assumption|congruence].
  - apply rmatch_cls_inv in H. destruct H as [c [Hc [M1 C1]]].
    exfalso. apply H0. rewrite (moved_remaining M1). simpl. lia.
Qed.

Lemma rmatch_plus_cls_inv (p : char -> bool) st st' :
  rmatch (Plus (Cls p)) st st' ->
  exists c w, moved (c :: w) st st' /\ p c = true
              /\ Forall (fun c => p c = true) w /\ caps st' = caps st.
Proof.
  intros H. apply rmatch_seq_inv in H. destruct H as [st1 [H1 H2]].
  apply rmatch_cls_inv in H1. destruct H1 as [c [Hc [M1 C1]]].
  apply rmatch_star_cls_inv in H2. destruct H2 as [w [M2 [F C2]]].
  exists c, w. split; [exact (moved_app M1 M2)|].
  split; [assumption|]. split; [assumption|congruence].
Qed.

Lemma rmatch_group_inv [n r st st'] :
  rmatch (Group n r) st st' ->
  exists st1, rmatch r st st1 /\ st' = set_group n (between st st1) st1.
Proof. intros H. inversion H; subst. eauto. Qed.

(* ===================================================================== *)
(** * Lines                                                               *)
(* ===================================================================== *)

Lemma split_nl_nonempty t : split_nl t <> [].
Proof.
  destruct t as [|c r]; simpl; [discriminate|].
  destruct (chr_eqb c nl); [discriminate|].
  destruct (split_nl r); discriminate.
Qed.

Lemma join_cons sep p q ps :
  join sep (p :: q :: ps) = p ++ sep ++ join sep (q :: ps).
Proof. reflexivity. Qed.

(** ['\n'.join(text.split('\n'))] is [text]. *)
Lemma join_split_nl t : join [nl] (split_nl t) = t.
Proof.
  induction t as [|c r IH]; simpl; [reflexivity|].
  destruct (chr_eqb c nl) eqn:E.
  - apply N.eqb_eq in E. subst c.
    pose proof (split_nl_nonempty r) as Hne.
    destruct (split_nl r) as [|l ls]; [contradiction|].
    rewrite join_cons. simpl. rewrite <- IH. reflexivity.
  - pose proof (split_nl_nonempty r) as Hne.
    destruct (split_nl r) as [|l ls]; [contradiction|].
    destruct ls as [|l' ls]; simpl in *; rewrite <- IH; reflexivity.
Qed.

Lemma split_nl_line l t :
  no_newline l -> split_nl (l ++ nl :: t) = l :: split_nl t.
Proof.
  induction l as [|c l IH]; intros Hl; simpl.
  - reflexivity.
  - destruct (chr_eqb c nl) eqn:E.
    + apply N.eqb_eq in E. subst. exfalso. apply Hl. left. reflexivity.
    + rewrite IH; [reflexivity|]. intros Hin. apply Hl. right. exact Hin.
Qed.

Lemma split_nl_single l : no_newline l -> split_nl l = [l].
Proof.
  induction l as [|c l IH]; intros Hl; simpl.
  - reflexivity.
  - destruct (chr_eqb c nl) eqn:E.
    + apply N.eqb_eq in E. subst. exfalso. apply Hl. left. reflexivity.
    + rewrite IH; [reflexivity|]. intros Hin. apply Hl. right. exact Hin.
Qed.

(** Splitting the join of newline-free lines gives the lines back. *)
Lemma split_nl_join lines :
  lines <> [] -> Forall no_newline lines -> split_nl (join [nl] lines) = lines.
Proof.
  induction lines as [|l ls IH]; intros Hne Hl; [contradiction|].
  inversion Hl; subst. destruct ls as [|l' ls].
  - simpl. apply split_nl_single. assumption.
  - rewrite join_cons.
    change (l ++ [nl] ++ join [nl] (l' :: ls)) with (l ++ nl :: join [nl] (l' :: ls)).
    rewrite split_nl_line by assumption.
    rewrite IH; [reflexivity|discriminate|assumption].
Qed.

(* ===================================================================== *)
(** * The stacked-math collapser                                          *)
(* ===================================================================== *)

Lemma math_like_empty : math_like [] = false.
Proof. reflexivity. Qed.

Lemma collect_cons l rest :
  collect (l :: rest)
  = if math_like (strip l) then strip l :: collect rest else [].
Proof.
  simpl. unfold math_like. destruct (strip l) as [|c s] eqn:E.
  - reflexivity.
  - simpl. rewrite andb_true_r. reflexivity.
Qed.

Lemma collapse_loop_cons f l rest :
  collapse_loop (S f) (l :: rest)
  = if math_like (strip l) then
      if Nat.leb 3 (S (List.length (collect rest)))
      then join (u " ") (strip l :: collect rest)
             :: collapse_loop f (skipn (List.length (collect rest)) rest)
      else l :: collapse_loop f rest
    else l :: collapse_loop f rest.
Proof.
  cbn [collapse_loop]. cbv zeta. cbn [List.length].
  replace (S (List.length (collect rest)) - 1)%nat
    with (List.length (collect rest)) by lia.
  reflexivity.
Qed.

Lemma collect_length rest : (List.length (collect rest) <= List.length rest)%nat.
Proof.
  induction rest as [|l rest IH]; [apply Nat.le_refl|].
  rewrite collect_cons. destruct (math_like (strip l)); simpl; lia.
Qed.

(** The loop never needs more rounds than there are lines. *)
Lemma collapse_loop_fuel : forall f1 f2 lines,
  (List.length lines <= f1)%nat -> (List.length lines <= f2)%nat ->
  collapse_loop f1 lines = collapse_loop f2 lines.
Proof.
  induction f1 as [|f1 IH]; intros f2 lines H1 H2.
  - destruct lines; [|simpl in H1; lia]. destruct f2; reflexivity.
  - destruct lines as [|l rest]; [destruct f2; reflexivity|].
    destruct f2 as [|f2]; [simpl in H2; lia|].
    simpl in H1, H2. rewrite !collapse_loop_cons.
    rewrite (IH f2 rest) by lia.
    rewrite (IH f2 (skipn (List.length (collect rest)) rest));
      [reflexivity| |]; rewrite length_skipn; lia.
Qed.

Lemma collapse_lines_cons l rest :
  collapse_lines (l :: rest)
  = if math_like (strip l) then
      if Nat.leb 3 (S (List.length (collect rest)))
      then join (u " ") (strip l :: collect rest)
             :: collapse_lines (skipn (List.length (collect rest)) rest)
      else l :: collapse_lines rest
    else l :: collapse_lines rest.
Proof.
  unfold collapse_lines. cbn [List.length]. rewrite collapse_loop_cons.
  rewrite (collapse_loop_fuel (List.length rest)
             (List.length (skipn (List.length (collect rest)) rest))
             (skipn (List.length (collect rest)) rest));
    [reflexivity| |apply Nat.le_refl].
  rewrite length_skipn. lia.
Qed.

Lemma collapse_lines_nil : collapse_lines [] = [].
Proof. reflexivity. Qed.

(** Lines none of which is math-like are copied. *)
Lemma collapse_lines_plain lines :
  Forall not_math_like lines -> collapse_lines lines = lines.
Proof.
  induction 1 as [|l rest Hl _ IH]; [reflexivity|].
  rewrite collapse_lines_cons, Hl, IH. reflexivity.
Qed.

Lemma collect_stops (a b : list str) :
  Exists not_math_like a ->
  collect (a ++ b) = collect a /\ (List.length (collect a) < List.length a)%nat.
Proof.
  induction a as [|l a IH]; intros H; [inversion H|].
  simpl app. rewrite !collect_cons.
  destruct (math_like (strip l)) eqn:E.
  - inversion H; subst; [unfold not_math_like in *; congruence|].
    destruct (IH H1) as [A B]. rewrite A. split; [reflexivity|simpl; lia].
  - split; [reflexivity|simpl; lia].
Qed.

Lemma last_not_math_exists (a : list str) :
  a <> [] -> not_math_like (last a []) -> Exists not_math_like a.
Proof.
  induction a as [|l a IH]; intros Hne H; [contradiction|].
  destruct a as [|l' a].
  - left. exact H.
  - right. apply IH; [discriminate|exact H].
Qed.

Lemma last_skipn (a : list str) : forall n d,
  (n < List.length a)%nat -> last (skipn n a) d = last a d.
Proof.
  induction a as [|l a IH]; intros n d Hn; [simpl in Hn; lia|].
  destruct n as [|n]; [reflexivity|].
  simpl skipn. simpl in Hn. rewrite IH by lia.
  destruct a; [simpl in Hn; lia|reflexivity].
Qed.

(** The scan restarts after a line that is not math-like. *)
Lemma collapse_lines_app : forall n (pre rest : list str),
  List.length pre = n -> not_math_like (last pre []) ->
  collapse_lines (pre ++ rest) = collapse_lines pre ++ collapse_lines rest.
Proof.
  induction n as [n IH] using lt_wf_ind. intros pre rest Hn Hlast.
  destruct pre as [|l pre]; [reflexivity|].
  rewrite <- app_comm_cons. rewrite !collapse_lines_cons.
  assert (Htail : pre <> [] -> not_math_like (last pre [])).
  { intros Hne. destruct pre; [contradiction|exact Hlast]. }
  assert (Hrec : collapse_lines (pre ++ rest) = collapse_lines pre ++ collapse_lines rest).
  { destruct pre as [|l' pre']; [reflexivity|].
    apply (IH (List.length (l' :: pre'))); [simpl in *; lia|reflexivity|].
    apply Htail. discriminate. }
  destruct (math_like (strip l)) eqn:E.
  - assert (Hne : pre <> []).
    { intros ->. simpl in Hlast. unfold not_math_like in Hlast. congruence. }
    destruct (collect_stops pre rest
                (last_not_math_exists pre Hne (Htail Hne))) as [A B].
    rewrite A. destruct (Nat.leb 3 (S (List.length (collect pre)))).
    + rewrite skipn_app.
      replace (List.length (collect pre) - List.length pre)%nat with 0%nat by lia.
      simpl skipn at 2.
      rewrite (IH (List.length (skipn (List.length (collect pre)) pre)));
        [reflexivity| |reflexivity|].
      * rewrite length_skipn. simpl in Hn. lia.
      * rewrite last_skipn by exact B. exact (Htail Hne).
    + rewrite Hrec. reflexivity.
  - rewrite Hrec. reflexivity.
Qed.

(** A character does not occur in a given text. *)
Ltac absent :=
  let H := fresh "H" in
  intro H; vm_compute in H;
  repeat (destruct H as [H|H]; [discriminate H|]); exact H.

Lemma match_here_first [r st st'] :
  rmatch r (clear st) st' -> exists y, match_here r false st = Some y.
Proof.
  intros H. unfold match_here. eapply m_complete; [exact H|reflexivity].
Qed.

Lemma re_match_intro [r text st'] :
  rmatch r (start_of text) st' -> re_match r text = true.
Proof.
  intros H. unfold re_match.
  destruct (@match_here_first r (start_of text) st' H) as [y Hy].
  rewrite Hy. reflexivity.
Qed.

(** A line made of one character of the class is math-like. *)
Lemma math_like_single c : math_token_char c = true -> math_like [c] = true.
Proof.
  intros Hc. unfold math_like. simpl.
  apply (@re_match_intro _ _ (step c [] (start_of [c]))).
  unfold math_token_re.
  eapply M_Seq; [apply M_Bol; reflexivity|].
  eapply M_Seq; [|apply M_Eol; left; reflexivity].
  apply rmatch_star_refl_step; [reflexivity|exact Hc].
Qed.

Lemma collect_not_math (suf : list str) :
  not_math_like (hd [] suf) -> collect suf = [].
Proof.
  destruct suf as [|l suf]; [reflexivity|]. simpl hd. intros H.
  rewrite collect_cons, H. reflexivity.
Qed.

Lemma collapse_stacked_math_lines (lines : list str) :
  lines <> [] -> Forall no_newline lines ->
  collapse_stacked_math (join [nl] lines) = join [nl] (collapse_lines lines).
Proof.
  intros Hne Hl. unfold collapse_stacked_math.
  rewrite split_nl_join by assumption. reflexivity.
Qed.

(** C2. A run of exactly three lines, each a single character of the
    math-token class once stripped, with no math-like line before or
    after it, is replaced by one line: the three tokens joined by single
    spaces.  A run of exactly two such lines is left as it is.  The
    lines around the run are processed on their own. *)
Theorem stacked_run_collapses_from_three :
  (forall (pre suf : list str) (l1 l2 l3 : str) (c1 c2 c3 : char),
      Forall no_newline (pre ++ l1 :: l2 :: l3 :: suf) ->
      strip l1 = [c1] -> strip l2 = [c2] -> strip l3 = [c3] ->
      math_token_char c1 = true -> math_token_char c2 = true ->
      math_token_char c3 = true ->
      not_math_like (last pre []) -> not_math_like (hd [] suf) ->
      collapse_stacked_math (join [nl] (pre ++ l1 :: l2 :: l3 :: suf))
      = join [nl] (collapse_lines pre
                     ++ [c1; ch " "; c2; ch " "; c3] :: collapse_lines suf))
  /\ (forall (pre suf : list str) (l1 l2 : str) (c1 c2 : char),
      Forall no_newline (pre ++ l1 :: l2 :: suf) ->
      strip l1 = [c1] -> strip l2 = [c2] ->
      math_token_char c1 = true -> math_token_char c2 = true ->
      not_math_like (last pre []) -> not_math_like (hd [] suf) ->
      collapse_stacked_math (join [nl] (pre ++ l1 :: l2 :: suf))
      = join [nl] (collapse_lines pre ++ l1 :: l2 :: collapse_lines suf)).
Proof.
  split.
  - intros pre suf l1 l2 l3 c1 c2 c3 Hnl E1 E2 E3 H1 H2 H3 Hpre Hsuf.
    rewrite collapse_stacked_math_lines;
      [|destruct pre; discriminate|exact Hnl].
    rewrite (collapse_lines_app (List.length pre) pre _ eq_refl Hpre).
    do 2 f_equal.
    rewrite collapse_lines_cons, E1, (math_like_single c1 H1).
    rewrite !collect_cons, E2, E3.
    rewrite (math_like_single c2 H2), (math_like_single c3 H3).
    rewrite (collect_not_math suf Hsuf). reflexivity.
  - intros pre suf l1 l2 c1 c2 Hnl E1 E2 H1 H2 Hpre Hsuf.
    rewrite collapse_stacked_math_lines;
      [|destruct pre; discriminate|exact Hnl].
    rewrite (collapse_lines_app (List.length pre) pre _ eq_refl Hpre).
    do 2 f_equal.
    rewrite collapse_lines_cons, E1, (math_like_single c1 H1).
    rewrite !collect_cons, E2, (math_like_single c2 H2).
    rewrite (collect_not_math suf Hsuf). cbn [List.length Nat.leb].
    f_equal.
    rewrite collapse_lines_cons, E2, (math_like_single c2 H2).
    rewrite (collect_not_math suf Hsuf). reflexivity.
Qed.

Lemma stacked_run_collapses_from_three_witness :
  collapse_stacked_math (u "Given" ++ [nl] ++ u " m " ++ [nl] ++ u "×"
                           ++ [nl] ++ u "n" ++ [nl] ++ u "be given")
  = u "Given" ++ [nl] ++ u "m × n" ++ [nl] ++ u "be given"
  /\ collapse_stacked_math (u "Given" ++ [nl] ++ u " m " ++ [nl] ++ u "n"
                              ++ [nl] ++ u "be given")
     = u "Given" ++ [nl] ++ u " m " ++ [nl] ++ u "n" ++ [nl] ++ u "be given".
Proof.
  split.
  - apply (proj1 stacked_run_collapses_from_three
             [u "Given"] [u "be given"] (u " m ") (u "×") (u "n")
             (ch "m") (ch "×") (ch "n"));
      try (vm_compute; reflexivity).
    repeat (apply Forall_cons; [absent|]). apply Forall_nil.
  - apply (proj2 stacked_run_collapses_from_three
             [u "Given"] [u "be given"] (u " m ") (u "n") (ch "m") (ch "n"));
      try (vm_compute; reflexivity).
    repeat (apply Forall_cons; [absent|]). apply Forall_nil.
Defined.

(* ===================================================================== *)
(** * Text without the pattern passes through                             *)
(* ===================================================================== *)

Lemma displaystyle_match_block st st' :
  rmatch displaystyle_re (clear st) st' -> has_displaystyle_block (subject st).
Proof.
  unfold displaystyle_re. intros H.
  apply rmatch_seq_inv in H. destruct H as [s1 [H1 H]].
  apply rmatch_seq_inv in H. destruct H as [s2 [H2 H]].
  apply rmatch_seq_inv in H. destruct H as [s3 [H3 H4]].
  apply rmatch_lit_inv in H1. destruct H1 as [[A1 _] _].
  apply rmatch_moved in H2. destruct H2 as [w2 [A2 _]].
  apply rmatch_moved in H3. destruct H3 as [w3 [A3 _]].
  apply rmatch_chr_inv in H4. destruct H4 as [[A4 _] _].
  exists (rev (before st)), (w2 ++ w3), (after st').
  unfold subject. f_equal. simpl in A1. rewrite A1. f_equal.
  rewrite A2, A3, A4, <- app_assoc. reflexivity.
Qed.

(** C3. Each transformation is the identity on text without its target:
    [collapse_stacked_math] on a text none of whose lines is math-like,
    [convert_displaystyle_latex] on a text with no displaystyle block. *)
Theorem unrelated_text_passes_through :
  (forall text : str,
      Forall not_math_like (split_nl text) -> collapse_stacked_math text = text)
  /\ (forall text : str,
      ~ has_displaystyle_block text -> convert_displaystyle_latex text = text).
Proof.
  split.
  - intros text H. unfold collapse_stacked_math.
    rewrite (collapse_lines_plain _ H). apply join_split_nl.
  - intros text H. unfold convert_displaystyle_latex.
    apply re_sub_no_match. intros st st' Hs Hm.
    apply H. rewrite <- Hs. exact (displaystyle_match_block st st' Hm).
Qed.

Lemma unrelated_text_passes_through_witness :
  collapse_stacked_math (u "The rank of a matrix" ++ [nl] ++ u "is at most n.")
  = u "The rank of a matrix" ++ [nl] ++ u "is at most n."
  /\ convert_displaystyle_latex (u "a {b} c") = u "a {b} c".
Proof.
  split.
  - apply (proj1 unrelated_text_passes_through).
    repeat constructor.
  - apply (proj2 unrelated_text_passes_through).
    intros [pre [mid [post E]]].
    assert (H : In (ch "\") (u "a {b} c")).
    { rewrite E. apply in_or_app. right. right. left. reflexivity. }
    revert H. absent.
Defined.

(* ===================================================================== *)
(** * Building matches                                                    *)
(* ===================================================================== *)

Lemma skipn_own_prefix (w rest : str) : skipn (List.length w) (w ++ rest) = rest.
Proof. induction w as [|c w IH]; simpl; [reflexivity|exact IH]. Qed.

Lemma jump_after [w rest st] : after st = w ++ rest -> after (jump w st) = rest.
Proof. intros E. simpl. rewrite E. apply skipn_own_prefix. Qed.


Lemma jump_nil st : jump [] st = st.
Proof. destruct st. reflexivity. Qed.

Lemma jump_app a b st : jump (a ++ b) st = jump b (jump a st).
Proof.
  unfold jump. simpl. f_equal.
  - rewrite rev_app_distr, app_assoc. reflexivity.
  - rewrite skipn_skipn, length_app, Nat.add_comm. reflexivity.
Qed.

Lemma step_jump [c rest st] : after st = c :: rest -> step c rest st = jump [c] st.
Proof. intros E. unfold step, jump. simpl. rewrite E. reflexivity. Qed.

Lemma jump_cons [c rest st] w :
  after st = c :: rest -> jump (c :: w) st = jump w (step c rest st).
Proof.
  intros E. rewrite (step_jump E). exact (jump_app [c] w st).
Qed.

Lemma moved_is_jump [w st st'] :
  moved w st st' -> caps st' = caps st -> st' = jump w st.
Proof.
  intros [A B] C. destruct st' as [b a c]. simpl in *. unfold jump.
  rewrite A, skipn_own_prefix, B, C. reflexivity.
Qed.

Lemma rmatch_lit_intro s : forall st rest,
  after st = s ++ rest -> rmatch (Lit s) st (jump s st).
Proof.
  induction s as [|c s IH]; intros st rest E; simpl Lit.
  - rewrite jump_nil. apply M_Eps.
  - change (after st = c :: (s ++ rest)) in E.
    rewrite (jump_cons s E). eapply M_Seq.
    + apply M_Chr. exact E.
    + apply (IH _ rest). reflexivity.
Qed.

Lemma rmatch_star_cls_intro (p : char -> bool) w : forall st rest,
  after st = w ++ rest -> Forall (fun c => p c = true) w ->
  rmatch (Star (Cls p)) st (jump w st).
Proof.
  induction w as [|c w IH]; intros st rest E F.
  - rewrite jump_nil. apply M_StarDone.
  - inversion F; subst. change (after st = c :: (w ++ rest)) in E.
    rewrite (jump_cons w E). eapply M_StarStep.
    + apply M_Cls; eassumption.
    + unfold remaining. rewrite E. simpl. lia.
    + apply (IH _ rest); [reflexivity|assumption].
Qed.

Lemma rmatch_plus_cls_intro (p : char -> bool) c w st rest :
  after st = (c :: w) ++ rest -> p c = true -> Forall (fun c => p c = true) w ->
  rmatch (Plus (Cls p)) st (jump (c :: w) st).
Proof.
  intros E Hc F. change (after st = c :: (w ++ rest)) in E.
  rewrite (jump_cons w E). unfold Plus. eapply M_Seq.
  - apply M_Cls; eassumption.
  - apply (rmatch_star_cls_intro p w _ rest); [reflexivity|assumption].
Qed.

Lemma rmatch_chr_intro c st rest :
  after st = c :: rest -> rmatch (Chr c) st (jump [c] st).
Proof. intros E. rewrite <- (step_jump E). apply M_Chr. exact E. Qed.

(** The end of the subject: a pattern that needs a character finds
    nothing there. *)
Lemma sub_loop_at_end c r repl fuel adv st :
  needs c r = true -> after st = [] -> sub_loop r repl fuel adv st = [].
Proof.
  intros Hn E. destruct fuel as [|f]; simpl; [exact E|].
  destruct (match_here r adv st) as [st'|] eqn:M.
  - apply match_here_sound in M. destruct M as [M _].
    pose proof (rmatch_needs c M Hn) as Hin. simpl in Hin.
    rewrite E in Hin. destruct Hin.
  - rewrite E. reflexivity.
Qed.

(* ===================================================================== *)
(** * Brace nesting                                                       *)
(* ===================================================================== *)

Lemma option_map_max_inv a (o : option nat) d :
  option_map (Nat.max a) o = Some d ->
  exists d', o = Some d' /\ d = Nat.max a d'.
Proof.
  destruct o as [d'|]; simpl; intros H; [|discriminate].
  inversion H. eauto.
Qed.

Lemma max_depth_ge s : forall cur d, max_depth cur s = Some d -> (cur <= d)%nat.
Proof.
  induction s as [|c s IH]; intros cur d H; cbn [max_depth] in H.
  - destruct (Nat.eqb cur 0); inversion H. lia.
  - destruct (chr_eqb c lbrace).
    + apply option_map_max_inv in H. destruct H as [d' [_ ->]]. lia.
    + destruct (chr_eqb c rbrace).
      * destruct cur; [discriminate|].
        apply option_map_max_inv in H. destruct H as [d' [_ ->]]. lia.
      * apply option_map_max_inv in H. destruct H as [d' [_ ->]]. lia.
Qed.

Lemma max_depth_absorb cur s :
  option_map (Nat.max cur) (max_depth cur s) = max_depth cur s.
Proof.
  destruct (max_depth cur s) as [d|] eqn:E; [|reflexivity].
  apply max_depth_ge in E. simpl. f_equal. lia.
Qed.

Lemma not_braces_inv c :
  not_braces c = true -> chr_eqb c lbrace = false /\ chr_eqb c rbrace = false.
Proof.
  unfold not_braces. intros H. apply negb_true_iff in H.
  apply orb_false_iff in H. exact H.
Qed.

(** Text without braces does not change the nesting. *)
Lemma max_depth_skip w s : forall cur,
  Forall (fun c => not_braces c = true) w ->
  max_depth cur (w ++ s) = max_depth cur s.
Proof.
  induction w as [|c w IH]; intros cur F; [reflexivity|].
  inversion F; subst. cbn [app max_depth].
  destruct (not_braces_inv c H1) as [-> ->].
  rewrite IH by assumption. apply max_depth_absorb.
Qed.

Lemma max_depth_lbrace cur s :
  max_depth cur (lbrace :: s) = option_map (Nat.max (S cur)) (max_depth (S cur) s).
Proof. reflexivity. Qed.

Lemma max_depth_rbrace cur s :
  max_depth (S cur) (rbrace :: s) = option_map (Nat.max (S cur)) (max_depth cur s).
Proof. reflexivity. Qed.

Lemma space_not_brace c : isspace c = true -> not_braces c = true.
Proof.
  intros H. unfold not_braces.
  destruct (chr_eqb c lbrace) eqn:E1.
  - apply N.eqb_eq in E1. subst. discriminate.
  - destruct (chr_eqb c rbrace) eqn:E2; [|reflexivity].
    apply N.eqb_eq in E2. subst. discriminate.
Qed.

Lemma spaces_not_braces w :
  Forall (fun c => isspace c = true) w -> Forall (fun c => not_braces c = true) w.
Proof. apply Forall_impl. exact space_not_brace. Qed.

(** Two balanced fragments that are both followed by a closing brace in
    the same text are the same fragment. *)
Lemma balanced_unique : forall (x y r1 r2 : str) cur dx dy,
  x ++ rbrace :: r1 = y ++ rbrace :: r2 ->
  max_depth cur x = Some dx -> max_depth cur y = Some dy ->
  x = y /\ r1 = r2.
Proof.
  induction x as [|a x IH]; intros y r1 r2 cur dx dy E Hx Hy.
  - destruct y as [|b y]; simpl in E.
    + inversion E. auto.
    + inversion E; subst. cbn [max_depth] in Hx, Hy.
      destruct cur; [|discriminate]. discriminate.
  - destruct y as [|b y]; simpl in E.
    + inversion E; subst. cbn [max_depth] in Hx, Hy.
      destruct cur; [|discriminate]. discriminate.
    + inversion E; subst. cbn [max_depth] in Hx, Hy.
      destruct (chr_eqb b lbrace).
      * apply option_map_max_inv in Hx. destruct Hx as [dx' [Hx _]].
        apply option_map_max_inv in Hy. destruct Hy as [dy' [Hy _]].
        destruct (IH _ _ _ _ _ _ H1 Hx Hy). split; congruence.
      * destruct (chr_eqb b rbrace).
        -- destruct cur; [discriminate|].
           apply option_map_max_inv in Hx. destruct Hx as [dx' [Hx _]].
           apply option_map_max_inv in Hy. destruct Hy as [dy' [Hy _]].
           destruct (IH _ _ _ _ _ _ H1 Hx Hy). split; congruence.
        -- apply option_map_max_inv in Hx. destruct Hx as [dx' [Hx _]].
           apply option_map_max_inv in Hy. destruct Hy as [dy' [Hy _]].
           destruct (IH _ _ _ _ _ _ H1 Hx Hy). split; congruence.
Qed.

(* ===================================================================== *)
(** * The displaystyle pattern and brace nesting                          *)
(* ===================================================================== *)

Lemma depth_le_one_inv [a] [o : option nat] [d] :
  option_map (Nat.max a) o = Some d -> (d <= 1)%nat ->
  exists d', o = Some d' /\ (d' <= 1)%nat /\ (a <= 1)%nat.
Proof.
  intros H Hd. apply option_map_max_inv in H. destruct H as [d' [E ->]].
  exists d'. repeat split; [exact E|lia|lia].
Qed.

(** What a brace group and what is left of one after its opening brace
    match: content nested at most one level deep. *)
Lemma content_matches : forall content : str,
  (forall d, max_depth 0 content = Some d -> (d <= 1)%nat ->
     forall st rest, after st = content ++ rest ->
     exists s1 st',
       rmatch (Star (Cls not_braces)) st s1
       /\ rmatch (Star brace_group_re) s1 st' /\ after st' = rest)
  /\ (forall d, max_depth 1 content = Some d -> (d <= 1)%nat ->
     forall st rest, after st = content ++ rest ->
     exists sa sb sc st',
       rmatch (Star (Cls not_braces)) st sa
       /\ rmatch (Chr rbrace) sa sb
       /\ rmatch (Star (Cls not_braces)) sb sc
       /\ rmatch (Star brace_group_re) sc st' /\ after st' = rest).
Proof.
  induction content as [|c content [IH0 IH1]]; split;
    intros d Hd Hle st rest E.
  - exists st, st. repeat split; [apply M_StarDone|apply M_StarDone|exact E].
  - discriminate.
  - change (after st = c :: (content ++ rest)) in E.
    cbn [max_depth] in Hd. destruct (chr_eqb c lbrace) eqn:El.
    + apply N.eqb_eq in El. subst c.
      destruct (depth_le_one_inv Hd Hle) as [d' [Hd' [Hle' _]]].
      destruct (IH1 d' Hd' Hle' (step lbrace (content ++ rest) st) rest eq_refl)
        as [sa [sb [sc [st' [A [B [C [D F]]]]]]]].
      exists st, st'. split; [apply M_StarDone|]. split; [|exact F].
      assert (G : rmatch brace_group_re st sc).
      { unfold brace_group_re. eapply M_Seq; [apply M_Chr; exact E|].
        eapply M_Seq; [exact A|]. eapply M_Seq; [exact B|exact C]. }
      destruct (Nat.lt_ge_cases (remaining sc) (remaining st)) as [Hlt|Hge].
      * eapply M_StarStep; eassumption.
      * exfalso. destruct (rmatch_moved _ _ _ G) as [w [Mv]].
        apply rmatch_seq_inv in G. destruct G as [s0 [G0 G1]].
        apply rmatch_chr_inv in G0. destruct G0 as [M0 _].
        apply rmatch_moved in G1. destruct G1 as [w1 M1].
        rewrite (moved_remaining M0), (moved_remaining M1) in Hge.
        simpl in Hge. lia.
    + destruct (chr_eqb c rbrace) eqn:Er; [discriminate|].
      destruct (depth_le_one_inv Hd Hle) as [d' [Hd' [Hle' _]]].
      destruct (IH0 d' Hd' Hle' (step c (content ++ rest) st) rest eq_refl)
        as [s1 [st' [A [B F]]]].
      exists s1, st'. split; [|split; assumption].
      eapply M_StarStep; [apply M_Cls; [exact E|]| |exact A].
      * unfold not_braces. rewrite El, Er. reflexivity.
      * unfold remaining. rewrite E. simpl. lia.
  - change (after st = c :: (content ++ rest)) in E.
    cbn [max_depth] in Hd. destruct (chr_eqb c lbrace) eqn:El.
    + destruct (depth_le_one_inv Hd Hle) as [_ [_ [_ Habs]]]. lia.
    + destruct (chr_eqb c rbrace) eqn:Er.
      * apply N.eqb_eq in Er. subst c.
        destruct (depth_le_one_inv Hd Hle) as [d' [Hd' [Hle' _]]].
        destruct (IH0 d' Hd' Hle' (step rbrace (content ++ rest) st) rest eq_refl)
          as [s1 [st' [A [B F]]]].
        exists st, (step rbrace (content ++ rest) st), s1, st'.
        split; [apply M_StarDone|]. split; [apply M_Chr; exact E|].
        split; [exact A|]. split; assumption.
      * destruct (depth_le_one_inv Hd Hle) as [d' [Hd' [Hle' _]]].
        destruct (IH1 d' Hd' Hle' (step c (content ++ rest) st) rest eq_refl)
          as [sa [sb [sc [st' [A [B [C [D F]]]]]]]].
        exists sa, sb, sc, st'. split; [|repeat split; assumption].
        eapply M_StarStep; [apply M_Cls; [exact E|]| |exact A].
        -- unfold not_braces. rewrite El, Er. reflexivity.
        -- unfold remaining. rewrite E. simpl. lia.
Qed.

(** Conversely the content pattern only matches balanced text nested at
    most one level deep. *)
Lemma brace_groups_depth st st' :
  rmatch (Star brace_group_re) st st' ->
  exists x d, moved x st st' /\ max_depth 0 x = Some d /\ (d <= 1)%nat
              /\ caps st' = caps st.
Proof.
  assert (Hone : forall s s', rmatch brace_group_re s s' ->
            forall t dt, max_depth 0 t = Some dt -> (dt <= 1)%nat ->
            exists x, moved x s s' /\ max_depth 0 (x ++ t) = Some 1%nat
                      /\ caps s' = caps s).
  { intros s s' H t dt Ht Hdt. unfold brace_group_re in H.
    apply rmatch_seq_inv in H. destruct H as [s1 [H1 H]].
    apply rmatch_seq_inv in H. destruct H as [s2 [H2 H]].
    apply rmatch_seq_inv in H. destruct H as [s3 [H3 H4]].
    apply rmatch_chr_inv in H1. destruct H1 as [M1 C1].
    apply rmatch_star_cls_inv in H2. destruct H2 as [w2 [M2 [F2 C2]]].
    apply rmatch_chr_inv in H3. destruct H3 as [M3 C3].
    apply rmatch_star_cls_inv in H4. destruct H4 as [w4 [M4 [F4 C4]]].
    exists ([lbrace] ++ w2 ++ [rbrace] ++ w4). split; [|split].
    - exact (moved_app M1 (moved_app M2 (moved_app M3 M4))).
    - rewrite <- !app_assoc.
      change ([lbrace] ++ w2 ++ [rbrace] ++ w4 ++ t)
        with (lbrace :: (w2 ++ rbrace :: (w4 ++ t))).
      rewrite max_depth_lbrace, (max_depth_skip w2 _ 1 F2), max_depth_rbrace.
      rewrite (max_depth_skip w4 _ 0 F4), Ht. cbn [option_map]. f_equal. lia.
    - congruence. }
  intros H. remember (Star brace_group_re) as r eqn:E.
  induction H; try discriminate; inversion E; subst.
  - exists [], 0%nat. split; [apply moved_nil|].
    split; [reflexivity|]. split; [lia|reflexivity].
  - destruct (IHrmatch2 eq_refl) as [t [dt [Mt [Ht [Hdt Ct]]]]].
    destruct (Hone _ _ H t dt Ht Hdt) as [x [Mx [Hx Cx]]].
    exists (x ++ t), 1%nat. split; [exact (moved_app Mx Mt)|].
    split; [exact Hx|]. split; [lia|congruence].
  - destruct (Hone _ _ H [] 0%nat eq_refl (Nat.le_0_l 1)) as [x [Mx [Hx Cx]]].
    rewrite app_nil_r in Hx. exists x, 1%nat.
    split; [exact Mx|]. split; [exact Hx|]. split; [lia|exact Cx].
Qed.

Lemma content_depth st st' :
  rmatch displaystyle_content_re st st' ->
  exists x d, moved x st st' /\ max_depth 0 x = Some d /\ (d <= 1)%nat
              /\ caps st' = caps st.
Proof.
  unfold displaystyle_content_re. intros H.
  apply rmatch_seq_inv in H. destruct H as [s1 [H1 H2]].
  apply rmatch_star_cls_inv in H1. destruct H1 as [w [Mw [Fw Cw]]].
  apply brace_groups_depth in H2. destruct H2 as [x [d [Mx [Hx [Hd Cx]]]]].
  exists (w ++ x), d. split; [exact (moved_app Mw Mx)|].
  split; [|split; [exact Hd|congruence]].
  rewrite max_depth_skip by exact Fw. exact Hx.
Qed.

(** The shape of every match of the displaystyle pattern. *)
Lemma displaystyle_match_inv st st' :
  rmatch displaystyle_re st st' ->
  exists ws x d,
    after st = u "{\displaystyle" ++ ws ++ x ++ rbrace :: after st'
    /\ ws <> [] /\ Forall (fun c => isspace c = true) ws
    /\ max_depth 0 x = Some d /\ (d <= 1)%nat
    /\ group 1 st' = x.
Proof.
  unfold displaystyle_re. intros H.
  apply rmatch_seq_inv in H. destruct H as [s1 [H1 H]].
  apply rmatch_seq_inv in H. destruct H as [s2 [H2 H]].
  apply rmatch_seq_inv in H. destruct H as [s3 [H3 H4]].
  apply rmatch_lit_inv in H1. destruct H1 as [[A1 _] _].
  apply rmatch_plus_cls_inv in H2. destruct H2 as [c [w [[A2 _] [Hc [Fw _]]]]].
  apply rmatch_group_inv in H3. destruct H3 as [s3' [H3 E3]].
  apply content_depth in H3. destruct H3 as [x [d [Mx [Hx [Hd _]]]]].
  apply rmatch_chr_inv in H4. destruct H4 as [[A4 _] C4].
  exists (c :: w), x, d. split; [|split; [discriminate|split; [|split; [|split]]]].
  - rewrite A1. f_equal. rewrite A2. f_equal.
    destruct Mx as [A3 _]. rewrite A3. f_equal.
    subst s3. simpl in A4. exact A4.
  - constructor; assumption.
  - exact Hx.
  - exact Hd.
  - unfold group. rewrite C4. subst s3. simpl.
    rewrite (moved_between Mx). reflexivity.
Qed.

Lemma format_math_strip a b : strip a = strip b -> format_math a = format_math b.
Proof. intros E. unfold format_math. rewrite E. reflexivity. Qed.

Lemma strip_spaces (w1 w2 a b : str) :
  Forall (fun c => isspace c = true) w1 -> Forall (fun c => isspace c = true) w2 ->
  w1 ++ a = w2 ++ b -> strip a = strip b.
Proof.
  intros F1 F2 E. unfold strip.
  rewrite <- (lstrip_spaces w1 a F1), <- (lstrip_spaces w2 b F2), E. reflexivity.
Qed.

(** A span nested at most one level deep is matched as a whole. *)
Lemma span_matched (ws content : str) d adv st post :
  ws <> [] -> Forall (fun c => isspace c = true) ws ->
  max_depth 0 content = Some d -> (d <= 1)%nat ->
  after st = u "{\displaystyle" ++ ws ++ content ++ u "}" ++ post ->
  exists st', match_here displaystyle_re adv st = Some st'
              /\ after st' = post
              /\ replace_displaystyle (clear st) st' = format_math content.
Proof.
  intros Hne Fws Hd Hle E.
  assert (Hex : exists y, match_here displaystyle_re adv st = Some y).
  { destruct ws as [|c w]; [contradiction|]. inversion Fws; subst.
    set (s0 := clear st).
    set (s1 := jump (u "{\displaystyle") s0).
    assert (E1 : after s1 = (c :: w) ++ content ++ u "}" ++ post)
      by (apply jump_after; exact E).
    set (s2 := jump (c :: w) s1).
    assert (E2 : after s2 = content ++ u "}" ++ post)
      by (apply jump_after; exact E1).
    destruct (proj1 (content_matches content) d Hd Hle s2 _ E2)
      as [sa [s3 [A [B E3]]]].
    apply (match_here_complete displaystyle_re st
             (jump [rbrace] (set_group 1 (between s2 s3) s3))).
    - unfold displaystyle_re.
      eapply M_Seq; [exact (rmatch_lit_intro _ s0 _ E)|].
      eapply M_Seq; [exact (rmatch_plus_cls_intro isspace c w s1 _ E1 H1 H2)|].
      eapply M_Seq.
      + apply M_Group. unfold displaystyle_content_re.
        eapply M_Seq; [exact A|exact B].
      + apply (rmatch_chr_intro rbrace _ post). exact E3.
    - unfold remaining. simpl. rewrite E3. simpl. rewrite E.
      rewrite !length_app. simpl. lia. }
  destruct Hex as [y Hy]. exists y.
  destruct (match_here_sound Hy) as [Hr _].
  apply displaystyle_match_inv in Hr.
  destruct Hr as [ws' [x [dx [E' [_ [Fws' [Hx [_ Hg]]]]]]]].
  simpl after in E'. rewrite E in E'. apply app_inv_head in E'.
  assert (Hb : (ws ++ content) ++ rbrace :: post = (ws' ++ x) ++ rbrace :: after y).
  { rewrite <- !app_assoc. exact E'. }
  apply (balanced_unique (ws ++ content) (ws' ++ x) post (after y) 0 d dx) in Hb.
  - destruct Hb as [Hb1 Hb2]. split; [exact Hy|]. split; [symmetry; exact Hb2|].
    unfold replace_displaystyle. rewrite Hg.
    apply format_math_strip. symmetry.
    exact (strip_spaces ws ws' content x Fws Fws' Hb1).
  - rewrite max_depth_skip by (apply spaces_not_braces; exact Fws). exact Hd.
  - rewrite max_depth_skip by (apply spaces_not_braces; exact Fws'). exact Hx.
Qed.

(** A span nested two levels deep or more is not matched. *)
Lemma span_not_matched (ws content : str) d adv st post :
  Forall (fun c => isspace c = true) ws ->
  max_depth 0 content = Some d -> (2 <= d)%nat ->
  after st = u "{\displaystyle" ++ ws ++ content ++ u "}" ++ post ->
  match_here displaystyle_re adv st = None.
Proof.
  intros Fws Hd Hle E.
  destruct (match_here displaystyle_re adv st) as [y|] eqn:Hy; [|reflexivity].
  exfalso. destruct (match_here_sound Hy) as [Hr _].
  apply displaystyle_match_inv in Hr.
  destruct Hr as [ws' [x [dx [E' [_ [Fws' [Hx [Hdx _]]]]]]]].
  simpl after in E'. rewrite E in E'. apply app_inv_head in E'.
  assert (Hb : (ws ++ content) ++ rbrace :: post = (ws' ++ x) ++ rbrace :: after y).
  { rewrite <- !app_assoc. exact E'. }
  assert (Hy1 : max_depth 0 (ws ++ content) = Some d)
    by (rewrite max_depth_skip by (apply spaces_not_braces; exact Fws); exact Hd).
  assert (Hy2 : max_depth 0 (ws' ++ x) = Some dx)
    by (rewrite max_depth_skip by (apply spaces_not_braces; exact Fws'); exact Hx).
  destruct (balanced_unique _ _ _ _ _ _ _ Hb Hy1 Hy2) as [Hb1 _].
  rewrite Hb1 in Hy1. rewrite Hy1 in Hy2. inversion Hy2. lia.
Qed.

Lemma tail_opener_in_content (content l tail : str) :
  content ++ [rbrace] = l ++ u "{\displaystyle" ++ tail ->
  occurs (u "{\displaystyle") content.
Proof.
  intros E. destruct (exists_last (l := tail)) as [tail' [x Ex]].
  - intros ->. rewrite app_nil_r in E.
    change (u "{\displaystyle") with (u "{\displaystyl" ++ [ch "e"]) in E.
    rewrite app_assoc in E. apply app_inj_tail in E. destruct E as [_ E].
    discriminate E.
  - subst tail. rewrite !app_assoc in E. apply app_inj_tail in E.
    destruct E as [E _]. exists l, tail'. rewrite E, <- app_assoc. reflexivity.
Qed.

(** In a span whose content holds no further opener, the opener stands
    at the start only. *)
Lemma opener_only_at_start (B tail ws content : str) :
  Forall (fun c => isspace c = true) ws ->
  ~ occurs (u "{\displaystyle") content ->
  B ++ u "{\displaystyle" ++ tail = u "{\displaystyle" ++ ws ++ content ++ u "}" ->
  B = [].
Proof.
  intros Fws Hno E. destruct B as [|b0 B']; [reflexivity|]. exfalso.
  change (u "{\displaystyle" ++ ws ++ content ++ u "}")
    with (lbrace :: (u "\displaystyle" ++ ws ++ content ++ [rbrace])) in E.
  simpl app in E at 1. inversion E as [[Eb E']]. clear E.
  change (B' ++ u "{\displaystyle" ++ tail
          = (u "\displaystyle" ++ ws) ++ content ++ [rbrace]) in E'.
  apply app_eq_app in E'. destruct E' as [l [[E1 E2]|[E1 E2]]].
  - apply Hno. exact (tail_opener_in_content content l tail E2).
  - destruct l as [|x l'].
    + apply Hno. apply (tail_opener_in_content content [] tail).
      symmetry. exact E2.
    + change (u "{\displaystyle" ++ tail)
        with (lbrace :: (u "\displaystyle" ++ tail)) in E2.
      inversion E2 as [[Ex E2']]. subst x.
      assert (Hin : In lbrace (u "\displaystyle" ++ ws)).
      { rewrite E1. apply in_or_app. right. left. reflexivity. }
      apply in_app_or in Hin. destruct Hin as [Hin|Hin].
      * revert Hin. absent.
      * rewrite Forall_forall in Fws. specialize (Fws _ Hin). discriminate.
Qed.

Lemma convert_whole_span (ws content : str) d :
  ws <> [] -> Forall (fun c => isspace c = true) ws ->
  max_depth 0 content = Some d -> (d <= 1)%nat ->
  convert_displaystyle_latex (u "{\displaystyle" ++ ws ++ content ++ u "}")
  = format_math content.
Proof.
  intros Hne Fws Hd Hle. unfold convert_displaystyle_latex, re_sub.
  set (span := u "{\displaystyle" ++ ws ++ content ++ u "}").
  replace (2 * List.length span + 2)%nat with (S (2 * List.length span + 1)) by lia.
  cbn [sub_loop].
  destruct (span_matched ws content d false (start_of span) [] Hne Fws Hd Hle)
    as [st' [Hm [Ha Hr]]].
  { reflexivity. }
  rewrite Hm, Hr.
  rewrite (sub_loop_at_end lbrace) by (reflexivity || exact Ha).
  apply app_nil_r.
Qed.

Lemma convert_deep_span (ws content : str) d :
  Forall (fun c => isspace c = true) ws ->
  max_depth 0 content = Some d -> (2 <= d)%nat ->
  ~ occurs (u "{\displaystyle") content ->
  convert_displaystyle_latex (u "{\displaystyle" ++ ws ++ content ++ u "}")
  = u "{\displaystyle" ++ ws ++ content ++ u "}".
Proof.
  intros Fws Hd Hle Hno. unfold convert_displaystyle_latex.
  apply re_sub_no_match. intros st st' Hs Hm.
  destruct (match_here_first Hm) as [y Hy].
  assert (Hlit : exists tail, after st = u "{\displaystyle" ++ tail).
  { unfold displaystyle_re in Hm. apply rmatch_seq_inv in Hm.
    destruct Hm as [s1 [H1 _]]. apply rmatch_lit_inv in H1.
    destruct H1 as [[A _] _]. exists (after s1). exact A. }
  destruct Hlit as [tail Ht]. unfold subject in Hs. rewrite Ht in Hs.
  pose proof (opener_only_at_start _ _ _ _ Fws Hno Hs) as HB.
  rewrite HB in Hs. cbn [rev app] in Hs. rewrite <- Ht in Hs.
  rewrite (span_not_matched ws content d false st [] Fws Hd Hle) in Hy.
  - discriminate.
  - exact Hs.
Qed.

(** C9. [convert_displaystyle_latex] handles one level of nested braces
    and no more.  A span [{\displaystyle], whitespace, content, [}]
    whose content is balanced and nested at most one level deep is
    matched as a whole wherever the scan meets its opening brace, and
    replaced by the formatted content between dollar signs.  A span
    whose content is nested two levels deep or more is never matched at
    its opening brace, and when no further opener hides in its content
    the function returns it unchanged. *)
Theorem displaystyle_nesting_limit :
  (forall (ws content : str) (d : nat),
      ws <> [] -> Forall (fun c => isspace c = true) ws ->
      max_depth 0 content = Some d -> (d <= 1)%nat ->
      (forall adv st post,
          after st = u "{\displaystyle" ++ ws ++ content ++ u "}" ++ post ->
          exists st', match_here displaystyle_re adv st = Some st'
                      /\ after st' = post
                      /\ replace_displaystyle (clear st) st' = format_math content)
      /\ convert_displaystyle_latex (u "{\displaystyle" ++ ws ++ content ++ u "}")
         = format_math content)
  /\ (forall (ws content : str) (d : nat),
      ws <> [] -> Forall (fun c => isspace c = true) ws ->
      max_depth 0 content = Some d -> (2 <= d)%nat ->
      (forall adv st post,
          after st = u "{\displaystyle" ++ ws ++ content ++ u "}" ++ post ->
          match_here displaystyle_re adv st = None)
      /\ (~ occurs (u "{\displaystyle") content ->
          convert_displaystyle_latex (u "{\displaystyle" ++ ws ++ content ++ u "}")
          = u "{\displaystyle" ++ ws ++ content ++ u "}")).
Proof.
  split; intros ws content d Hne Fws Hd Hle; split.
  - intros adv st post E. exact (span_matched ws content d adv st post Hne Fws Hd Hle E).
  - exact (convert_whole_span ws content d Hne Fws Hd Hle).
  - intros adv st post E. exact (span_not_matched ws content d adv st post Fws Hd Hle E).
  - intros Hno. exact (convert_deep_span ws content d Fws Hd Hle Hno).
Qed.

Lemma displaystyle_nesting_limit_witness :
  convert_displaystyle_latex (u "{\displaystyle" ++ u " " ++ u "a{b}c" ++ u "}")
  = u "$a{b}c$"
  /\ convert_displaystyle_latex (u "{\displaystyle" ++ u " " ++ u "a{b{c}}" ++ u "}")
     = u "{\displaystyle" ++ u " " ++ u "a{b{c}}" ++ u "}".
Proof.
  split.
  - apply (proj2 (proj1 displaystyle_nesting_limit (u " ") (u "a{b}c") 1%nat
                    ltac:(discriminate) ltac:(repeat constructor)
                    eq_refl (Nat.le_refl 1))).
  - apply (proj2 (proj2 displaystyle_nesting_limit (u " ") (u "a{b{c}}") 2%nat
                    ltac:(discriminate) ltac:(repeat constructor)
                    eq_refl (Nat.le_refl 2))).
    intros [pre [post E]].
    assert (H : In (ch "\") (u "a{b{c}}")).
    { rewrite E. apply in_or_app. right. right. left. reflexivity. }
    revert H. absent.
Defined.

(* ===================================================================== *)
(** * Stripped and squeezed text                                          *)
(* ===================================================================== *)

Lemma lstrip_starts_clean s : starts_clean (lstrip s).
Proof.
  induction s as [|c s IH]; simpl; [exact I|].
  destruct (isspace c) eqn:E; [exact IH|exact E].
Qed.

Lemma lstrip_clean s : starts_clean s -> lstrip s = s.
Proof.
  destruct s as [|c s]; simpl; [reflexivity|]. intros ->. reflexivity.
Qed.

Lemma lstrip_idempotent s : lstrip (lstrip s) = lstrip s.
Proof. apply lstrip_clean, lstrip_starts_clean. Qed.

Lemma lstrip_snoc a c : isspace c = false -> lstrip (a ++ [c]) = lstrip a ++ [c].
Proof.
  intros Hc. induction a as [|x a IH]; simpl.
  - rewrite Hc. reflexivity.
  - destruct (isspace x); [exact IH|reflexivity].
Qed.

Lemma rstrip_cons c s : isspace c = false -> rstrip (c :: s) = c :: rstrip s.
Proof.
  intros Hc. unfold rstrip. simpl rev. rewrite (lstrip_snoc _ c Hc).
  rewrite rev_app_distr. reflexivity.
Qed.

Lemma rstrip_idempotent s : rstrip (rstrip s) = rstrip s.
Proof.
  unfold rstrip. rewrite rev_involutive, lstrip_idempotent. reflexivity.
Qed.

Lemma rstrip_starts_clean s : starts_clean s -> starts_clean (rstrip s).
Proof.
  destruct s as [|c s]; [intros _; exact I|]. simpl. intros Hc.
  rewrite (rstrip_cons c s Hc). exact Hc.
Qed.

(** [strip] has nothing to do on a stripped text. *)
Lemma strip_idempotent s : strip (strip s) = strip s.
Proof.
  unfold strip at 1.
  rewrite (lstrip_clean (strip s)).
  - unfold strip. apply rstrip_idempotent.
  - unfold strip. apply rstrip_starts_clean, lstrip_starts_clean.
Qed.

Lemma strip_nonspace s : Forall (fun c => isspace c = false) s -> strip s = s.
Proof.
  intros F. unfold strip. rewrite lstrip_clean.
  - induction F as [|c s Hc _ IH]; [reflexivity|].
    rewrite (rstrip_cons c s Hc), IH. reflexivity.
  - destruct F; [exact I|assumption].
Qed.

Lemma squeezed_suffix l t : squeezed (l ++ t) -> squeezed t.
Proof.
  induction l as [|a l IH]; [auto|]. simpl. intros [_ [_ H]]. exact (IH H).
Qed.

Lemma squeezed_prefix t r : squeezed (t ++ r) -> squeezed t.
Proof.
  induction t as [|a t IH]; [intros _; exact I|].
  simpl. intros [H1 [H2 H3]]. split; [exact H1|]. split; [|exact (IH H3)].
  destruct t; [exact I|exact H2].
Qed.

Lemma strip_squeezed t : squeezed t -> squeezed (strip t).
Proof.
  intros H. destruct (strip_infix t) as [l [r E]]. rewrite E in H.
  apply squeezed_suffix in H. apply squeezed_prefix in H. exact H.
Qed.

(* ===================================================================== *)
(** * The whitespace collapse                                             *)
(* ===================================================================== *)

Lemma star_loop_some body k n st :
  (exists x, k st = Some x) -> exists x, star_loop body k n st = Some x.
Proof.
  intros [x Hx]. destruct n; simpl; [eauto|].
  destruct (body _ st); eauto.
Qed.

Lemma star_loop_cls_unfold (p : char -> bool) (k : cont) n st :
  star_loop (m (Cls p)) k (S n) st
  = match
      match after st with
      | [] => None
      | c :: rest =>
          if p c then
            if Nat.ltb (remaining (step c rest st)) (remaining st)
            then star_loop (m (Cls p)) k n (step c rest st)
            else k (step c rest st)
          else None
      end
    with
    | Some x => Some x
    | None => k st
    end.
Proof. reflexivity. Qed.

(** A greedy run of a class stops only where the class stops, when the
    rest of the match accepts every position. *)
Lemma star_cls_greedy (p : char -> bool) (k : cont) : forall n st x,
  (forall s, (remaining s <= remaining st)%nat -> k s = Some s) ->
  (remaining st < n)%nat ->
  star_loop (m (Cls p)) k n st = Some x ->
  match after x with [] => True | b :: _ => p b = false end.
Proof.
  induction n as [|n IH]; intros st x Hk Hn H; [lia|].
  rewrite star_loop_cls_unfold in H. destruct (after st) as [|c rest] eqn:E.
  - rewrite (Hk st (Nat.le_refl _)) in H. inversion H; subst. rewrite E. exact I.
  - destruct (p c) eqn:Hc.
    + assert (Hlt : (remaining (step c rest st) < remaining st)%nat)
        by (unfold remaining; simpl; rewrite E; simpl; lia).
      apply Nat.ltb_lt in Hlt. rewrite Hlt in H. apply Nat.ltb_lt in Hlt.
      destruct (star_loop_some (m (Cls p)) k n (step c rest st)) as [y Hy].
      { exists (step c rest st). apply Hk. lia. }
      rewrite Hy in H. inversion H; subst.
      apply (IH (step c rest st) x); [|lia|exact Hy].
      intros s Hs. apply Hk. lia.
    + rewrite (Hk st (Nat.le_refl _)) in H. inversion H; subst.
      rewrite E. exact Hc.
Qed.

(** [\s+] takes the whole run of whitespace. *)
Lemma whitespace_run_greedy adv st st' :
  match_here whitespace_run adv st = Some st' -> starts_clean (after st').
Proof.
  unfold match_here, whitespace_run, Plus, space. cbn [m].
  destruct (after (clear st)) as [|c rest] eqn:E; [discriminate|].
  destruct (isspace c); [|discriminate]. intros H.
  apply (star_cls_greedy isspace) in H.
  - unfold starts_clean. exact H.
  - intros s Hs. unfold accept.
    destruct (Nat.eqb_spec (remaining s) (remaining (clear st))) as [Heq|_].
    + exfalso. unfold remaining in *. simpl in Hs. rewrite E in Heq. simpl in Heq. lia.
    + rewrite andb_false_r. reflexivity.
  - lia.
Qed.

Lemma whitespace_run_needs_space adv st st' :
  match_here whitespace_run adv st = Some st' -> ~ starts_clean (after st).
Proof.
  intros H. apply match_here_sound in H. destruct H as [H _].
  apply rmatch_plus_cls_inv in H. destruct H as [c [w [[A _] [Hc _]]]].
  simpl in A. rewrite A. simpl. congruence.
Qed.

Lemma sub_loop_squeezed : forall fuel (adv : bool) st,
  (2 * remaining st + (if adv then 1 else 2) <= fuel)%nat ->
  squeezed (sub_loop whitespace_run (fun _ _ => u " ") fuel adv st)
  /\ (starts_clean (after st) ->
      starts_clean (sub_loop whitespace_run (fun _ _ => u " ") fuel adv st)).
Proof.
  induction fuel as [|f IH]; intros adv st Hf; [destruct adv; lia|].
  cbn [sub_loop]. destruct (match_here whitespace_run adv st) as [st'|] eqn:E.
  - destruct (match_here_moved E) as [w Hw].
    pose proof (moved_remaining Hw) as Hr.
    destruct (IH (Nat.eqb (remaining st') (remaining st)) st') as [A B].
    { destruct (Nat.eqb_spec (remaining st') (remaining st)).
      - destruct adv; [|lia].
        apply match_here_sound in E. destruct E as [_ E]. exfalso. now apply E.
      - destruct adv; lia. }
    specialize (B (whitespace_run_greedy adv st st' E)).
    split.
    + change (u " " ++ ?x) with (ch " " :: x). cbn [squeezed].
      split; [reflexivity|]. split; [|exact A].
      destruct (sub_loop _ _ f _ st'); [exact I|]. intros _. exact B.
    + intros Hc. exfalso. exact (whitespace_run_needs_space adv st st' E Hc).
  - destruct (after st) as [|c rest] eqn:Ea; [split; intros; exact I|].
    pose proof (whitespace_run_matches Ea E) as Hc.
    destruct (IH false (step c rest st)) as [A B].
    { unfold remaining in *. rewrite Ea in Hf. simpl in *. destruct adv; lia. }
    split; [|intros _; exact Hc].
    cbn [squeezed]. split; [congruence|]. split; [|exact A].
    destruct (sub_loop _ _ f false _); [exact I|congruence].
Qed.

Lemma collapse_whitespace_squeezed t : squeezed (collapse_whitespace t).
Proof.
  unfold collapse_whitespace, re_sub. apply sub_loop_squeezed.
  unfold remaining. simpl. lia.
Qed.

(** On squeezed text every whitespace run is one space already. *)
Lemma collapse_whitespace_fixed t : squeezed t -> collapse_whitespace t = t.
Proof.
  intros Hq. unfold collapse_whitespace. apply re_sub_unchanged.
  intros adv st st' Hs E. apply match_here_sound in E. destruct E as [E _].
  apply rmatch_plus_cls_inv in E. destruct E as [c [w [Mv [Hc [Fw _]]]]].
  change (u " " = between (clear st) st'). rewrite (moved_between Mv).
  assert (Hsq : squeezed (after st)).
  { apply (squeezed_suffix (rev (before st))). unfold subject in Hs.
    rewrite Hs. exact Hq. }
  destruct Mv as [A _]. simpl in A. rewrite A in Hsq.
  simpl in Hsq. destruct Hsq as [H1 [H2 _]].
  rewrite (H1 Hc). destruct w as [|b w]; [reflexivity|].
  inversion Fw; subst. simpl in H2. specialize (H2 Hc). congruence.
Qed.

(* ===================================================================== *)
(** * What each step keeps out of the text                                *)
(* ===================================================================== *)

Lemma split_nl_Forall (P : char -> Prop) t :
  Forall P t -> Forall (Forall P) (split_nl t).
Proof.
  induction 1 as [|c r Hc _ IH]; simpl.
  - repeat constructor.
  - destruct (chr_eqb c nl).
    + constructor; [constructor|exact IH].
    + destruct (split_nl r) as [|l ls]; [repeat constructor; exact Hc|].
      inversion IH; subst. constructor; [constructor; assumption|assumption].
Qed.

Lemma join_Forall (P : char -> Prop) sep parts :
  Forall P sep -> Forall (Forall P) parts -> Forall P (join sep parts).
Proof.
  intros Hs. induction 1 as [|p ps Hp Hps IH]; [constructor|].
  destruct ps as [|q ps]; [exact Hp|].
  rewrite join_cons. apply Forall_app. split; [exact Hp|].
  apply Forall_app. split; [exact Hs|exact IH].
Qed.

Lemma collect_Forall (P : char -> Prop) lines :
  Forall (Forall P) lines -> Forall (Forall P) (collect lines).
Proof.
  induction 1 as [|l rest Hl _ IH]; [constructor|].
  rewrite collect_cons. destruct (math_like (strip l)); [|constructor].
  constructor; [apply strip_Forall; exact Hl|exact IH].
Qed.

Lemma skipn_Forall (A : Type) (P : A -> Prop) n (l : list A) :
  Forall P l -> Forall P (skipn n l).
Proof.
  intros H. rewrite <- (firstn_skipn n l) in H.
  apply Forall_app in H. tauto.
Qed.

Lemma collapse_loop_Forall (P : char -> Prop) :
  P (ch " ") -> forall fuel lines,
  Forall (Forall P) lines -> Forall (Forall P) (collapse_loop fuel lines).
Proof.
  intros Hsp. induction fuel as [|f IH]; intros lines H; [constructor|].
  destruct lines as [|l rest]; [constructor|].
  inversion H; subst. rewrite collapse_loop_cons.
  destruct (math_like (strip l)).
  - destruct (Nat.leb 3 (S (List.length (collect rest)))).
    + constructor.
      * apply join_Forall; [repeat constructor; exact Hsp|].
        constructor; [apply strip_Forall; assumption|].
        apply collect_Forall; assumption.
      * apply IH. apply skipn_Forall. assumption.
    + constructor; [assumption|apply IH; assumption].
  - constructor; [assumption|apply IH; assumption].
Qed.

Lemma collapse_stacked_math_Forall (P : char -> Prop) t :
  P (ch " ") -> P nl -> Forall P t -> Forall P (collapse_stacked_math t).
Proof.
  intros Hsp Hnl H. unfold collapse_stacked_math, collapse_lines.
  apply join_Forall; [repeat constructor; exact Hnl|].
  apply collapse_loop_Forall; [exact Hsp|]. apply split_nl_Forall. exact H.
Qed.

Lemma replace_Forall (P : char -> Prop) old new t :
  Forall P new -> Forall P t -> Forall P (replace old new t).
Proof.
  intros Hn. induction 1 as [|c r Hc _ IH]; [constructor|].
  unfold replace. simpl. apply Forall_app. split; [|exact IH].
  destruct (chr_eqb c old); [exact Hn|repeat constructor; exact Hc].
Qed.

Lemma replace_absent old new t : ~ In old t -> replace old new t = t.
Proof.
  induction t as [|c r IH]; intros H; [reflexivity|].
  unfold replace. simpl. destruct (chr_eqb c old) eqn:E.
  - apply N.eqb_eq in E. subst. exfalso. apply H. left. reflexivity.
  - simpl. f_equal. apply IH. intros Hin. apply H. right. exact Hin.
Qed.

Lemma collapse_stacked_math_one_line t :
  ~ In nl t -> collapse_stacked_math t = t.
Proof.
  intros H. unfold collapse_stacked_math.
  rewrite (split_nl_single t H), collapse_lines_cons.
  rewrite collapse_lines_nil.
  destruct (math_like (strip t)); reflexivity.
Qed.

Lemma subject_after_Forall (P : char -> Prop) st :
  Forall P (subject st) -> Forall P (after st).
Proof. unfold subject. intros H. apply Forall_app in H. tauto. Qed.

Lemma drop_closing_braces_none t : ~ In rbrace (drop_closing_braces t).
Proof.
  apply Forall_not_In. unfold drop_closing_braces. apply re_sub_Forall.
  - intros. constructor.
  - intros adv st c rest _ Ha E Hc. subst c.
    destruct (match_here_complete (Chr rbrace) st (step rbrace rest (clear st)))
      with (adv := adv) as [y Hy].
    + apply M_Chr. exact Ha.
    + unfold remaining. simpl. rewrite Ha. simpl. lia.
    + congruence.
Qed.

Lemma collapse_whitespace_Forall (P : char -> Prop) t :
  P (ch " ") -> Forall P t -> Forall P (collapse_whitespace t).
Proof.
  intros Hsp H. unfold collapse_whitespace. apply re_sub_preserves; [exact H|].
  intros. repeat constructor. exact Hsp.
Qed.

Lemma apply_latex_to_unicode_absent t :
  ~ In (ch "\") t -> apply_latex_to_unicode t = t.
Proof.
  intros H. unfold apply_latex_to_unicode.
  assert (F : Forall (fun kv : string * string =>
                        needs (ch "\") (Lit (u (fst kv))) = true) latex_to_unicode)
    by (repeat constructor).
  induction F as [|kv table Hkv _ IH]; [reflexivity|].
  simpl. rewrite (re_sub_absent (ch "\") _ _ t Hkv H). exact IH.
Qed.


(* ===================================================================== *)
(** * Plain mode applied twice                                            *)
(* ===================================================================== *)

(** C7, as stated, fails: the text [a,,] holds no LaTeX command, plain
    mode makes it [a,], and plain mode applied again makes that [a]. *)
Lemma plain_mode_twice_differs :
  ~ (forall text : str, ~ In (ch "\") text ->
       clean_wikipedia_text (clean_wikipedia_text text false) false
       = clean_wikipedia_text text false).
Proof.
  intros H. specialize (H (u "a,,")).
  assert (Hb : ~ In (ch "\") (u "a,,")) by absent.
  specialize (H Hb). vm_compute in H. discriminate H.
Qed.

(* ===================================================================== *)
(** * The de-duplication patterns                                         *)
(* ===================================================================== *)










(** A first match that covers the whole subject. *)
Lemma re_sub_whole c r repl text y :
  needs c r = true ->
  match_here r false (start_of text) = Some y -> after y = [] ->
  re_sub r repl text = repl (clear (start_of text)) y.
Proof.
  intros Hn Hm Ha. unfold re_sub.
  replace (2 * List.length text + 2)%nat with (S (2 * List.length text + 1)) by lia.
  cbn [sub_loop]. rewrite Hm.
  rewrite (sub_loop_at_end c) by assumption. apply app_nil_r.
Qed.

Lemma whole_match_text r text y :
  match_here r false (start_of text) = Some y -> after y = [] ->
  group0 (clear (start_of text)) y = text.
Proof.
  intros Hm Ha. destruct (match_here_moved Hm) as [w Mw].
  unfold group0. change (between (clear (start_of text)) y)
    with (between (start_of text) y).
  rewrite (moved_between Mw). destruct Mw as [A _]. simpl in A.
  rewrite Ha, app_nil_r in A. symmetry. exact A.
Qed.

Lemma Forall_true (p : char -> bool) (l : str) :
  forallb p l = true -> Forall (fun c => p c = true) l.
Proof.
  intros H. apply Forall_forall. intros c Hc.
  rewrite forallb_forall in H. exact (H c Hc).
Qed.


(** Side conditions on given texts, by evaluation. *)
Ltac nonempty := let H := fresh "H" in intro H; vm_compute in H; discriminate H.
Ltac all_true := apply Forall_true; vm_compute; reflexivity.


(* ===================================================================== *)
(** * More on the stacked-math collapser                                  *)
(* ===================================================================== *)

Lemma skipn_lines_prefix (A : Type) (a b : list A) :
  skipn (List.length a) (a ++ b) = b.
Proof. induction a as [|x a IH]; simpl; [reflexivity|exact IH]. Qed.

(** The inner loop collects a run up to the first line that is not
    math-like. *)
Lemma collect_run (tail suf : list str) :
  Forall (fun l => math_like (strip l) = true) tail ->
  not_math_like (hd [] suf) ->
  collect (tail ++ suf) = List.map strip tail.
Proof.
  intros F Hs. induction F as [|l tail Hl _ IH].
  - apply collect_not_math. exact Hs.
  - rewrite <- app_comm_cons, collect_cons, Hl, IH. reflexivity.
Qed.

Lemma collapse_lines_run (run suf : list str) :
  Forall (fun l => math_like (strip l) = true) run ->
  (3 <= List.length run)%nat -> not_math_like (hd [] suf) ->
  collapse_lines (run ++ suf)
  = join (u " ") (List.map strip run) :: collapse_lines suf.
Proof.
  intros F Hlen Hs. destruct run as [|l tail]; [simpl in Hlen; lia|].
  pose proof (Forall_inv F) as Hl. pose proof (Forall_inv_tail F) as Ft.
  simpl in Hl, Hlen.
  rewrite <- app_comm_cons, collapse_lines_cons, Hl.
  rewrite (collect_run tail suf Ft Hs), length_map.
  destruct (Nat.leb_spec 3 (S (List.length tail))) as [_|Hlt]; [|lia].
  rewrite skipn_lines_prefix. reflexivity.
Qed.

(** A run of three or more math-like lines, whatever the length of the
    tokens, becomes one line: the stripped tokens joined by single
    spaces. *)
Theorem stacked_run_joined (pre run suf : list str) :
  Forall no_newline (pre ++ run ++ suf) ->
  Forall (fun l => math_like (strip l) = true) run ->
  (3 <= List.length run)%nat ->
  not_math_like (last pre []) -> not_math_like (hd [] suf) ->
  collapse_stacked_math (join [nl] (pre ++ run ++ suf))
  = join [nl] (collapse_lines pre
                 ++ join (u " ") (List.map strip run) :: collapse_lines suf).
Proof.
  intros Hnl F Hlen Hpre Hsuf.
  rewrite collapse_stacked_math_lines; [|destruct pre; destruct run; simpl in *; try discriminate; lia|exact Hnl].
  rewrite (collapse_lines_app (List.length pre) pre _ eq_refl Hpre).
  rewrite (collapse_lines_run run suf F Hlen Hsuf). reflexivity.
Qed.

Lemma stacked_run_joined_witness :
  collapse_stacked_math
    (u "Given" ++ [nl] ++ u " m " ++ [nl] ++ u "×" ++ [nl] ++ u "n" ++ [nl]
       ++ u "=" ++ [nl] ++ u "12" ++ [nl] ++ u "be given")
  = u "Given" ++ [nl] ++ u "m × n = 12" ++ [nl] ++ u "be given".
Proof.
  apply (stacked_run_joined [u "Given"]
           [u " m "; u "×"; u "n"; u "="; u "12"] [u "be given"]).
  - repeat (apply Forall_cons; [absent|]). apply Forall_nil.
  - repeat (apply Forall_cons; [vm_compute; reflexivity|]). apply Forall_nil.
  - simpl. lia.
  - vm_compute. reflexivity.
  - vm_compute. reflexivity.
Defined.

(** Without three math-like lines in a row nothing is collapsed. *)
Lemma collapse_lines_no_triple (lines : list str) :
  has_math_triple lines = false -> collapse_lines lines = lines.
Proof.
  induction lines as [|l rest IH]; intros H; [reflexivity|].
  cbn [has_math_triple] in H. apply orb_false_iff in H. destruct H as [H1 H2].
  rewrite collapse_lines_cons, (IH H2).
  destruct (math_like (strip l)); [|reflexivity].
  simpl in H1.
  destruct rest as [|l2 [|l3 rest']].
  - reflexivity.
  - rewrite collect_cons. destruct (math_like (strip l2)); reflexivity.
  - rewrite collect_cons. destruct (math_like (strip l2)); [|reflexivity].
    rewrite collect_cons. simpl in H1. rewrite H1. reflexivity.
Qed.

(** The threshold of three, seen from the other side: a text is returned
    unchanged unless three lines in a row are math-like; texts of one or
    two lines always are. *)
Theorem stacked_math_threshold :
  (forall text : str,
      has_math_triple (split_nl text) = false ->
      collapse_stacked_math text = text)
  /\ (forall text : str,
      (List.length (split_nl text) <= 2)%nat ->
      collapse_stacked_math text = text).
Proof.
  assert (A : forall text : str,
             has_math_triple (split_nl text) = false ->
             collapse_stacked_math text = text).
  { intros text H. unfold collapse_stacked_math.
    rewrite (collapse_lines_no_triple _ H). apply join_split_nl. }
  split; [exact A|].
  intros text H. apply A.
  destruct (split_nl text) as [|l1 [|l2 [|l3 rest]]]; simpl in *;
    try lia; rewrite ?andb_false_r; reflexivity.
Qed.

Lemma stacked_math_threshold_witness :
  collapse_stacked_math (u "a" ++ [nl] ++ u "b" ++ [nl] ++ u "Given"
                           ++ [nl] ++ u "c" ++ [nl] ++ u "d")
  = u "a" ++ [nl] ++ u "b" ++ [nl] ++ u "Given" ++ [nl] ++ u "c" ++ [nl] ++ u "d"
  /\ collapse_stacked_math (u "x" ++ [nl] ++ u "y") = u "x" ++ [nl] ++ u "y".
Proof.
  split.
  - apply (proj1 stacked_math_threshold). vm_compute. reflexivity.
  - apply (proj2 stacked_math_threshold). vm_compute. lia.
Defined.

(** ** The collapser applied twice *)

Lemma strip_ends_clean s : starts_clean (rev (strip s)).
Proof.
  unfold strip, rstrip. rewrite rev_involutive. apply lstrip_starts_clean.
Qed.

Lemma strip_starts_clean s : starts_clean (strip s).
Proof. unfold strip. apply rstrip_starts_clean, lstrip_starts_clean. Qed.

Lemma strip_fixed t : starts_clean t -> starts_clean (rev t) -> strip t = t.
Proof.
  intros H1 H2. unfold strip. rewrite (lstrip_clean t H1).
  unfold rstrip. rewrite (lstrip_clean _ H2). apply rev_involutive.
Qed.

Lemma starts_clean_app (a b : str) : a <> [] -> starts_clean a -> starts_clean (a ++ b).
Proof. destruct a; [contradiction|]. intros _ H. exact H. Qed.

Lemma join_cons_more sep (p : str) (rest : list str) :
  rest <> [] -> join sep (p :: rest) = p ++ sep ++ join sep rest.
Proof. destruct rest; [contradiction|reflexivity]. Qed.

Lemma join_last sep (parts : list str) (tl : str) :
  exists x, join sep (parts ++ [tl]) = x ++ tl.
Proof.
  induction parts as [|p ps IH].
  - exists []. reflexivity.
  - destruct IH as [x Hx]. exists (p ++ sep ++ x).
    rewrite <- app_comm_cons, join_cons_more by (destruct ps; discriminate).
    rewrite Hx, <- !app_assoc. reflexivity.
Qed.

Lemma join_length_three sep (t1 t2 t3 : str) (ts : list str) :
  t1 <> [] -> t2 <> [] -> t3 <> [] -> sep <> [] ->
  (5 <= List.length (join sep (t1 :: t2 :: t3 :: ts)))%nat.
Proof.
  intros H1 H2 H3 Hs. rewrite !join_cons, !length_app.
  assert (0 < List.length t1)%nat by (destruct t1; [contradiction|simpl; lia]).
  assert (0 < List.length t2)%nat by (destruct t2; [contradiction|simpl; lia]).
  assert (0 < List.length sep)%nat by (destruct sep; [contradiction|simpl; lia]).
  assert (0 < List.length (join sep (t3 :: ts)))%nat.
  { destruct ts as [|t4 ts].
    - destruct t3; [contradiction|simpl; lia].
    - rewrite join_cons, length_app. destruct t3; [contradiction|simpl; lia]. }
  lia.
Qed.

Lemma math_like_nonempty t : math_like t = true -> t <> [].
Proof. intros H ->. discriminate H. Qed.

(** The line written for a run is too long to be math-like itself. *)
Lemma joined_not_math_like (l : str) (tokens : list str) :
  math_like (strip l) = true ->
  Forall (fun t => t <> [] /\ starts_clean t /\ starts_clean (rev t)) tokens ->
  (2 <= List.length tokens)%nat ->
  not_math_like (join (u " ") (strip l :: tokens)).
Proof.
  intros Hl F Hlen. unfold not_math_like.
  assert (Hne : strip l <> []) by (apply math_like_nonempty; exact Hl).
  assert (Hj : strip (join (u " ") (strip l :: tokens))
               = join (u " ") (strip l :: tokens)).
  { apply strip_fixed.
    - destruct tokens as [|t ts]; [simpl in Hlen; lia|]. rewrite join_cons.
      apply starts_clean_app; [exact Hne|apply strip_starts_clean].
    - destruct (exists_last (l := tokens)) as [ts [tl E]];
        [destruct tokens; [simpl in Hlen; lia|discriminate]|].
      subst tokens. apply Forall_app in F. destruct F as [_ F].
      pose proof (Forall_inv F) as [Hn [_ He]].
      destruct (join_last (u " ") (strip l :: ts) tl) as [x Hx].
      rewrite app_comm_cons, Hx, rev_app_distr.
      apply starts_clean_app; [|exact He].
      intros E. apply Hn. rewrite <- (rev_involutive tl), E. reflexivity. }
  rewrite Hj. unfold math_like.
  destruct tokens as [|t2 [|t3 ts]]; try (simpl in Hlen; lia).
  pose proof (Forall_inv F) as [H2 _].
  pose proof (Forall_inv (Forall_inv_tail F)) as [H3 _].
  pose proof (join_length_three (u " ") (strip l) t2 t3 ts Hne H2 H3
                ltac:(discriminate)) as H5.
  destruct (Nat.leb_spec (List.length (join (u " ") (strip l :: t2 :: t3 :: ts))) 3);
    [lia|reflexivity].
Qed.

Lemma collect_tokens (lines : list str) :
  Forall (fun t => t <> [] /\ starts_clean t /\ starts_clean (rev t)) (collect lines).
Proof.
  induction lines as [|l rest IH]; [constructor|].
  rewrite collect_cons. destruct (math_like (strip l)) eqn:E; [|constructor].
  constructor; [|exact IH]. split; [apply math_like_nonempty; exact E|].
  split; [apply strip_starts_clean|apply strip_ends_clean].
Qed.

Lemma collect_nil_head (lines : list str) :
  collect lines = [] -> not_math_like (hd [] lines).
Proof.
  destruct lines as [|l rest]; [intros _; reflexivity|].
  rewrite collect_cons. simpl. unfold not_math_like.
  destruct (math_like (strip l)); [discriminate|reflexivity].
Qed.

(** The first line of the result is the first line of the input when
    that one is not math-like. *)
Lemma collapse_lines_head (lines : list str) :
  not_math_like (hd [] lines) -> not_math_like (hd [] (collapse_lines lines)).
Proof.
  destruct lines as [|l rest]; [intros _; reflexivity|].
  simpl. intros H. rewrite collapse_lines_cons, H. exact H.
Qed.

(** No three math-like lines in a row are left in the result. *)
Lemma collapse_lines_triple_free : forall n (lines : list str),
  List.length lines = n -> has_math_triple (collapse_lines lines) = false.
Proof.
  induction n as [n IH] using lt_wf_ind. intros lines Hn.
  destruct lines as [|l rest]; [reflexivity|]. simpl in Hn.
  assert (Hrest : has_math_triple (collapse_lines rest) = false)
    by (apply (IH (List.length rest)); [lia|reflexivity]).
  rewrite collapse_lines_cons. destruct (math_like (strip l)) eqn:El.
  - destruct (Nat.leb_spec 3 (S (List.length (collect rest)))) as [Hge|Hlt].
    + cbn [has_math_triple].
      pose proof (joined_not_math_like l (collect rest) El (collect_tokens rest)
                    ltac:(lia)) as Hj.
      unfold not_math_like in Hj. rewrite Hj. simpl.
      apply (IH (List.length (skipn (List.length (collect rest)) rest)));
        [rewrite length_skipn; lia|reflexivity].
    + cbn [has_math_triple]. rewrite Hrest, orb_false_r.
      apply andb_false_iff. right.
      destruct rest as [|l2 rest2]; [reflexivity|].
      rewrite collect_cons in Hlt. rewrite collapse_lines_cons.
      destruct (math_like (strip l2)) eqn:E2.
      * simpl in Hlt. assert (Hc : collect rest2 = [])
          by (destruct (collect rest2); [reflexivity|simpl in Hlt; lia]).
        rewrite Hc. simpl.
        pose proof (collapse_lines_head rest2 (collect_nil_head rest2 Hc)) as Hh.
        destruct (collapse_lines rest2) as [|l3 out]; [reflexivity|].
        simpl in Hh. unfold not_math_like in Hh. rewrite Hh.
        apply andb_false_r.
      * destruct (collapse_lines rest2) as [|l3 out]; [reflexivity|].
        rewrite E2. reflexivity.
  - cbn [has_math_triple]. rewrite El. exact Hrest.
Qed.

Lemma split_nl_no_newline t : Forall no_newline (split_nl t).
Proof.
  induction t as [|c r IH]; simpl.
  - constructor; [intros []|constructor].
  - destruct (chr_eqb c nl) eqn:E.
    + constructor; [intros []|exact IH].
    + destruct (split_nl r) as [|l ls]; [constructor; [|constructor]|].
      * intros [H|[]]. subst. unfold chr_eqb in E. rewrite N.eqb_refl in E. discriminate.
      * inversion IH; subst. constructor; [|assumption].
        intros [H|H]; [|contradiction].
        subst. unfold chr_eqb in E. rewrite N.eqb_refl in E. discriminate.
Qed.

Lemma collapse_lines_no_newline (lines : list str) :
  Forall no_newline lines -> Forall no_newline (collapse_lines lines).
Proof.
  intros H. unfold collapse_lines.
  assert (G : Forall (Forall (fun c => c <> nl)) (collapse_loop (List.length lines) lines)).
  { apply collapse_loop_Forall; [discriminate|].
    revert H. apply Forall_impl. intros l Hl. apply Forall_not_In. exact Hl. }
  revert G. apply Forall_impl. intros l Hl. apply Forall_not_In. exact Hl.
Qed.

Lemma collapse_lines_nonempty (lines : list str) :
  lines <> [] -> collapse_lines lines <> [].
Proof.
  destruct lines as [|l rest]; [contradiction|]. intros _.
  rewrite collapse_lines_cons.
  destruct (math_like (strip l));
    [destruct (Nat.leb 3 (S (List.length (collect rest))))|]; discriminate.
Qed.

(** [collapse_stacked_math] is idempotent: the line it writes for a run
    is never math-like, so a second pass finds no run of three. *)
Theorem collapse_stacked_math_idempotent (text : str) :
  collapse_stacked_math (collapse_stacked_math text) = collapse_stacked_math text.
Proof.
  unfold collapse_stacked_math.
  rewrite split_nl_join.
  - rewrite (collapse_lines_no_triple (collapse_lines (split_nl text))); [reflexivity|].
    apply (collapse_lines_triple_free (List.length (split_nl text))). reflexivity.
  - apply collapse_lines_nonempty, split_nl_nonempty.
  - apply collapse_lines_no_newline, split_nl_no_newline.
Qed.

(* ===================================================================== *)
(** * What every cleaned text looks like                                  *)
(* ===================================================================== *)

(** The replacement written for a displaystyle block: dollar signs
    around a content that has no whitespace at either end and no
    whitespace but single spaces inside. *)
Theorem format_math_shape (content : str) :
  exists body,
    format_math content = u "$" ++ body ++ u "$"
    /\ strip body = body /\ squeezed body.
Proof.
  unfold format_math. cbv zeta. eexists. split; [reflexivity|].
  split; [apply strip_idempotent|].
  apply strip_squeezed. apply collapse_whitespace_squeezed.
Qed.

Lemma plain_branch_squeezed t : squeezed (plain_branch t).
Proof.
  cbv beta zeta delta [plain_branch].
  rewrite collapse_blank_lines_no_newline.
  - apply collapse_whitespace_squeezed.
  - apply only_plain_spaces_no_newline. apply collapse_whitespace_spaces.
Qed.

Lemma closing_braces_dropped t :
  Forall (fun c => c <> rbrace) (re_sub (Chr rbrace) (fun _ _ => []) t).
Proof. apply Forall_not_In. exact (drop_closing_braces_none t). Qed.

Lemma plain_branch_no_closing_brace t : ~ In rbrace (plain_branch t).
Proof.
  cbv beta zeta delta [plain_branch].
  rewrite collapse_blank_lines_no_newline.
  - apply Forall_not_In. apply collapse_whitespace_Forall; [discriminate|].
    apply re_sub_preserves; [|intros; constructor].
    apply closing_braces_dropped.
  - apply only_plain_spaces_no_newline. apply collapse_whitespace_spaces.
Qed.

Lemma plain_branch_no_newline t : ~ In nl (plain_branch t).
Proof. apply only_plain_spaces_no_newline, plain_branch_spaces. Qed.

(** Plain mode, whatever the input: the result has no whitespace but
    single spaces, none of them at either end. *)
Theorem plain_output_squeezed (text : str) :
  squeezed (clean_wikipedia_text text false)
  /\ strip (clean_wikipedia_text text false) = clean_wikipedia_text text false.
Proof.
  unfold clean_wikipedia_text. split; [|apply strip_idempotent].
  rewrite (collapse_blank_lines_no_newline _
             (plain_branch_no_newline (dedup_steps text))).
  apply strip_squeezed, plain_branch_squeezed.
Qed.

(** Plain mode, whatever the input: no closing brace is left. *)
Theorem plain_output_has_no_closing_brace (text : str) :
  ~ In rbrace (clean_wikipedia_text text false).
Proof.
  unfold clean_wikipedia_text.
  rewrite (collapse_blank_lines_no_newline _
             (plain_branch_no_newline (dedup_steps text))).
  apply Forall_not_In, strip_Forall, Forall_not_In.
  apply plain_branch_no_closing_brace.
Qed.

(* ===================================================================== *)
(** * Blank lines                                                         *)
(* ===================================================================== *)

Lemma leading_newlines_nl r : leading_newlines (nl :: r) = S (leading_newlines r).
Proof. reflexivity. Qed.

Lemma leading_newlines_other c r : c <> nl -> leading_newlines (c :: r) = 0%nat.
Proof.
  intros H. simpl. destruct (chr_eqb c nl) eqn:E; [|reflexivity].
  apply N.eqb_eq in E. contradiction.
Qed.

Lemma leading_newlines_prefix t r :
  (leading_newlines t <= leading_newlines (t ++ r))%nat.
Proof.
  induction t as [|c t IH]; simpl; [lia|].
  destruct (chr_eqb c nl); lia.
Qed.

Lemma blank_runs_short_suffix l t : blank_runs_short (l ++ t) -> blank_runs_short t.
Proof.
  induction l as [|a l IH]; [auto|]. simpl. intros [_ H]. exact (IH H).
Qed.

Lemma blank_runs_short_prefix t r : blank_runs_short (t ++ r) -> blank_runs_short t.
Proof.
  induction t as [|a t IH]; [intros _; exact I|].
  intros [H1 H2]. split; [|exact (IH H2)].
  pose proof (leading_newlines_prefix (a :: t) r). simpl app in *. lia.
Qed.

Lemma strip_blank_runs_short t : blank_runs_short t -> blank_runs_short (strip t).
Proof.
  intros H. destruct (strip_infix t) as [l [r E]]. rewrite E in H.
  apply blank_runs_short_suffix in H. apply blank_runs_short_prefix in H. exact H.
Qed.

(** The pattern [\n{3,}] takes a whole run of newlines. *)
Lemma blank_lines_greedy adv st st' :
  match_here blank_lines_re adv st = Some st' ->
  leading_newlines (after st') = 0%nat.
Proof.
  unfold match_here, blank_lines_re, AtLeast3. intros H.
  change (m (Chr nl ~> Chr nl ~> Chr nl ~> Star (Chr nl)) (accept adv (clear st)) (clear st))
    with (m (Chr nl) (fun s1 => m (Chr nl) (fun s2 => m (Chr nl)
            (fun s3 => m (Star (Chr nl)) (accept adv (clear st)) s3) s2) s1) (clear st)) in H.
  apply m_sound in H. destruct H as [s1 [R1 H]].
  apply m_sound in H. destruct H as [s2 [R2 H]].
  apply m_sound in H. destruct H as [s3 [R3 H]].
  apply rmatch_chr_inv in R1. destruct R1 as [M1 _].
  apply rmatch_chr_inv in R2. destruct R2 as [M2 _].
  apply rmatch_chr_inv in R3. destruct R3 as [M3 _].
  pose proof (moved_remaining M1) as L1. pose proof (moved_remaining M2) as L2.
  pose proof (moved_remaining M3) as L3. simpl in L1, L2, L3.
  change (m (Star (Chr nl)) (accept adv (clear st)) s3)
    with (star_loop (m (Cls (fun x => chr_eqb x nl))) (accept adv (clear st))
            (S (remaining s3)) s3) in H.
  apply (star_cls_greedy (fun x => chr_eqb x nl)) in H.
  - destruct (after st') as [|b r]; [reflexivity|]. simpl. rewrite H. reflexivity.
  - intros s Hs. unfold accept.
    destruct (Nat.eqb_spec (remaining s) (remaining (clear st))) as [Heq|_]; [lia|].
    rewrite andb_false_r. reflexivity.
  - lia.
Qed.

Lemma blank_lines_match_shape adv st st' :
  match_here blank_lines_re adv st = Some st' ->
  exists rest, after st = nl :: nl :: nl :: rest.
Proof.
  intros H. apply match_here_sound in H. destruct H as [H _].
  unfold blank_lines_re, AtLeast3 in H.
  apply rmatch_seq_inv in H. destruct H as [s1 [R1 H]].
  apply rmatch_seq_inv in H. destruct H as [s2 [R2 H]].
  apply rmatch_seq_inv in H. destruct H as [s3 [R3 _]].
  apply rmatch_chr_inv in R1. destruct R1 as [[A1 _] _].
  apply rmatch_chr_inv in R2. destruct R2 as [[A2 _] _].
  apply rmatch_chr_inv in R3. destruct R3 as [[A3 _] _].
  exists (after s3). simpl in A1. rewrite A1. simpl. rewrite A2. simpl.
  rewrite A3. reflexivity.
Qed.

Lemma blank_lines_matches adv st rest :
  after st = nl :: nl :: nl :: rest ->
  exists y, match_here blank_lines_re adv st = Some y.
Proof.
  intros E.
  apply (match_here_complete blank_lines_re st
           (jump [nl] (jump [nl] (jump [nl] (clear st))))).
  - unfold blank_lines_re, AtLeast3.
    eapply M_Seq; [apply (rmatch_chr_intro nl (clear st) (nl :: nl :: rest)); exact E|].
    eapply M_Seq; [apply (rmatch_chr_intro nl _ (nl :: rest)); simpl; rewrite E; reflexivity|].
    eapply M_Seq; [apply (rmatch_chr_intro nl _ rest); simpl; rewrite E; reflexivity|].
    apply M_StarDone.
  - unfold remaining. simpl. rewrite E. simpl. lia.
Qed.

Lemma no_blank_match_short adv st :
  match_here blank_lines_re adv st = None ->
  (leading_newlines (after st) <= 2)%nat.
Proof.
  intros H. destruct (after st) as [|a [|b [|c rest]]] eqn:E; simpl;
    repeat match goal with |- context [chr_eqb ?x nl] =>
             destruct (chr_eqb x nl) eqn:? end; try lia.
  repeat match goal with E' : chr_eqb _ nl = true |- _ =>
           apply N.eqb_eq in E'; subst end.
  destruct (blank_lines_matches adv st rest E) as [y Hy]. congruence.
Qed.

Lemma sub_loop_blank_runs : forall fuel (adv : bool) st,
  (2 * remaining st + (if adv then 1 else 2) <= fuel)%nat ->
  blank_runs_short (sub_loop blank_lines_re (fun _ _ => [nl; nl]) fuel adv st)
  /\ (leading_newlines (sub_loop blank_lines_re (fun _ _ => [nl; nl]) fuel adv st)
      <= Nat.min 2 (leading_newlines (after st)))%nat.
Proof.
  induction fuel as [|f IH]; intros adv st Hf; [destruct adv; lia|].
  cbn [sub_loop]. destruct (match_here blank_lines_re adv st) as [st'|] eqn:E.
  - destruct (match_here_moved E) as [w Hw].
    pose proof (moved_remaining Hw) as Hr.
    destruct (IH (Nat.eqb (remaining st') (remaining st)) st') as [A B].
    { destruct (Nat.eqb_spec (remaining st') (remaining st)).
      - destruct adv; [|lia].
        apply match_here_sound in E. destruct E as [_ E]. exfalso. now apply E.
      - destruct adv; lia. }
    rewrite (blank_lines_greedy adv st st' E) in B.
    destruct (blank_lines_match_shape adv st st' E) as [rest Ea].
    set (out := sub_loop blank_lines_re (fun _ _ => [nl; nl]) f
                  (Nat.eqb (remaining st') (remaining st)) st') in *.
    change ([nl; nl] ++ out) with (nl :: nl :: out).
    rewrite Ea. rewrite !leading_newlines_nl.
    split; [|lia].
    cbn [blank_runs_short]. rewrite !leading_newlines_nl.
    split; [lia|]. split; [lia|exact A].
  - destruct (after st) as [|c rest] eqn:Ea; [split; [exact I|simpl; lia]|].
    pose proof (no_blank_match_short adv st E) as Hshort. rewrite Ea in Hshort.
    destruct (IH false (step c rest st)) as [A B].
    { unfold remaining in *. rewrite Ea in Hf. simpl in *. destruct adv; lia. }
    simpl after in B.
    set (out := sub_loop blank_lines_re (fun _ _ => [nl; nl]) f false (step c rest st)) in *.
    destruct (N.eq_dec c nl) as [->|Hc].
    + rewrite leading_newlines_nl in Hshort |- *.
      split; [|rewrite leading_newlines_nl; lia].
      cbn [blank_runs_short]. rewrite leading_newlines_nl. split; [lia|exact A].
    + rewrite (leading_newlines_other c out Hc).
      split; [|lia].
      cbn [blank_runs_short]. rewrite (leading_newlines_other c out Hc).
      split; [lia|exact A].
Qed.

Lemma collapse_blank_lines_short t : blank_runs_short (collapse_blank_lines t).
Proof.
  unfold collapse_blank_lines, re_sub. apply sub_loop_blank_runs.
  unfold remaining. simpl. lia.
Qed.

(** Both modes, whatever the input: the result never has three newlines
    in a row, and no whitespace at either end. *)
Theorem clean_output_blank_lines (text : str) (for_jupyter : bool) :
  blank_runs_short (clean_wikipedia_text text for_jupyter)
  /\ strip (clean_wikipedia_text text for_jupyter)
     = clean_wikipedia_text text for_jupyter.
Proof.
  unfold clean_wikipedia_text. split; [|apply strip_idempotent].
  apply strip_blank_runs_short. apply collapse_blank_lines_short.
Qed.

(* ===================================================================== *)
(** * The fetch functions on their other paths                            *)
(* ===================================================================== *)

(** [wiki_fetch] when the page loads: the header of the target format,
    then the cleaned summary.  The summary is asked for by title and
    sentence count when [sentences] is positive, and read off the page
    otherwise (also for a negative count). *)
Theorem wiki_fetch_success (W : wikipedia) (is_jupyter : bool)
    (query : str) (sentences : Z) (first : str) (rest : list str)
    (pg : page_t) (content : str) :
  search W query = Ok (first :: rest) ->
  load_page W first = Ok pg ->
  (if (sentences >? 0)%Z then summary W (title pg) sentences
   else page_summary pg) = Ok content ->
  wiki_fetch W is_jupyter query sentences
  = Ok ((if is_jupyter then u "## " ++ title pg ++ [nl; nl]
         else u "=== " ++ title pg ++ u " ===" ++ [nl; nl])
        ++ clean_wikipedia_text content is_jupyter)
  /\ strip (clean_wikipedia_text content is_jupyter)
     = clean_wikipedia_text content is_jupyter.
Proof.
  intros Hs Hp Hc. split.
  - unfold wiki_fetch, wiki_fetch_try. rewrite Hs. cbn [bind].
    rewrite Hp. cbn [bind]. rewrite Hc. cbn [bind]. reflexivity.
  - unfold clean_wikipedia_text. apply strip_idempotent.
Qed.

Lemma wiki_fetch_success_witness :
  wiki_fetch ambiguous false (u "Rank") 0
  = Ok (u "=== Rank ===" ++ [nl; nl] ++ u "The rank of M.")
  /\ wiki_fetch ambiguous true (u "Rank") 2
     = Ok (u "## Rank" ++ [nl; nl] ++ u "Short.").
Proof.
  split.
  - rewrite (proj1 (wiki_fetch_success ambiguous false (u "Rank") 0 (u "Rank") []
                     sample_page (u "The rank  of M.")
                     ltac:(vm_compute; reflexivity) ltac:(vm_compute; reflexivity)
                     ltac:(vm_compute; reflexivity))).
    vm_compute. reflexivity.
  - rewrite (proj1 (wiki_fetch_success ambiguous true (u "Rank") 2 (u "Rank") []
                     sample_page (u "Short.")
                     ltac:(vm_compute; reflexivity) ltac:(vm_compute; reflexivity)
                     ltac:(vm_compute; reflexivity))).
    vm_compute. reflexivity.
Defined.

(** [wiki_fetch] on an ambiguous title: the first option is tried, once.
    No option at all gives the text of the index error; a first option
    without page gives the "not found" message; a first option that is
    ambiguous again is not followed; a first option that loads is the
    page used, the other options never being looked at. *)
Theorem wiki_fetch_disambiguation (W : wikipedia) (is_jupyter : bool)
    (query : str) (sentences : Z) (first : str) (rest : list str)
    (options : list str) (msg : str) :
  search W query = Ok (first :: rest) ->
  page W first = Raise (DisambiguationError options msg) ->
  (options = [] ->
   wiki_fetch W is_jupyter query sentences
   = Ok (u "Error fetching Wikipedia content: " ++ u "list index out of range"))
  /\ (forall o os msg',
        options = o :: os -> page W o = Raise (PageError msg') ->
        wiki_fetch W is_jupyter query sentences
        = Ok (u "Wikipedia page not found for: " ++ query))
  /\ (forall o os options' msg',
        options = o :: os ->
        page W o = Raise (DisambiguationError options' msg') ->
        wiki_fetch W is_jupyter query sentences
        = Ok (u "Error fetching Wikipedia content: " ++ msg'))
  /\ (forall o os pg, options = o :: os -> page W o = Ok pg ->
        load_page W first = Ok pg).
Proof.
  intros Hs Hp. unfold wiki_fetch, wiki_fetch_try, load_page.
  rewrite Hs. cbn [bind]. rewrite Hp.
  split; [|split; [|split]].
  - intros ->. reflexivity.
  - intros o os msg' -> Ho. rewrite Ho. reflexivity.
  - intros o os options' msg' -> Ho. rewrite Ho. reflexivity.
  - intros o os pg -> Ho. exact Ho.
Qed.

Lemma wiki_fetch_disambiguation_witness :
  wiki_fetch no_options true (u "Rank (disambiguation)") 0
  = Ok (u "Error fetching Wikipedia content: " ++ u "list index out of range")
  /\ load_page ambiguous (u "Rank (disambiguation)") = Ok sample_page.
Proof.
  split.
  - apply (proj1 (wiki_fetch_disambiguation no_options true
                    (u "Rank (disambiguation)") 0 (u "Rank (disambiguation)") []
                    [] (u "may refer to")
                    ltac:(vm_compute; reflexivity) ltac:(vm_compute; reflexivity))).
    reflexivity.
  - apply (proj2 (proj2 (proj2 (wiki_fetch_disambiguation ambiguous true
                    (u "Rank (disambiguation)") 0 (u "Rank (disambiguation)") []
                    [u "Rank"; u "Rang"] (u "may refer to")
                    ltac:(vm_compute; reflexivity) ltac:(vm_compute; reflexivity))))
             (u "Rank") [u "Rang"] sample_page);
      [reflexivity|vm_compute; reflexivity].
Defined.

(** [wiki_content] never raises either, but it has one [except] clause
    only: a missing page gives the general error message with the text
    of the exception, where [wiki_fetch] gives its "not found" message.
    When the page loads the result is the header of the target format
    ([# title] or the title between two rules of 60 equal signs) and the
    cleaned full content. *)
Theorem wiki_content_paths (W : wikipedia) (is_jupyter : bool) (query : str) :
  (exists s, wiki_content W is_jupyter query = Ok s)
  /\ (search W query = Ok [] ->
      wiki_content W is_jupyter query
      = Ok (u "No Wikipedia results found for: " ++ query))
  /\ (forall first rest msg,
        search W query = Ok (first :: rest) ->
        page W first = Raise (PageError msg) ->
        wiki_content W is_jupyter query
        = Ok (u "Error fetching Wikipedia content: " ++ msg)
        /\ forall sentences,
             wiki_fetch W is_jupyter query sentences
             = Ok (u "Wikipedia page not found for: " ++ query))
  /\ (forall first rest pg content,
        search W query = Ok (first :: rest) ->
        load_page W first = Ok pg -> page_content pg = Ok content ->
        wiki_content W is_jupyter query
        = Ok ((if is_jupyter then u "# " ++ title pg ++ [nl; nl]
               else repeat (ch "=") 60 ++ [nl] ++ title pg ++ [nl]
                      ++ repeat (ch "=") 60 ++ [nl; nl])
              ++ clean_wikipedia_text content is_jupyter)).
Proof.
  split; [|split; [|split]].
  - unfold wiki_content. destruct (wiki_content_try W is_jupyter query); eauto.
  - intros Hs. unfold wiki_content, wiki_content_try. rewrite Hs. reflexivity.
  - intros first rest msg Hs Hp. split.
    + unfold wiki_content, wiki_content_try, load_page.
      rewrite Hs. cbn [bind]. rewrite Hp. reflexivity.
    + intros sentences. unfold wiki_fetch, wiki_fetch_try, load_page.
      rewrite Hs. cbn [bind]. rewrite Hp. reflexivity.
  - intros first rest pg content Hs Hp Hc.
    unfold wiki_content, wiki_content_try. rewrite Hs. cbn [bind].
    rewrite Hp. cbn [bind]. rewrite Hc. reflexivity.
Qed.

Lemma wiki_content_paths_witness :
  wiki_content no_results true (u "zzz")
  = Ok (u "No Wikipedia results found for: " ++ u "zzz")
  /\ wiki_content missing_page false (u "zzz")
     = Ok (u "Error fetching Wikipedia content: " ++ u "missing")
  /\ wiki_content ambiguous true (u "Rank")
     = Ok (u "# Rank" ++ [nl; nl] ++ u "Rank" ++ [nl; nl] ++ u "Full text.").
Proof.
  split; [|split].
  - apply (proj1 (proj2 (wiki_content_paths no_results true (u "zzz")))).
    reflexivity.
  - apply (proj1 (proj1 (proj2 (proj2 (wiki_content_paths missing_page false (u "zzz"))))
                    (u "zzz") [] (u "missing") eq_refl eq_refl)).
  - rewrite (proj2 (proj2 (proj2 (wiki_content_paths ambiguous true (u "Rank"))))
               (u "Rank") [] sample_page
               (u "Rank" ++ [nl; nl; nl; nl] ++ u "Full text.")
               ltac:(vm_compute; reflexivity) ltac:(vm_compute; reflexivity)
               ltac:(vm_compute; reflexivity)).
    vm_compute. reflexivity.
Defined.

(* ===================================================================== *)
(** * The inline wrapper on unrelated text                                *)
(* ===================================================================== *)

(** [convert_inline_latex_fragments] returns a text with no backslash
    and no dollar sign unchanged. *)
Theorem inline_wrapper_passes_through (text : str) :
  ~ In (ch "\") text -> ~ In (ch "$") text ->
  convert_inline_latex_fragments text = text.
Proof.
  intros Hb Hd. unfold convert_inline_latex_fragments, inline_patterns.
  cbv zeta. cbn [fold_left].
  rewrite (re_sub_absent (ch "\") (wrapped_command_re "mathbf") _ text eq_refl Hb).
  rewrite (re_sub_absent (ch "\") (wrapped_command_re "mathit") _ text eq_refl Hb).
  rewrite (re_sub_absent (ch "\") (wrapped_command_re "mathrm") _ text eq_refl Hb).
  rewrite (re_sub_absent (ch "\") any_command_re _ text eq_refl Hb).
  rewrite (re_sub_absent (ch "$") double_dollar_re _ text eq_refl Hd).
  apply (re_sub_absent (ch "$") adjacent_dollar_re _ text eq_refl Hd).
Qed.

Lemma inline_wrapper_passes_through_witness :
  convert_inline_latex_fragments (u "the map x -> {x}") = u "the map x -> {x}".
Proof.
  apply (inline_wrapper_passes_through (u "the map x -> {x}")); absent.
Defined.

(* ===================================================================== *)
(** * Captured groups are pieces of the subject                           *)
(* ===================================================================== *)

Lemma rmatch_caps_Forall (P : char -> Prop) r st st' :
  rmatch r st st' -> Forall P (after st) ->
  (forall n g, lookup n (caps st) = Some g -> Forall P g) ->
  Forall P (after st')
  /\ (forall n g, lookup n (caps st') = Some g -> Forall P g).
Proof.
  intros H. induction H; intros Ha Hc; try (split; assumption).
  - split; [|exact Hc]. rewrite H in Ha. simpl. exact (Forall_inv_tail Ha).
  - split; [|exact Hc]. rewrite H in Ha. simpl. exact (Forall_inv_tail Ha).
  - destruct (IHrmatch1 Ha Hc) as [Ha1 Hc1]. exact (IHrmatch2 Ha1 Hc1).
  - exact (IHrmatch Ha Hc).
  - exact (IHrmatch Ha Hc).
  - destruct (IHrmatch1 Ha Hc) as [Ha1 Hc1]. exact (IHrmatch2 Ha1 Hc1).
  - exact (IHrmatch Ha Hc).
  - destruct (IHrmatch Ha Hc) as [Ha1 Hc1]. split; [exact Ha1|].
    intros n' g. simpl. destruct (Nat.eqb n n').
    + intros E. inversion E; subst g.
      destruct (rmatch_moved _ _ _ H) as [w Mw].
      rewrite (moved_between Mw). destruct Mw as [A _]. rewrite A in Ha.
      apply Forall_app in Ha. tauto.
    + apply Hc1.
  - apply eat_moved in H0. destruct H0 as [[A _] C]. split.
    + rewrite A in Ha. apply Forall_app in Ha. tauto.
    + rewrite C. exact Hc.
Qed.

(** A substitution keeps a property of characters that the subject has
    and that every replacement has whenever the matched text and the
    groups have it. *)
Lemma re_sub_keeps (P : char -> Prop) r repl text :
  Forall P text ->
  (forall st st', Forall P (group0 st st') ->
                  (forall n, Forall P (group n st')) ->
                  Forall P (repl st st')) ->
  Forall P (re_sub r repl text).
Proof.
  intros Ht Hr. apply re_sub_Forall.
  - intros adv st st' Hs E. apply match_here_sound in E. destruct E as [E _].
    assert (Ha : Forall P (after (clear st))).
    { simpl. apply subject_after_Forall. rewrite Hs. exact Ht. }
    apply Hr.
    + destruct (rmatch_moved _ _ _ E) as [w Mw]. unfold group0.
      rewrite (moved_between Mw). destruct Mw as [A _]. rewrite A in Ha.
      apply Forall_app in Ha. tauto.
    + intros n. unfold group. destruct (lookup n (caps st')) as [g|] eqn:El;
        [|constructor].
      destruct (rmatch_caps_Forall P r (clear st) st' E Ha) as [_ Hc].
      * intros n' g' Hl. simpl in Hl. discriminate.
      * exact (Hc n g El).
  - intros adv st c rest Hs Ha _. rewrite Forall_forall in Ht. apply Ht.
    rewrite <- Hs. apply subject_after_incl. rewrite Ha. left. reflexivity.
Qed.

(* ===================================================================== *)
(** * The word joiner never comes back                                    *)
(* ===================================================================== *)

Lemma Forall_other (x : char) (l : str) :
  forallb (fun c => negb (chr_eqb c x)) l = true -> Forall (fun c => c <> x) l.
Proof.
  intros H. apply Forall_forall. intros c Hc E. subst c.
  rewrite forallb_forall in H. specialize (H x Hc).
  unfold chr_eqb in H. rewrite N.eqb_refl in H. discriminate.
Qed.

(** A given text does not hold a given character. *)
Ltac other := apply Forall_other; vm_compute; reflexivity.

Lemma format_math_keeps content : Forall joiner_free content -> Forall joiner_free (format_math content).
Proof.
  intros H. unfold format_math. cbv zeta.
  apply Forall_app. split; [other|]. apply Forall_app. split; [|other].
  apply strip_Forall. unfold whitespace_run.
  apply re_sub_preserves; [|intros; other].
  apply re_sub_preserves; [|intros; other].
  apply re_sub_preserves; [|intros; other].
  apply strip_Forall. exact H.
Qed.

Lemma convert_displaystyle_keeps t :
  Forall joiner_free t -> Forall joiner_free (convert_displaystyle_latex t).
Proof.
  intros H. unfold convert_displaystyle_latex. apply re_sub_keeps; [exact H|].
  intros st st' _ Hg. unfold replace_displaystyle. apply format_math_keeps, Hg.
Qed.

Lemma wrap_latex_keeps r t : Forall joiner_free t -> Forall joiner_free (re_sub r wrap_latex t).
Proof.
  intros H. apply re_sub_keeps; [exact H|].
  intros st st' H0 _. unfold wrap_latex. cbv zeta.
  apply Forall_app. split; [other|]. apply Forall_app. split; [exact H0|other].
Qed.

Lemma convert_inline_keeps t :
  Forall joiner_free t -> Forall joiner_free (convert_inline_latex_fragments t).
Proof.
  intros H. unfold convert_inline_latex_fragments, inline_patterns.
  cbv zeta. cbn [fold_left].
  apply re_sub_preserves; [|intros; other].
  apply re_sub_keeps.
  - do 4 apply wrap_latex_keeps. exact H.
  - intros st st' _ Hg.
    apply Forall_app. split; [other|]. apply Forall_app. split; [apply Hg|other].
Qed.

Lemma apply_unicode_keeps t : Forall joiner_free t -> Forall joiner_free (apply_unicode_to_latex t).
Proof.
  unfold apply_unicode_to_latex.
  assert (F : Forall (fun kv : string * string => Forall joiner_free (u (snd kv)))
                     unicode_to_latex)
    by (repeat (apply Forall_cons; [other|]); apply Forall_nil).
  revert t. induction F as [|kv table Hkv _ IH]; intros t H; [exact H|].
  simpl. apply IH. apply replace_Forall; assumption.
Qed.

Lemma apply_latex_keeps t : Forall joiner_free t -> Forall joiner_free (apply_latex_to_unicode t).
Proof.
  unfold apply_latex_to_unicode.
  assert (F : Forall (fun kv : string * string => Forall joiner_free (u (snd kv)))
                     latex_to_unicode)
    by (repeat (apply Forall_cons; [other|]); apply Forall_nil).
  revert t. induction F as [|kv table Hkv _ IH]; intros t H; [exact H|].
  simpl. apply IH. apply re_sub_preserves; [exact H|]. intros. exact Hkv.
Qed.

Lemma unwrap_keeps name t : Forall joiner_free t -> Forall joiner_free (unwrap name t).
Proof.
  intros H. unfold unwrap. apply re_sub_keeps; [exact H|].
  intros st st' _ Hg. apply Hg.
Qed.

Lemma braced_script_keeps c t :
  Forall joiner_free (u c) ->
  Forall joiner_free t ->
  Forall joiner_free (re_sub (braced_script_re c) (fun _ st' => u c ++ group 1 st') t).
Proof.
  intros Hc H. apply re_sub_keeps; [exact H|].
  intros st st' _ Hg. apply Forall_app. split; [exact Hc|apply Hg].
Qed.

Lemma plain_branch_keeps t : Forall joiner_free t -> Forall joiner_free (plain_branch t).
Proof.
  intros H. cbv beta zeta delta [plain_branch].
  unfold collapse_blank_lines, collapse_whitespace.
  apply re_sub_preserves; [|intros; other].
  apply re_sub_preserves; [|intros; other].
  apply re_sub_preserves; [|intros; constructor].
  apply re_sub_preserves; [|intros; constructor].
  apply braced_script_keeps; [other|].
  apply braced_script_keeps; [other|].
  apply re_sub_preserves; [|intros; other].
  apply apply_latex_keeps.
  do 4 apply unwrap_keeps.
  apply re_sub_preserves; [exact H|intros; constructor].
Qed.

Lemma jupyter_branch_keeps t : Forall joiner_free t -> Forall joiner_free (jupyter_branch t).
Proof.
  intros H. unfold jupyter_branch. cbv zeta.
  apply apply_unicode_keeps, convert_inline_keeps, convert_displaystyle_keeps, H.
Qed.

Lemma dedup_steps_clear text : Forall joiner_free (dedup_steps text).
Proof.
  unfold dedup_steps. cbv zeta. unfold dedup_class, dedup_backref.
  apply re_sub_keeps.
  - apply re_sub_keeps.
    + apply Forall_not_In. apply replace_removes. intros [].
    + intros st st' _ Hg.
      apply Forall_app. split; [other|]. apply Forall_app. split; [apply Hg|other].
  - intros st st' H0 Hg. unfold dedup_class_repl.
    destruct (Nat.leb (List.length (strip (group 1 st'))) 20); [|exact H0].
    apply Forall_app. split; [other|]. apply Forall_app.
    split; [apply strip_Forall, Hg|other].
Qed.

Lemma clean_keeps_word_joiner_out text for_jupyter :
  Forall joiner_free (clean_wikipedia_text text for_jupyter).
Proof.
  unfold clean_wikipedia_text. cbv zeta. apply strip_Forall.
  unfold collapse_blank_lines. apply re_sub_preserves; [|intros; other].
  destruct for_jupyter.
  - apply jupyter_branch_keeps, dedup_steps_clear.
  - apply plain_branch_keeps, dedup_steps_clear.
Qed.


(** Both modes, whatever the input: the word joiner U+2060 is not in the
    result.  Step 2 removes it, and no later substitution writes it:
    the replacements are made of fixed text and of pieces of the
    subject. *)
Theorem clean_output_has_no_word_joiner (text : str) (for_jupyter : bool) :
  ~ In word_joiner (clean_wikipedia_text text for_jupyter).
Proof.
  apply Forall_not_In. exact (clean_keeps_word_joiner_out text for_jupyter).
Qed.

(* ===================================================================== *)
(** * The inline wrapper on a lone command                                *)
(* ===================================================================== *)

(** When the rest of the match accepts the end of the longest run, the
    greedy repetition stops there. *)
Lemma star_cls_first (p : char -> bool) (k : cont) (rest : str) x :
  match rest with [] => True | b :: _ => p b = false end ->
  forall w n st,
    after st = w ++ rest -> Forall (fun c => p c = true) w ->
    (remaining st < n)%nat -> k (jump w st) = Some x ->
    star_loop (m (Cls p)) k n st = Some x.
Proof.
  intros Hrest. induction w as [|c w IH]; intros n st E F Hn Hk.
  - destruct n as [|n]; [lia|]. rewrite star_loop_cls_unfold.
    rewrite jump_nil in Hk. simpl in E. rewrite E.
    destruct rest as [|b r]; [exact Hk|]. rewrite Hrest. exact Hk.
  - destruct n as [|n]; [lia|]. rewrite star_loop_cls_unfold.
    change (after st = c :: (w ++ rest)) in E. rewrite E.
    rewrite (Forall_inv F).
    assert (Hlt : (remaining (step c (w ++ rest) st) < remaining st)%nat)
      by (unfold remaining; simpl; rewrite E; simpl; lia).
    pose proof Hlt as Hlt'. apply Nat.ltb_lt in Hlt'. rewrite Hlt'.
    rewrite (jump_cons w E) in Hk.
    rewrite (IH n (step c (w ++ rest) st) eq_refl (Forall_inv_tail F) ltac:(lia) Hk).
    reflexivity.
Qed.

Lemma letter_not (x : char) (name : str) :
  letter x = false -> Forall (fun c => letter c = true) name -> ~ In x name.
Proof.
  intros Hx F Hin. rewrite Forall_forall in F. specialize (F x Hin). congruence.
Qed.

(** The pattern for any command takes a lone command as a whole. *)
Lemma lone_command_match (name : str) :
  name <> [] -> Forall (fun c => letter c = true) name ->
  exists y, match_here any_command_re false (start_of (u "\" ++ name)) = Some y
            /\ after y = [].
Proof.
  intros Hne F. destruct name as [|c w]; [contradiction|].
  set (s0 := start_of (u "\" ++ c :: w)).
  set (s1 := step (ch "\") (c :: w) s0).
  set (s2 := step c w s1).
  exists (jump w s2). split.
  - unfold match_here, any_command_re, Plus, Opt.
    change (clear s0) with s0.
    change (m (NotBehind is_dollar ~> Chr (ch "\") ~> (Cls letter ~> Star (Cls letter))
               ~> Alt (Chr lbrace ~> Star (Cls not_rbrace) ~> Chr rbrace) Eps
               ~> NotAhead is_dollar) (accept false s0) s0)
      with (if letter c
            then star_loop (m (Cls letter))
                   (fun s => m (Alt (Chr lbrace ~> Star (Cls not_rbrace) ~> Chr rbrace) Eps
                                ~> NotAhead is_dollar) (accept false s0) s)
                   (S (remaining s2)) s2
            else None).
    rewrite (Forall_inv F).
    apply (star_cls_first letter _ [] (jump w s2) I w);
      [simpl; rewrite app_nil_r; reflexivity|exact (Forall_inv_tail F)|lia|].
    assert (Ea : after (jump w s2) = [])
      by (apply jump_after; simpl; rewrite app_nil_r; reflexivity).
    cbn [m]. rewrite Ea. reflexivity.
  - apply jump_after. simpl. rewrite app_nil_r. reflexivity.
Qed.

Lemma inner_member (pre post name : str) (a b z : char) :
  pre ++ a :: b :: post = name ++ [z] -> In a name.
Proof.
  revert name. induction pre as [|p pre IH]; intros name E.
  - destruct name as [|n name]; simpl in E.
    + discriminate.
    + inversion E. left. reflexivity.
  - destruct name as [|n name]; simpl in E.
    + injection E as _ E'. destruct pre; discriminate.
    + injection E as _ E'. right. exact (IH name E').
Qed.

(** In [$\name$] the one dollar sign that is followed by something is
    followed by the backslash. *)
Lemma dollar_is_followed_by_backslash (pre post name : str) (x : char) :
  Forall (fun c => letter c = true) name ->
  pre ++ ch "$" :: x :: post = u "$" ++ u "\" ++ name ++ u "$" ->
  x = ch "\".
Proof.
  intros F E. destruct pre as [|p pre]; simpl in E.
  - inversion E. reflexivity.
  - injection E as _ E1. destruct pre as [|q pre]; simpl in E1.
    + discriminate.
    + injection E1 as _ E2. apply inner_member in E2.
      exfalso. revert E2. apply letter_not; [reflexivity|exact F].
Qed.

Lemma backslash_is_second (pre rest name : str) :
  Forall (fun c => letter c = true) name ->
  pre ++ ch "\" :: rest = u "$" ++ u "\" ++ name ++ u "$" ->
  pre = [ch "$"].
Proof.
  intros F E. destruct pre as [|p pre]; simpl in E.
  - discriminate.
  - injection E as Ep E1. destruct pre as [|q pre]; [subst p; reflexivity|].
    simpl in E1. injection E1 as _ E2. exfalso.
    assert (Hin : In (ch "\") (pre ++ ch "\" :: rest))
      by (apply in_or_app; right; left; reflexivity).
    rewrite E2 in Hin.
    apply in_app_or in Hin. destruct Hin as [Hin|Hin].
    + revert Hin. apply letter_not; [reflexivity|exact F].
    + destruct Hin as [Hin|[]]. discriminate.
Qed.

(** The two clean-up patterns find nothing in [$\name$]. *)
Lemma wrapped_command_stable_dollars (name : str) :
  Forall (fun c => letter c = true) name ->
  re_sub adjacent_dollar_re (fun _ _ => u " ")
    (re_sub double_dollar_re (fun _ st' => u "$" ++ group 1 st' ++ u "$")
       (u "$" ++ u "\" ++ name ++ u "$"))
  = u "$" ++ u "\" ++ name ++ u "$".
Proof.
  intros F.
  rewrite (re_sub_no_match double_dollar_re).
  - apply re_sub_no_match. intros st st' Hs H.
    unfold adjacent_dollar_re in H.
    apply rmatch_seq_inv in H. destruct H as [s1 [H1 H]].
    apply rmatch_seq_inv in H. destruct H as [s2 [H2 H3]].
    apply rmatch_chr_inv in H1. destruct H1 as [[A1 _] _].
    apply rmatch_star_cls_inv in H2. destruct H2 as [ws [[A2 _] [Fw _]]].
    apply rmatch_chr_inv in H3. destruct H3 as [[A3 _] _].
    unfold subject in Hs. simpl in A1. rewrite A1, A2, A3 in Hs.
    destruct ws as [|c ws].
    + apply (dollar_is_followed_by_backslash _ _ name _ F) in Hs. discriminate.
    + apply (dollar_is_followed_by_backslash _ _ name _ F) in Hs.
      pose proof (Forall_inv Fw) as Hc. simpl in Hc. subst c. discriminate.
  - intros st st' Hs H. unfold double_dollar_re in H.
    apply rmatch_seq_inv in H. destruct H as [s1 [H1 _]].
    apply rmatch_lit_inv in H1. destruct H1 as [[A1 _] _].
    unfold subject in Hs. simpl in A1. rewrite A1 in Hs.
    apply (dollar_is_followed_by_backslash _ _ name _ F) in Hs. discriminate.
Qed.

Lemma no_lbrace_in_command (pre post name : str) :
  ~ In lbrace pre -> ~ In lbrace post ->
  Forall (fun c => letter c = true) name ->
  ~ In lbrace (pre ++ u "\" ++ name ++ post).
Proof.
  intros H1 H2 F Hin. apply in_app_or in Hin. destruct Hin as [Hin|Hin]; [auto|].
  apply in_app_or in Hin. destruct Hin as [Hin|Hin].
  - destruct Hin as [Hin|[]]. discriminate.
  - apply in_app_or in Hin. destruct Hin as [Hin|Hin]; [|auto].
    revert Hin. apply letter_not; [reflexivity|exact F].
Qed.

(** A lone command [\name] is wrapped in dollar signs, and the wrapped
    command [$\name$] is left as it is: the wrapper applied twice to a
    lone command gives what it gives applied once. *)
Theorem lone_command_wrapped_once (name : str) :
  name <> [] -> Forall (fun c => letter c = true) name ->
  convert_inline_latex_fragments (u "\" ++ name) = u "$" ++ u "\" ++ name ++ u "$"
  /\ convert_inline_latex_fragments (u "$" ++ u "\" ++ name ++ u "$")
     = u "$" ++ u "\" ++ name ++ u "$".
Proof.
  intros Hne F. split.
  - assert (Hl : ~ In lbrace (u "\" ++ name)).
    { pose proof (no_lbrace_in_command [] [] name
                    ltac:(intros []) ltac:(intros []) F) as H.
      rewrite app_nil_r in H. exact H. }
    unfold convert_inline_latex_fragments, inline_patterns.
    cbv zeta. cbn [fold_left].
    rewrite (re_sub_absent lbrace (wrapped_command_re "mathbf") _ _ eq_refl Hl).
    rewrite (re_sub_absent lbrace (wrapped_command_re "mathit") _ _ eq_refl Hl).
    rewrite (re_sub_absent lbrace (wrapped_command_re "mathrm") _ _ eq_refl Hl).
    destruct (lone_command_match name Hne F) as [y [Hm Ha]].
    rewrite (re_sub_whole (ch "\") any_command_re wrap_latex _ y eq_refl Hm Ha).
    unfold wrap_latex. cbv zeta. rewrite (whole_match_text _ _ y Hm Ha).
    exact (wrapped_command_stable_dollars name F).
  - assert (Hl : ~ In lbrace (u "$" ++ u "\" ++ name ++ u "$")).
    { apply (no_lbrace_in_command (u "$") (u "$") name); [absent|absent|exact F]. }
    unfold convert_inline_latex_fragments, inline_patterns.
    cbv zeta. cbn [fold_left].
    rewrite (re_sub_absent lbrace (wrapped_command_re "mathbf") _ _ eq_refl Hl).
    rewrite (re_sub_absent lbrace (wrapped_command_re "mathit") _ _ eq_refl Hl).
    rewrite (re_sub_absent lbrace (wrapped_command_re "mathrm") _ _ eq_refl Hl).
    rewrite (re_sub_no_match any_command_re).
    + exact (wrapped_command_stable_dollars name F).
    + intros st st' Hs H. unfold any_command_re in H.
      apply rmatch_seq_inv in H. destruct H as [s1 [H1 H]].
      apply rmatch_seq_inv in H. destruct H as [s2 [H2 _]].
      inversion H1 as [| | | | | | | | | | | | | |p s Hb|]; subst.
      apply rmatch_chr_inv in H2. destruct H2 as [[A2 _] _].
      unfold subject in Hs. simpl in A2, Hb. rewrite A2 in Hs.
      apply (backslash_is_second _ _ name F) in Hs.
      assert (Eb : before st = [ch "$"]).
      { rewrite <- (rev_involutive (before st)), Hs. reflexivity. }
      specialize (Hb (ch "$") [] Eb). discriminate.
Qed.

Lemma lone_command_wrapped_once_witness :
  convert_inline_latex_fragments (u "\" ++ u "alpha") = u "$" ++ u "\" ++ u "alpha" ++ u "$"
  /\ convert_inline_latex_fragments (u "$" ++ u "\" ++ u "alpha" ++ u "$")
     = u "$" ++ u "\" ++ u "alpha" ++ u "$".
Proof.
  apply (lone_command_wrapped_once (u "alpha")); [nonempty|all_true].
Defined.

(* ===================================================================== *)
(** * Step 6 replaces every glyph, wherever it stands                     *)
(* ===================================================================== *)

Lemma apply_table_absent (table : list (string * string)) t :
  Forall (fun kv : string * string => ~ In (ch (fst kv)) t) table ->
  fold_left (fun t kv => replace (ch (fst kv)) (u (snd kv)) t) table t = t.
Proof.
  induction 1 as [|kv table Hkv _ IH]; simpl; [reflexivity|].
  rewrite (replace_absent _ _ _ Hkv). exact IH.
Qed.

(** One case of the table: the character is the glyph [k], or it is
    not. *)
Ltac glyph_case k :=
  match goal with
  | |- apply_unicode_to_latex [?c] = _ =>
      let E := fresh "E" in
      destruct (chr_eqb c (ch k)) eqn:E;
      [apply N.eqb_eq in E; rewrite E; vm_compute; reflexivity
      |apply N.eqb_neq in E; vm_compute in E]
  end.

(** The loop over the dictionary, on one character, gives the command
    of that character: no command contains a glyph that a later round of
    the loop would replace. *)
Lemma apply_unicode_single (c : char) : apply_unicode_to_latex [c] = latex_of c.
Proof.
  unfold latex_of.
  glyph_case "×"%string. glyph_case "÷"%string. glyph_case "±"%string.
  glyph_case "≤"%string. glyph_case "≥"%string. glyph_case "≠"%string.
  glyph_case "≈"%string. glyph_case "∈"%string. glyph_case "∉"%string.
  glyph_case "⊂"%string. glyph_case "⊃"%string. glyph_case "∪"%string.
  glyph_case "∩"%string. glyph_case "∞"%string. glyph_case "∑"%string.
  glyph_case "∏"%string. glyph_case "∫"%string. glyph_case "√"%string.
  glyph_case "∂"%string. glyph_case "∇"%string.
  apply apply_table_absent. unfold unicode_to_latex.
  repeat (apply Forall_cons;
          [let H := fresh "H" in
           intros [H|[]]; vm_compute in H; congruence|]).
  apply Forall_nil.
Qed.

Lemma apply_unicode_is_map (t : str) :
  apply_unicode_to_latex t = flat_map latex_of t.
Proof.
  induction t as [|c t IH]; [reflexivity|].
  change (c :: t) with ([c] ++ t) at 1.
  unfold apply_unicode_to_latex. rewrite apply_table_app.
  fold (apply_unicode_to_latex [c]). fold (apply_unicode_to_latex t).
  rewrite apply_unicode_single, IH. reflexivity.
Qed.

(** Steps 1 and 2 bring in no character but the space and the newline. *)
Lemma first_steps_keep_out (c : char) (t : str) :
  c <> ch " " -> c <> nl -> ~ In c t ->
  ~ In c (replace word_joiner [] (collapse_stacked_math t)).
Proof.
  intros H1 H2 H. apply Forall_not_In. apply replace_Forall; [constructor|].
  apply collapse_stacked_math_Forall; try (intro E; symmetry in E; contradiction).
  apply Forall_not_In. exact H.
Qed.

Lemma inline_fragments_untouched (t : str) :
  ~ In (ch "\") t -> ~ In (ch "$") t -> convert_inline_latex_fragments t = t.
Proof.
  intros Hb Hd. unfold convert_inline_latex_fragments, inline_patterns.
  cbv zeta. cbn [fold_left].
  rewrite (re_sub_absent (ch "\") (wrapped_command_re "mathbf") _ t eq_refl Hb).
  rewrite (re_sub_absent (ch "\") (wrapped_command_re "mathit") _ t eq_refl Hb).
  rewrite (re_sub_absent (ch "\") (wrapped_command_re "mathrm") _ t eq_refl Hb).
  rewrite (re_sub_absent (ch "\") any_command_re _ t eq_refl Hb).
  rewrite (re_sub_absent (ch "$") double_dollar_re _ t eq_refl Hd).
  apply (re_sub_absent (ch "$") adjacent_dollar_re _ t eq_refl Hd).
Qed.

(** Jupyter mode on prose: without brace, backslash and dollar sign the
    steps 3 to 5 find nothing. *)
Lemma jupyter_on_prose (text : str) :
  ~ In (ch "{") text -> ~ In (ch "\") text -> ~ In (ch "$") text ->
  jupyter_branch (dedup_steps text)
  = apply_unicode_to_latex (replace word_joiner [] (collapse_stacked_math text)).
Proof.
  intros Hl Hb Hd. unfold dedup_steps, jupyter_branch. cbv zeta.
  set (t1 := replace word_joiner [] (collapse_stacked_math text)).
  assert (Hl1 : ~ In lbrace t1)
    by (apply first_steps_keep_out; [discriminate|discriminate|exact Hl]).
  assert (Hb1 : ~ In (ch "\") t1)
    by (apply first_steps_keep_out; [discriminate|discriminate|exact Hb]).
  assert (Hd1 : ~ In (ch "$") t1)
    by (apply first_steps_keep_out; [discriminate|discriminate|exact Hd]).
  unfold dedup_backref. rewrite (re_sub_absent lbrace dedup_backref_re _ t1 eq_refl Hl1).
  unfold dedup_class. rewrite (re_sub_absent lbrace dedup_class_re _ t1 eq_refl Hl1).
  unfold convert_displaystyle_latex.
  rewrite (re_sub_absent lbrace displaystyle_re _ t1 eq_refl Hl1).
  rewrite (inline_fragments_untouched t1 Hb1 Hd1). reflexivity.
Qed.

(** C8. In jupyter mode the output of [clean_wikipedia_text] contains
    none of the twenty glyphs, wherever the glyph stood in the input.
    Step 6 works on the whole string, one character at a time: the
    output is the text that steps 1 to 5 leave, with every glyph
    replaced by its command ([latex_of]), then blank-line collapsed and
    stripped.  On prose (no brace, no backslash, no dollar sign) steps 3
    to 5 change nothing, and the output is the input after steps 1 and
    2, with every multiplication sign replaced by [ \times ], every
    infinity sign by [\infty], and so on, blank-line collapsed and
    stripped. *)
Theorem jupyter_output_has_no_glyph :
  (forall text : str,
      Forall (fun g => ~ In g (clean_wikipedia_text text true))
             (u "×÷±≤≥≠≈∈∉⊂⊃∪∩∞∑∏∫√∂∇"))
  /\ (forall text : str,
      clean_wikipedia_text text true
      = strip (collapse_blank_lines
                 (flat_map latex_of
                    (convert_inline_latex_fragments
                       (convert_displaystyle_latex (dedup_steps text))))))
  /\ (forall text : str,
      ~ In (ch "{") text -> ~ In (ch "\") text -> ~ In (ch "$") text ->
      clean_wikipedia_text text true
      = strip (collapse_blank_lines
                 (flat_map latex_of
                    (replace word_joiner [] (collapse_stacked_math text))))).
Proof.
  split; [|split].
  - intros text. rewrite Forall_forall. intros g Hg.
    assert (Hg' : In g glyphs).
    { assert (E : u "×÷±≤≥≠≈∈∉⊂⊃∪∩∞∑∏∫√∂∇" = glyphs) by (vm_compute; reflexivity).
      rewrite <- E. exact Hg. }
    unfold clean_wikipedia_text, jupyter_branch.
    apply Forall_not_In. apply strip_Forall.
    unfold collapse_blank_lines. apply re_sub_preserves.
    + apply Forall_not_In. unfold apply_unicode_to_latex.
      apply apply_table_removes.
      * intros kv Hkv. apply latex_has_no_glyph; assumption.
      * left. exact Hg'.
    + intros _ _. pose proof (glyph_not_newline g Hg') as Hn.
      repeat constructor; intro E; apply Hn; symmetry; exact E.
  - intros text. unfold clean_wikipedia_text, jupyter_branch. cbv zeta.
    rewrite apply_unicode_is_map. reflexivity.
  - intros text Hl Hb Hd. unfold clean_wikipedia_text. cbv zeta.
    rewrite (jupyter_on_prose text Hl Hb Hd), apply_unicode_is_map.
    reflexivity.
Qed.

Lemma jupyter_output_has_no_glyph_witness :
  clean_wikipedia_text (u "3 × 4 is not ∞") true = u "3  \times  4 is not \infty".
Proof.
  rewrite (proj2 (proj2 jupyter_output_has_no_glyph) (u "3 × 4 is not ∞"));
    [vm_compute; reflexivity|absent|absent|absent].
Defined.

(* ===================================================================== *)
(** * Plain mode on its own result                                        *)
(* ===================================================================== *)

Lemma contains_unfold (s t : str) :
  contains s t = starts_with s t
                 || match t with [] => false | _ :: t' => contains s t' end.
Proof. destruct t; reflexivity. Qed.

Lemma starts_with_app (s r : str) : starts_with s (s ++ r) = true.
Proof.
  induction s as [|a s IH]; [reflexivity|].
  simpl. unfold chr_eqb. rewrite N.eqb_refl. exact IH.
Qed.

Lemma contains_intro (pre s post : str) : contains s (pre ++ s ++ post) = true.
Proof.
  induction pre as [|a pre IH].
  - rewrite contains_unfold. simpl. rewrite starts_with_app. reflexivity.
  - rewrite contains_unfold. cbn [app]. rewrite IH. apply orb_true_r.
Qed.

Lemma ends_with_intro (pre s : str) : ends_with (pre ++ s) s = true.
Proof. unfold ends_with. rewrite rev_app_distr. apply starts_with_app. Qed.

Lemma squeezed_no_newline (t : str) : squeezed t -> ~ In nl t.
Proof.
  induction t as [|a t IH]; [intros _ []|].
  intros [H1 [_ H3]] [E|Hin].
  - subst a. specialize (H1 eq_refl). discriminate H1.
  - exact (IH H3 Hin).
Qed.

Lemma rmatch_opt_chr_inv (c : char) st st' :
  rmatch (Opt (Chr c)) st st' ->
  (after st = c :: after st') \/ st' = st.
Proof.
  unfold Opt. intros H.
  inversion H as [| | | |r1 r2 s s1 H1|r1 r2 s s1 H1| | | | | | | | | |]; subst.
  - left. apply rmatch_chr_inv in H1. destruct H1 as [[A _] _]. exact A.
  - right. inversion H1; subst. reflexivity.
Qed.

(** The pattern of the starred superscript begins with a caret followed
    by a star, or by an opening brace and a star. *)
Lemma star_superscript_absent (s : str) :
  contains (u "^*") s = false -> contains (u "^{*") s = false ->
  forall st st', subject st = s -> rmatch star_superscript_re (clear st) st' -> False.
Proof.
  intros H1 H2 st st' Hs H. unfold star_superscript_re in H.
  apply rmatch_seq_inv in H. destruct H as [s1 [M1 H]].
  apply rmatch_seq_inv in H. destruct H as [s2 [M2 H]].
  apply rmatch_seq_inv in H. destruct H as [s3 [M3 _]].
  apply rmatch_chr_inv in M1. destruct M1 as [[A1 _] _]. simpl in A1.
  apply rmatch_chr_inv in M3. destruct M3 as [[A3 _] _]. simpl in A3.
  apply rmatch_opt_chr_inv in M2. unfold subject in Hs.
  destruct M2 as [A2|E].
  - rewrite A1, A2, A3 in Hs.
    change (rev (before st) ++ u "^{*" ++ after s3 = s) in Hs.
    rewrite <- Hs, contains_intro in H2. discriminate H2.
  - subst s2. rewrite A1, A3 in Hs.
    change (rev (before st) ++ u "^*" ++ after s3 = s) in Hs.
    rewrite <- Hs, contains_intro in H1. discriminate H1.
Qed.

(** In a one-line text without whitespace at its end, the pattern of the
    trailing comma matches the last character only. *)
Lemma trailing_comma_absent (s : str) :
  ~ In nl s -> strip s = s -> ends_with s (u ",") = false ->
  forall st st', subject st = s -> rmatch trailing_comma_re (clear st) st' -> False.
Proof.
  intros Hnl Hst Hc st st' Hs H. unfold trailing_comma_re in H.
  apply rmatch_seq_inv in H. destruct H as [s1 [M1 H]].
  apply rmatch_seq_inv in H. destruct H as [s2 [M2 M3]].
  apply rmatch_chr_inv in M1. destruct M1 as [[A1 _] _]. simpl in A1.
  apply rmatch_star_cls_inv in M2. destruct M2 as [w [[A2 _] [Fw _]]].
  unfold subject in Hs. rewrite A1, A2 in Hs.
  inversion M3 as [| | | | | | | | | | | | |s0 He| |]; subst s0 st'.
  destruct He as [He|[rest He]].
  - rewrite He, app_nil_r in Hs.
    destruct w as [|x w0].
    + cbn [app] in Hs.
      change (rev (before st) ++ u "," = s) in Hs.
      rewrite <- Hs, ends_with_intro in Hc. discriminate Hc.
    + destruct (exists_last (l := x :: w0)) as [w' [z Ew]]; [discriminate|].
      rewrite Ew in Hs, Fw. clear Ew. apply Forall_app in Fw. destruct Fw as [_ Fz].
      pose proof (Forall_inv Fz) as Hz. simpl in Hz.
      pose proof (strip_ends_clean s) as Hend. rewrite Hst in Hend.
      rewrite <- Hs in Hend.
      change (rev (before st) ++ [ch ","] ++ w' ++ [z])
        with (rev (before st) ++ ch "," :: w' ++ [z]) in Hend.
      rewrite app_comm_cons, app_assoc, rev_app_distr in Hend.
      simpl in Hend. congruence.
  - apply Hnl. rewrite <- Hs, He.
    apply in_or_app. right. right. apply in_or_app. right. left. reflexivity.
Qed.

(** Plain mode writes fixed text and pieces of its subject, nothing
    else. *)
Lemma apply_latex_Forall (P : char -> Prop) t :
  Forall (fun kv : string * string => Forall P (u (snd kv))) latex_to_unicode ->
  Forall P t -> Forall P (apply_latex_to_unicode t).
Proof.
  unfold apply_latex_to_unicode. intros F. revert t.
  induction F as [|kv table Hkv _ IH]; intros t H; [exact H|].
  simpl. apply IH. apply re_sub_preserves; [exact H|]. intros. exact Hkv.
Qed.

Lemma plain_branch_Forall (P : char -> Prop) t :
  P (ch " ") -> P nl -> P (ch "*") -> P (ch "^") -> P (ch "_") ->
  Forall (fun kv : string * string => Forall P (u (snd kv))) latex_to_unicode ->
  Forall P t -> Forall P (plain_branch t).
Proof.
  intros Hsp Hnl Hst Hca Hun Htab H. cbv beta zeta delta [plain_branch].
  unfold collapse_blank_lines, collapse_whitespace.
  apply re_sub_preserves; [|intros; repeat constructor; assumption].
  apply re_sub_preserves; [|intros; repeat constructor; assumption].
  apply re_sub_preserves; [|intros; constructor].
  apply re_sub_preserves; [|intros; constructor].
  apply re_sub_keeps;
    [|intros st st' _ Hg; apply Forall_app; split;
      [repeat constructor; assumption|apply Hg]].
  apply re_sub_keeps;
    [|intros st st' _ Hg; apply Forall_app; split;
      [repeat constructor; assumption|apply Hg]].
  apply re_sub_preserves; [|intros; repeat constructor; assumption].
  apply apply_latex_Forall; [exact Htab|].
  unfold unwrap.
  do 4 (apply re_sub_keeps; [|intros st st' _ Hg; apply Hg]).
  apply re_sub_preserves; [exact H|intros; constructor].
Qed.

(** Without backslash the two substitutions of step 3 find nothing. *)
Lemma dedup_steps_without_backslash (text : str) :
  ~ In (ch "\") text ->
  dedup_steps text = replace word_joiner [] (collapse_stacked_math text).
Proof.
  intros Hb. unfold dedup_steps. cbv zeta.
  set (t1 := replace word_joiner [] (collapse_stacked_math text)).
  assert (Hb1 : ~ In (ch "\") t1)
    by (apply first_steps_keep_out; [discriminate|discriminate|exact Hb]).
  unfold dedup_backref. rewrite (re_sub_absent (ch "\") dedup_backref_re _ t1 eq_refl Hb1).
  unfold dedup_class. apply (re_sub_absent (ch "\") dedup_class_re _ t1 eq_refl Hb1).
Qed.

Lemma clean_plain_shape (text : str) :
  clean_wikipedia_text text false = strip (plain_branch (dedup_steps text)).
Proof.
  unfold clean_wikipedia_text.
  rewrite (collapse_blank_lines_no_newline _
             (plain_branch_no_newline (dedup_steps text))).
  reflexivity.
Qed.

(** Plain mode brings no backslash into a text that has none. *)
Lemma clean_plain_keeps_backslash_out (text : str) :
  ~ In (ch "\") text -> ~ In (ch "\") (clean_wikipedia_text text false).
Proof.
  intros Hb. rewrite clean_plain_shape, (dedup_steps_without_backslash text Hb).
  apply Forall_not_In. apply strip_Forall.
  apply plain_branch_Forall; try discriminate.
  - repeat (apply Forall_cons; [other|]). apply Forall_nil.
  - apply Forall_not_In.
    apply first_steps_keep_out; [discriminate|discriminate|exact Hb].
Qed.

(** The [else] branch has nothing to do on a text that looks like one of
    its results and holds no starred superscript and no comma at its
    end. *)
Lemma plain_branch_fixed (s : str) :
  ~ In (ch "\") s -> ~ In rbrace s -> squeezed s -> strip s = s ->
  contains (u "^*") s = false -> contains (u "^{*") s = false ->
  ends_with s (u ",") = false ->
  plain_branch s = s.
Proof.
  intros Hb Hr Hsq Hst H1 H2 Hc.
  pose proof (squeezed_no_newline s Hsq) as Hnl.
  unfold plain_branch. cbv zeta.
  rewrite (re_sub_absent (ch "\") displaystyle_block_re _ s eq_refl Hb).
  unfold unwrap.
  rewrite (re_sub_absent (ch "\") (unwrap_re "mathbf") _ s eq_refl Hb).
  rewrite (re_sub_absent (ch "\") (unwrap_re "mathit") _ s eq_refl Hb).
  rewrite (re_sub_absent (ch "\") (unwrap_re "mathrm") _ s eq_refl Hb).
  rewrite (re_sub_absent (ch "\") (unwrap_re "text") _ s eq_refl Hb).
  rewrite (apply_latex_to_unicode_absent s Hb).
  rewrite (re_sub_no_match star_superscript_re _ s (star_superscript_absent s H1 H2)).
  rewrite (re_sub_absent rbrace (braced_script_re "^") _ s eq_refl Hr).
  rewrite (re_sub_absent rbrace (braced_script_re "_") _ s eq_refl Hr).
  rewrite (re_sub_absent rbrace (Chr rbrace) _ s eq_refl Hr).
  rewrite (re_sub_no_match trailing_comma_re _ s (trailing_comma_absent s Hnl Hst Hc)).
  rewrite (collapse_whitespace_fixed s Hsq).
  apply (collapse_blank_lines_no_newline s Hnl).
Qed.

Lemma clean_plain_fixed (s : str) :
  ~ In (ch "\") s -> ~ In rbrace s -> ~ In word_joiner s ->
  squeezed s -> strip s = s ->
  contains (u "^*") s = false -> contains (u "^{*") s = false ->
  ends_with s (u ",") = false ->
  clean_wikipedia_text s false = s.
Proof.
  intros Hb Hr Hw Hsq Hst H1 H2 Hc.
  pose proof (squeezed_no_newline s Hsq) as Hnl.
  rewrite clean_plain_shape, (dedup_steps_without_backslash s Hb).
  rewrite (collapse_stacked_math_one_line s Hnl).
  rewrite (replace_absent word_joiner [] s Hw).
  rewrite (plain_branch_fixed s Hb Hr Hsq Hst H1 H2 Hc). exact Hst.
Qed.


(* ===================================================================== *)
(** * When a second pass of plain mode changes the text                   *)
(* ===================================================================== *)

Lemma starts_with_elim (s : str) : forall t,
  starts_with s t = true -> exists post, t = s ++ post.
Proof.
  induction s as [|a s IH]; intros t H.
  - exists t. reflexivity.
  - destruct t as [|b t]; [discriminate H|]. simpl in H.
    apply andb_true_iff in H. destruct H as [Hab H].
    apply N.eqb_eq in Hab. subst b.
    destruct (IH t H) as [post E]. exists post. rewrite E. reflexivity.
Qed.

Lemma contains_elim (s t : str) :
  contains s t = true -> exists pre post, t = pre ++ s ++ post.
Proof.
  induction t as [|b t IH]; intros H; rewrite contains_unfold in H;
    apply orb_true_iff in H; destruct H as [H|H].
  - destruct (starts_with_elim s _ H) as [post E]. exists [], post. exact E.
  - discriminate H.
  - destruct (starts_with_elim s _ H) as [post E]. exists [], post. exact E.
  - destruct (IH H) as [pre [post E]]. exists (b :: pre), post.
    rewrite E. reflexivity.
Qed.

Lemma ends_with_elim (t s : str) :
  ends_with t s = true -> exists pre, t = pre ++ s.
Proof.
  unfold ends_with. intros H. destruct (starts_with_elim _ _ H) as [post E].
  exists (rev post). apply (f_equal (@rev char)) in E.
  rewrite rev_involutive, rev_app_distr, rev_involutive in E. exact E.
Qed.

(** A substitution whose replacements are no longer than the matches
    does not lengthen the text; it shortens it when there is a place
    where the pattern matches and the replacements are shorter. *)
Lemma sub_loop_length_le r repl :
  (forall adv st st', match_here r adv st = Some st' ->
     (List.length (repl (clear st) st') <= List.length (between st st'))%nat) ->
  forall fuel adv st,
    (List.length (sub_loop r repl fuel adv st) <= List.length (after st))%nat.
Proof.
  intros H. induction fuel as [|f IH]; intros adv st; [simpl; lia|].
  cbn [sub_loop]. destruct (match_here r adv st) as [st'|] eqn:E.
  - destruct (match_here_moved E) as [w Mw].
    pose proof (H adv st st' E) as Hl. rewrite (moved_between Mw) in Hl.
    destruct Mw as [A _]. rewrite A, !length_app.
    specialize (IH (Nat.eqb (remaining st') (remaining st)) st'). lia.
  - destruct (after st) as [|c rest] eqn:Ea; [simpl; lia|].
    specialize (IH false (step c rest st)). simpl in IH. simpl. lia.
Qed.

Lemma re_sub_length_le r repl text :
  (forall adv st st', match_here r adv st = Some st' ->
     (List.length (repl (clear st) st') <= List.length (between st st'))%nat) ->
  (List.length (re_sub r repl text) <= List.length text)%nat.
Proof. intros H. exact (sub_loop_length_le r repl H _ false (start_of text)). Qed.

Lemma sub_loop_shrinks r repl :
  (forall adv st st', match_here r adv st = Some st' ->
     (List.length (repl (clear st) st') < List.length (between st st'))%nat) ->
  forall (P : str) fuel st rest,
    after st = P ++ rest -> (List.length P < fuel)%nat ->
    (exists y, match_here r false (jump P st) = Some y) ->
    (List.length (sub_loop r repl fuel false st) < List.length (after st))%nat.
Proof.
  intros H.
  assert (Hle : forall fuel adv st,
             (List.length (sub_loop r repl fuel adv st) <= List.length (after st))%nat).
  { apply sub_loop_length_le. intros adv st st' E.
    apply Nat.lt_le_incl. exact (H adv st st' E). }
  assert (Hhit : forall f st st', match_here r false st = Some st' ->
            (List.length (repl (clear st) st'
                            ++ sub_loop r repl f (Nat.eqb (remaining st') (remaining st)) st')
             < List.length (after st))%nat).
  { intros f st st' E. destruct (match_here_moved E) as [w Mw].
    pose proof (H false st st' E) as Hl. rewrite (moved_between Mw) in Hl.
    destruct Mw as [A _]. rewrite A, !length_app.
    specialize (Hle f (Nat.eqb (remaining st') (remaining st)) st'). lia. }
  induction P as [|c P IH]; intros fuel st rest Ea Hf [y Hy].
  - destruct fuel as [|f]; [lia|]. rewrite jump_nil in Hy.
    cbn [sub_loop]. rewrite Hy. apply Hhit. exact Hy.
  - destruct fuel as [|f]; [lia|]. cbn [sub_loop].
    destruct (match_here r false st) as [st'|] eqn:E; [apply Hhit; exact E|].
    change (after st = c :: (P ++ rest)) in Ea. rewrite Ea.
    rewrite (jump_cons P Ea) in Hy.
    assert (Hf' : (List.length P < f)%nat) by (simpl in Hf; lia).
    pose proof (IH f (step c (P ++ rest) st) rest eq_refl Hf'
                  (ex_intro _ y Hy)) as Hlt.
    simpl in Hlt. simpl. lia.
Qed.

Lemma re_sub_shrinks r repl (pre rest : str) :
  (forall adv st st', match_here r adv st = Some st' ->
     (List.length (repl (clear st) st') < List.length (between st st'))%nat) ->
  (exists y, match_here r false (jump pre (start_of (pre ++ rest))) = Some y) ->
  (List.length (re_sub r repl (pre ++ rest)) < List.length (pre ++ rest))%nat.
Proof.
  intros H Hy. unfold re_sub.
  apply (sub_loop_shrinks r repl H pre _ (start_of (pre ++ rest)) rest eq_refl);
    [rewrite length_app; lia|exact Hy].
Qed.

Lemma rmatch_remaining [r st st'] :
  rmatch r st st' -> (remaining st' <= remaining st)%nat.
Proof.
  intros H. destruct (rmatch_moved _ _ _ H) as [w Mw].
  rewrite (moved_remaining Mw). lia.
Qed.

Lemma rmatch_chr_remaining [c st st'] :
  rmatch (Chr c) st st' -> remaining st = S (remaining st').
Proof.
  intros H. apply rmatch_chr_inv in H. destruct H as [Mw _].
  rewrite (moved_remaining Mw). reflexivity.
Qed.

Lemma between_length [r adv st st'] :
  match_here r adv st = Some st' ->
  List.length (between st st') = (remaining st - remaining st')%nat.
Proof.
  intros E. destruct (match_here_moved E) as [w Mw].
  rewrite (moved_between Mw), (moved_remaining Mw). lia.
Qed.

(** A match of the starred superscript is two characters long or more,
    a match of the trailing comma and a run of whitespace one or
    more. *)
Lemma star_superscript_match_long adv st st' :
  match_here star_superscript_re adv st = Some st' ->
  (2 <= List.length (between st st'))%nat.
Proof.
  intros E. rewrite (between_length E).
  destruct (match_here_sound E) as [H _]. unfold star_superscript_re in H.
  apply rmatch_seq_inv in H. destruct H as [s1 [M1 H]].
  apply rmatch_seq_inv in H. destruct H as [s2 [M2 H]].
  apply rmatch_seq_inv in H. destruct H as [s3 [M3 M4]].
  apply rmatch_chr_remaining in M1. apply rmatch_remaining in M2.
  apply rmatch_chr_remaining in M3. apply rmatch_remaining in M4.
  change (remaining (clear st)) with (remaining st) in M1. lia.
Qed.

Lemma trailing_comma_match_long adv st st' :
  match_here trailing_comma_re adv st = Some st' ->
  (1 <= List.length (between st st'))%nat.
Proof.
  intros E. rewrite (between_length E).
  destruct (match_here_sound E) as [H _]. unfold trailing_comma_re in H.
  apply rmatch_seq_inv in H. destruct H as [s1 [M1 M2]].
  apply rmatch_chr_remaining in M1. apply rmatch_remaining in M2.
  change (remaining (clear st)) with (remaining st) in M1. lia.
Qed.

Lemma whitespace_run_match_long adv st st' :
  match_here whitespace_run adv st = Some st' ->
  (1 <= List.length (between st st'))%nat.
Proof.
  intros E. rewrite (between_length E).
  destruct (match_here_sound E) as [H _]. unfold whitespace_run in H.
  apply rmatch_plus_cls_inv in H. destruct H as [c [w [Mw _]]].
  pose proof (moved_remaining Mw) as Hrem.
  change (remaining (clear st)) with (remaining st) in Hrem.
  simpl in Hrem. lia.
Qed.

(** Where a caret is followed by a star, or by an opening brace and a
    star, the pattern of the starred superscript matches; the pattern of
    the trailing comma matches a comma that ends the text. *)
Lemma star_superscript_matches (st : state) (post : str) :
  after st = u "^*" ++ post \/ after st = u "^{*" ++ post ->
  exists y, match_here star_superscript_re false st = Some y.
Proof.
  intros [E|E].
  - apply (@match_here_first star_superscript_re st
             (step (ch "*") post (step (ch "^") (ch "*" :: post) (clear st)))).
    unfold star_superscript_re.
    eapply M_Seq; [apply M_Chr; exact E|].
    eapply M_Seq; [apply M_AltR, M_Eps|].
    eapply M_Seq; [apply M_Chr; reflexivity|]. apply M_AltR, M_Eps.
  - apply (@match_here_first star_superscript_re st
             (step (ch "*") post
                (step lbrace (ch "*" :: post)
                   (step (ch "^") (lbrace :: ch "*" :: post) (clear st))))).
    unfold star_superscript_re.
    eapply M_Seq; [apply M_Chr; exact E|].
    eapply M_Seq; [apply M_AltL, M_Chr; reflexivity|].
    eapply M_Seq; [apply M_Chr; reflexivity|]. apply M_AltR, M_Eps.
Qed.

Lemma trailing_comma_matches (st : state) :
  after st = u "," ->
  exists y, match_here trailing_comma_re false st = Some y.
Proof.
  intros E.
  apply (@match_here_first trailing_comma_re st (step (ch ",") [] (clear st))).
  unfold trailing_comma_re.
  eapply M_Seq; [apply M_Chr; exact E|].
  eapply M_Seq; [apply M_StarDone|]. apply M_EolM. left. reflexivity.
Qed.

Lemma strip_length_le (t : str) : (List.length (strip t) <= List.length t)%nat.
Proof.
  destruct (strip_infix t) as [l [r E]]. rewrite E at 2.
  rewrite !length_app. lia.
Qed.

(** On a text that looks like a result of plain mode, a second pass
    shortens the text when it holds a starred superscript or ends in a
    comma. *)
Lemma clean_plain_shrinks (s : str) :
  ~ In (ch "\") s -> ~ In rbrace s -> ~ In word_joiner s ->
  squeezed s -> strip s = s ->
  contains (u "^*") s = true \/ contains (u "^{*") s = true
  \/ ends_with s (u ",") = true ->
  (List.length (clean_wikipedia_text s false) < List.length s)%nat.
Proof.
  intros Hb Hr Hw Hsq Hst Hcase.
  pose proof (squeezed_no_newline s Hsq) as Hnl.
  rewrite clean_plain_shape, (dedup_steps_without_backslash s Hb).
  rewrite (collapse_stacked_math_one_line s Hnl).
  rewrite (replace_absent word_joiner [] s Hw).
  unfold plain_branch. cbv zeta.
  rewrite (re_sub_absent (ch "\") displaystyle_block_re _ s eq_refl Hb).
  unfold unwrap.
  rewrite (re_sub_absent (ch "\") (unwrap_re "mathbf") _ s eq_refl Hb).
  rewrite (re_sub_absent (ch "\") (unwrap_re "mathit") _ s eq_refl Hb).
  rewrite (re_sub_absent (ch "\") (unwrap_re "mathrm") _ s eq_refl Hb).
  rewrite (re_sub_absent (ch "\") (unwrap_re "text") _ s eq_refl Hb).
  rewrite (apply_latex_to_unicode_absent s Hb).
  set (a := re_sub star_superscript_re (fun _ _ => u "*") s).
  assert (Har : ~ In rbrace a).
  { apply Forall_not_In. apply re_sub_preserves; [|intros; other].
    apply Forall_not_In. exact Hr. }
  rewrite (re_sub_absent rbrace (braced_script_re "^") _ a eq_refl Har).
  rewrite (re_sub_absent rbrace (braced_script_re "_") _ a eq_refl Har).
  rewrite (re_sub_absent rbrace (Chr rbrace) _ a eq_refl Har).
  set (e := re_sub trailing_comma_re (fun _ _ => []) a).
  rewrite (collapse_blank_lines_no_newline (collapse_whitespace e))
    by (apply only_plain_spaces_no_newline, collapse_whitespace_spaces).
  pose proof (strip_length_le (collapse_whitespace e)) as L1.
  assert (L2 : (List.length (collapse_whitespace e) <= List.length e)%nat).
  { apply re_sub_length_le. intros adv st st' E.
    apply whitespace_run_match_long in E. exact E. }
  assert (L3 : (List.length e <= List.length a)%nat).
  { apply re_sub_length_le. intros. simpl. lia. }
  assert (L4 : (List.length a <= List.length s)%nat).
  { apply re_sub_length_le. intros adv st st' E.
    apply star_superscript_match_long in E. simpl. lia. }
  assert (Hstar : forall pre post,
             s = pre ++ u "^*" ++ post \/ s = pre ++ u "^{*" ++ post ->
             (List.length a < List.length s)%nat).
  { intros pre post Hs. unfold a.
    assert (Es : exists rest, s = pre ++ rest
                 /\ (rest = u "^*" ++ post \/ rest = u "^{*" ++ post)).
    { destruct Hs as [Hs|Hs]; eexists; (split; [exact Hs|]); [left|right]; reflexivity. }
    destruct Es as [rest [Es Hrest]]. rewrite Es.
    apply re_sub_shrinks.
    - intros adv st st' E. apply star_superscript_match_long in E. simpl. lia.
    - apply (star_superscript_matches _ post).
      rewrite (jump_after (w := pre) (rest := rest)) by reflexivity. exact Hrest. }
  destruct (contains (u "^*") s) eqn:C1.
  { destruct (contains_elim _ _ C1) as [pre [post Es]].
    pose proof (Hstar pre post (or_introl Es)). lia. }
  destruct (contains (u "^{*") s) eqn:C2.
  { destruct (contains_elim _ _ C2) as [pre [post Es]].
    pose proof (Hstar pre post (or_intror Es)). lia. }
  destruct Hcase as [Hc|[Hc|Hc]]; try discriminate Hc.
  assert (Ea : a = s)
    by (apply re_sub_no_match; exact (star_superscript_absent s C1 C2)).
  destruct (ends_with_elim _ _ Hc) as [pre Es].
  assert (L5 : (List.length e < List.length a)%nat).
  { unfold e. rewrite Ea, Es. apply re_sub_shrinks.
    - intros adv st st' E. apply trailing_comma_match_long in E. simpl. lia.
    - apply trailing_comma_matches. apply jump_after. reflexivity. }
  lia.
Qed.

(** C7, as the code has it.  On a text without backslash (no LaTeX
    command), plain mode applied twice gives what plain mode applied
    once gives exactly when the text cleaned once holds no caret
    followed by a star or by an opening brace and a star, and does not
    end in a comma.  Commas and carets anywhere else are no obstacle. *)
Theorem plain_mode_idempotent (text : str) :
  ~ In (ch "\") text ->
  (clean_wikipedia_text (clean_wikipedia_text text false) false
   = clean_wikipedia_text text false
   <-> contains (u "^*") (clean_wikipedia_text text false) = false
       /\ contains (u "^{*") (clean_wikipedia_text text false) = false
       /\ ends_with (clean_wikipedia_text text false) (u ",") = false).
Proof.
  intros Hb.
  assert (P1 : ~ In (ch "\") (clean_wikipedia_text text false))
    by exact (clean_plain_keeps_backslash_out text Hb).
  assert (P2 : ~ In rbrace (clean_wikipedia_text text false)).
  { rewrite clean_plain_shape.
    apply Forall_not_In, strip_Forall, Forall_not_In.
    apply plain_branch_no_closing_brace. }
  assert (P3 : ~ In word_joiner (clean_wikipedia_text text false))
    by (apply Forall_not_In; exact (clean_keeps_word_joiner_out text false)).
  assert (P4 : squeezed (clean_wikipedia_text text false))
    by (rewrite clean_plain_shape; apply strip_squeezed, plain_branch_squeezed).
  assert (P5 : strip (clean_wikipedia_text text false) = clean_wikipedia_text text false)
    by (rewrite clean_plain_shape; apply strip_idempotent).
  split.
  - intros E.
    assert (Hno : ~ (contains (u "^*") (clean_wikipedia_text text false) = true
                     \/ contains (u "^{*") (clean_wikipedia_text text false) = true
                     \/ ends_with (clean_wikipedia_text text false) (u ",") = true)).
    { intros Hcase.
      pose proof (clean_plain_shrinks _ P1 P2 P3 P4 P5 Hcase) as Hlt.
      rewrite E in Hlt. lia. }
    split; [|split]; apply not_true_is_false; intros H; apply Hno;
      [left|right; left|right; right]; exact H.
  - intros [H1 [H2 Hc]]. exact (clean_plain_fixed _ P1 P2 P3 P4 P5 H1 H2 Hc).
Qed.

Lemma plain_mode_idempotent_witness :
  clean_wikipedia_text
    (clean_wikipedia_text
       (u "Hello,  world: x^2, a^{*}, the entry a_{ij} }" ++ [nl] ++ u " of M ")
       false) false
  = clean_wikipedia_text
      (u "Hello,  world: x^2, a^{*}, the entry a_{ij} }" ++ [nl] ++ u " of M ") false.
Proof.
  apply (proj2 (plain_mode_idempotent
                  (u "Hello,  world: x^2, a^{*}, the entry a_{ij} }" ++ [nl] ++ u " of M ")
                  ltac:(absent)));
    (split; [|split]); vm_compute; reflexivity.
Defined.
(** The condition on the caret is needed as well: plain mode makes
    [^^*] into [^*], and makes that into [*]. *)
Lemma starred_superscript_twice_differs :
  clean_wikipedia_text (u "^^*") false = u "^*"
  /\ clean_wikipedia_text (u "^*") false = u "*".
Proof. split; vm_compute; reflexivity. Qed.

(* ===================================================================== *)
(** * Step 3 as a whole                                                   *)
(* ===================================================================== *)




























